(** * website2pdf: the sitemap-driven conversion pipeline

    A shallow embedding of [src/index.ts] (the second part of the source
    listing): [main], [processSitemaps], [processSitemap], [sitemapToPDF]
    and [pageToPDF], together with the constant [DEFAULT_PROCESS_POOL] of
    [src/utils/const.ts].

    The program is asynchronous.  Every function is modelled as a task that
    moves from one await point to the next; the external collaborators
    (puppeteer, fs-extra) answer through an oracle, the [Backend]; the two
    [PromisePool]s interleave the steps of the tasks in flight under a
    schedule, a list of choices that says whose pending I/O completes
    next.  Theorems quantify over every backend and every schedule. *)

From stdpp Require Import base list sorting strings gmap.


(** ** Data model *)

Definition URL := string.

(** A JavaScript value of type [string | null]. *)
Definition JsString := option string.

(** [Map<string, string>]; at run time a value may be [null] (line 243:
    [meta[1]!] is the result of [getAttribute('content')]). *)
Abbreviation Metadata := (gmap string JsString).

Record ICliArguments := {
  outputDir : string;
  displayHeaderFooter : bool;
  marginTop : string;
  marginBottom : string;
  marginLeft : string;
  marginRight : string;
  chromiumFlags : string;
  safeTitle : bool;
  processPool : nat;
}.

Record PdfTemplate := { header : string; footer : string }.

Record WebsiteSitemap := { rootUrl : URL; urls : list URL }.

Record Website := {
  sitemaps : list WebsiteSitemap;
  pdfTemplate : PdfTemplate;
  sitemapURL : string;
}.

(** [src/utils/const.ts], line 31. *)
Definition DEFAULT_PROCESS_POOL : nat := 10.

(** *** The result tracker *)

(** Modelled from the spec: [./utils/stats] ([PrintResults], [STATUS_PRINTED],
    [STATUS_ERROR]) is not among the sources.  A ConversionOutcome is
    { url, filePath, status: one of PRINTED, ERRORED }. *)
Inductive Status := STATUS_PRINTED | STATUS_ERROR.

Record ConversionOutcome := {
  oc_url : URL;
  oc_filePath : string;
  oc_status : Status;
}.

Global Instance Status_eq_dec : EqDecision Status.
Proof. solve_decision. Defined.

Global Instance ConversionOutcome_eq_dec : EqDecision ConversionOutcome.
Proof. solve_decision. Defined.

(** Modelled from the spec: [PrintResults.storeResult(url, filePath, status)]
    appends one ConversionOutcome to the collection. *)
Definition storeResult (url : URL) (filePath : string) (status : Status)
    (store : list ConversionOutcome) : list ConversionOutcome :=
  store ++ [{| oc_url := url; oc_filePath := filePath; oc_status := status |}].

Definition has_status (s : Status) (o : ConversionOutcome) : bool :=
  bool_decide (oc_status o = s).

(** Modelled from the spec: [PrintResults.printResults()] produces a summary:
    total attempted, total PRINTED, total ERRORED, and the ERRORED entries. *)
Record Summary := {
  sum_total : nat;
  sum_printed : nat;
  sum_errored : nat;
  sum_errors : list ConversionOutcome;
}.

Definition printResults (store : list ConversionOutcome) : Summary :=
  {| sum_total := length store;
     sum_printed := length (filter (λ o, has_status STATUS_PRINTED o = true) store);
     sum_errored := length (filter (λ o, has_status STATUS_ERROR o = true) store);
     sum_errors := filter (λ o, has_status STATUS_ERROR o = true) store |}.

(** *** Helpers that are not among the sources

    [toFilePath], [toFilename] and [interpolate] come from [./utils/helpers],
    [path.join] and [path.normalize] from Node.  The pipeline only passes
    values through them, so they are parameters of the development.
    [path_parents] gives the directories above a path, as the file system
    sees them: [fs.ensureDir] makes those that are missing. *)
Class Helpers := {
  toFilePath : URL → string;
  toFilename : option string → bool → string;
  interpolate : string → Metadata → string;
  path_join : string → string → string;
  path_normalize : string → string;
  path_parents : string → list string;
}.

(** *** What the pipeline does to the outside world *)

Record Margin := {
  top : string; bottom : string; left : string; right : string;
}.

(** The options object passed to [page.pdf] (lines 258-272). *)
Record PdfOptions := {
  pdf_timeout : nat;
  pdf_path : string;
  pdf_format : string;
  pdf_displayHeaderFooter : bool;
  pdf_headerTemplate : string;
  pdf_footerTemplate : string;
  pdf_margin : Margin;
  pdf_printBackground : bool;
}.

Inductive Warning :=
  | NoSitemapFound (sitemapUrl : string)
  | NoUrlsFound (root : URL) (sitemapUrl : string).

(** Who performs a call: [main]/[processSitemaps], the handler of the outer
    pool for sitemap [i], or the handler of the inner pool for URL [j] of
    sitemap [i] (the indices are those [PromisePool] hands to the handler). *)
Inductive Origin :=
  | OMain
  | OSitemap (i : nat)
  | OPage (i j : nat).

Global Instance Origin_eq_dec : EqDecision Origin.
Proof. solve_decision. Defined.

(** The calls that leave the program, with the answer they got.  A call
    enters the trace when it answers: the trace orders the calls by the
    time they settle.  Calls of one handler are awaited one after the
    other, so for them this is also the order in which they are made; two
    handlers of an inner pool may have calls in flight together, and these
    appear in the order of their answers.  [page.close()] and
    [browser.close()] are taken to succeed. *)
Inductive Action :=
  | ALaunch (ok : bool)
  | AVersion (ok : bool)
  | ANewContext (ok : bool)
  | AWarn (msg : Warning)
  | AEnsureDir (dir : string) (ok : bool)
  | ANewPage (ok : bool)
  | AGoto (url : URL) (ok : bool)
  | AEvalMetas (ok : bool)
  | APdf (options : PdfOptions) (ok : bool)
  | AStoreResult (o : ConversionOutcome)
  | AClosePage
  | APrintResults (s : Summary)
  | ABrowserClose.

Definition Event : Type := Origin * Action.

(** The state outside the tasks: the outcome collection of [PrintResults],
    the directories on disk, and the calls made so far.  Debug and info log
    lines are left out; warnings are kept. *)
Record World := {
  results : list ConversionOutcome;
  dirs : gset string;
  trace : list Event;
}.

Definition emit (o : Origin) (a : Action) (w : World) : World :=
  {| results := results w; dirs := dirs w; trace := trace w ++ [(o, a)] |}.

Definition store (o : Origin) (url : URL) (filePath : string) (s : Status)
    (w : World) : World :=
  emit o (AStoreResult {| oc_url := url; oc_filePath := filePath; oc_status := s |})
    {| results := storeResult url filePath s (results w);
       dirs := dirs w; trace := trace w |}.

(** [fs.ensureDir(dir)], when it fulfils: the directory is on disk, and so
    are the directories above it (it works like [mkdir -p]). *)
Definition ensured `{Helpers} (dir : string) : list string :=
  dir :: path_parents dir.

Definition mkdir `{Helpers} (dir : string) (w : World) : World :=
  {| results := results w; dirs := list_to_set (ensured dir) ∪ dirs w;
     trace := trace w |}.

(** Page contexts are counted the way a mock backend would: [newPage] calls
    that returned a page, and [page.close] calls. *)
Definition is_open (e : Event) : bool :=
  match e.2 with ANewPage true => true | _ => false end.

Definition is_close (e : Event) : bool :=
  match e.2 with AClosePage => true | _ => false end.

Definition count (f : Event → bool) (tr : list Event) : nat :=
  length (filter (λ e, f e = true) tr).

(** The number of page contexts open after the calls of [tr]. *)
Definition open_pages (tr : list Event) : nat :=
  count is_open tr - count is_close tr.

(** *** The rendering backend and the file system, as an oracle *)

(** [page.title()] is called at line 225 but its promise is not returned to
    the chain, so nothing orders its answer with respect to the rest: it may
    arrive before the [meta] query answers, between that answer and the
    continuation of line 248, or too late to be seen.  No handler is
    attached to that promise either: when it rejects, the rejection is
    unhandled and Node ends the process there and then, whatever the pools
    were doing.  The three cases below are those of a [page.title()] that
    does not reject: what is proved of [pageToPDF] and of a run is proved
    of the runs that are not cut short in that way, and says nothing of
    the others. *)
Inductive TitleArrival :=
  | TitleBeforeMetas (title : string)
  | TitleAfterMetas (title : string)
  | TitleLate.

(** The answers of the collaborators for one URL.  [meta_elements] is what
    the [meta] selector matches: for each element its [name] and [content]
    attributes; [None] for a rejected query.  [page.close()] is taken to
    succeed. *)
Record PageBehaviour := {
  newPage_ok : bool;
  ensureDir_ok : bool;
  goto_ok : bool;
  title_arrival : TitleArrival;
  meta_elements : option (list (JsString * JsString));
  pdf_ok : bool;
}.

Record Backend := {
  launch_ok : bool;
  version_ok : bool;
  context_ok : bool;
  outputDir_ok : nat → bool;
  page_backend : nat → nat → PageBehaviour;
}.

Inductive Failure :=
  | LaunchError | VersionError | ContextError
  | DirectoryError | ValidationError
  | NewPageError | NavigationError | MetadataError | RenderError.

(** How a promise settles. *)
Inductive Settle := Fulfilled | Rejected (e : Failure).

Global Instance Failure_eq_dec : EqDecision Failure.
Proof. solve_decision. Defined.

Global Instance Settle_eq_dec : EqDecision Settle.
Proof. solve_decision. Defined.

Definition is_fulfilled (r : Settle) : bool :=
  match r with Fulfilled => true | Rejected _ => false end.

(** The outcomes stored and the directories made by a sequence of calls. *)
Definition stored (tr : list Event) : list ConversionOutcome :=
  omap (λ e, match e.2 with AStoreResult o => Some o | _ => None end) tr.

Definition made `{Helpers} (tr : list Event) : gset string :=
  list_to_set (tr ≫= λ e, match e.2 with
                          | AEnsureDir dir true => ensured dir
                          | _ => []
                          end).

Definition is_print (e : Event) : bool :=
  match e.2 with APrintResults _ => true | _ => false end.

(** A call of a pool handler: not one of [main] or [processSitemaps], and
    not the final report. *)
Definition from_pool (e : Event) : Prop := e.1 ≠ OMain ∧ is_print e = false.

(** [w'] comes from [w] by the calls [evs] of pool handlers: the outcome
    collection grew by the outcomes stored, and the disk by the directories
    made; nothing else changed. *)
Definition evolves `{Helpers} (w : World) (evs : list Event) (w' : World) : Prop :=
  trace w' = trace w ++ evs
  ∧ results w' = results w ++ stored evs
  ∧ dirs w' = dirs w ∪ made evs
  ∧ Forall from_pool evs.

(** ** The bounded pool

    [PromisePool.for(items).withConcurrency(n).process(handler)] of the
    library [@supercharge/promise-pool], by its contract: the items are
    taken in order, each is handed once to the handler together with its
    index, at most [n] handlers are in flight, a new one is started as soon
    as a slot is free, and a handler that rejects has its error collected:
    the pool goes on and [process] itself fulfils.  A concurrency below 1 is
    refused when [process] is called, with a [ValidationError]; a handler
    that rejects with such an error is the one exception to the rule: it
    stops the pool (see [pool_run] for the one pool of the program where
    this can happen). *)

(** A schedule: the successive choices of the event loop. *)
Definition Schedule := list nat.

Definition choice (sched : Schedule) : nat := default 0 (head sched).

(** The items of a pool with the index the handler receives. *)
Definition indexed {A} (l : list A) : list (nat * A) := imap (λ i x, (i, x)) l.

Section PromisePool.
Context {Item Task : Type}.
Variable spawn : nat → Item → Task.
Variable advance : nat → Task → World → Task * World.
Variable settled : Task → bool.
Variable cost : Task → nat.
Variable wf : Task → Prop.

Record Pool := {
  concurrency : nat;
  pending : list (nat * Item);
  active : list Task;
  finished : list Task;
}.

Definition new_pool (n : nat) (items : list Item) : Pool :=
  {| concurrency := n; pending := indexed items; active := []; finished := [] |}.

Definition valid_concurrency (n : nat) : bool := bool_decide (1 ≤ n).

Definition drained (p : Pool) : bool :=
  match pending p, active p with
  | [], [] => true
  | _, _ => false
  end.

(** Start handlers while a slot is free and an item is left. *)
Fixpoint fill (n : nat) (pend : list (nat * Item)) (act : list Task)
    : list (nat * Item) * list Task :=
  match pend with
  | [] => ([], act)
  | (i, x) :: rest =>
      if bool_decide (length act < n)
      then fill n rest (act ++ [spawn i x])
      else (pend, act)
  end.

(** One turn of the event loop: free slots are filled, then the handler
    in flight picked by [c] takes its next step; when its promise has
    settled it leaves the pool. *)
Definition tick (c : nat) (p : Pool) (w : World) : Pool * World :=
  let '(pend, act) := fill (concurrency p) (pending p) (active p) in
  let k := c `mod` length act in
  match act !! k with
  | None =>
      ({| concurrency := concurrency p; pending := pend; active := act;
          finished := finished p |}, w)
  | Some t =>
      let '(t', w') := advance (c `div` length act) t w in
      if settled t'
      then ({| concurrency := concurrency p; pending := pend;
               active := delete k act; finished := finished p ++ [t'] |}, w')
      else ({| concurrency := concurrency p; pending := pend;
               active := <[k := t']> act; finished := finished p |}, w')
  end.

Fixpoint run_ticks (fuel : nat) (sched : Schedule) (p : Pool) (w : World)
    : Pool * World :=
  match fuel with
  | 0 => (p, w)
  | S fuel' =>
      let '(p', w') := tick (choice sched) p w in
      run_ticks fuel' (tail sched) p' w'
  end.

(** The steps the handlers of the pool still have to take, at most. *)
Definition pool_cost (p : Pool) : nat :=
  sum_list_with (λ ix, cost (spawn ix.1 ix.2)) (pending p)
  + sum_list_with cost (active p).

(** The handlers that have not settled: those in flight and those still
    to be started, as they will start. *)
Definition live (p : Pool) : list Task :=
  active p ++ ((λ ix, spawn ix.1 ix.2) <$> pending p).

(** Every handler of the pool. *)
Definition pool_tasks (p : Pool) : list Task := finished p ++ live p.

(** A pool in good order: a valid concurrency, no more handlers in flight
    than it allows, settled handlers in [finished] and only there; [wf]
    is what is known of each handler. *)
Definition pool_wf (p : Pool) : Prop :=
  1 ≤ concurrency p
  ∧ length (active p) ≤ concurrency p
  ∧ Forall (λ t, wf t ∧ settled t = true) (finished p)
  ∧ Forall (λ t, wf t ∧ settled t = false) (live p).

(** [process]: the pool runs until it has drained. *)
Definition process (sched : Schedule) (p : Pool) (w : World) : Pool * World :=
  run_ticks (pool_cost p) sched p w.

End PromisePool.

Arguments Pool : clear implicits.

(** The handlers of a pool take their turns in the order of their indices:
    those that have not settled are in that order, the calls made so far
    are in the order of the index [tag] gives them, and none of these calls
    belongs to a handler later than one that has not settled. *)
Definition in_order {Item Task : Type} (spawn : nat → Item → Task)
    (index : Task → nat) (tag : Event → option nat)
    (p : Pool Item Task) (evs : list Event) : Prop :=
  StronglySorted lt (index <$> live spawn p)
  ∧ StronglySorted le (omap tag evs)
  ∧ ∀ a t, a ∈ omap tag evs → t ∈ live spawn p → a ≤ index t.

(** The sitemap on whose behalf a call is made. *)
Definition event_sitemap (e : Event) : option nat :=
  match e.1 with
  | OMain => None
  | OSitemap i | OPage i _ => Some i
  end.

(** ** [pageToPDF] (lines 203-285) *)

(** The await points of [pageToPDF]: the task is waiting for the promise
    named by the constructor.  [AtPdf] holds the [metadatas] map handed to
    the continuation of line 248; [AtClose r] is the [finally] of line 281,
    entered with the settlement [r] of the chain it is attached to. *)
Inductive PagePC :=
  | AtNewPage
  | AtEnsureDir
  | AtGoto
  | AtEval
  | AtPdf (metadatas : Metadata)
  | AtClose (r : Settle)
  | PageSettled (r : Settle).

Record PageTask := {
  pt_sitemap : nat;
  pt_index : nat;
  pt_url : URL;
  pt_pc : PagePC;
}.

Definition page_at (t : PageTask) (pc : PagePC) : PageTask :=
  {| pt_sitemap := pt_sitemap t; pt_index := pt_index t; pt_url := pt_url t;
     pt_pc := pc |}.

Definition page_origin (t : PageTask) : Origin := OPage (pt_sitemap t) (pt_index t).

Definition page_settled (t : PageTask) : bool :=
  match pt_pc t with PageSettled _ => true | _ => false end.

(** The task has a page context of its own open: from the answer of
    [newPage] to the call of [page.close]. *)
Definition holds_page (t : PageTask) : bool :=
  match pt_pc t with
  | AtEnsureDir | AtGoto | AtEval | AtPdf _ | AtClose _ => true
  | AtNewPage | PageSettled _ => false
  end.

(** The task has settled without closing the page context it opened: this
    is what a rejected [fs.ensureDir(fileDir)] leaves behind. *)
Definition leaked_page (t : PageTask) : bool :=
  match pt_pc t with
  | PageSettled (Rejected DirectoryError) => true
  | _ => false
  end.

(** JavaScript truthiness of a [string | null]: neither [null] nor empty. *)
Definition truthy (s : JsString) : bool :=
  match s with
  | Some n => negb (String.eqb n EmptyString)
  | None => false
  end.

(** The callback of [$$eval] (lines 231-240): one entry per [meta] element,
    [[name, content]] when the name is truthy and [null] otherwise. *)
Definition eval_metas (elements : list (JsString * JsString))
    : list (option (string * JsString)) :=
  map (λ '(metaName, content),
         match metaName with
         | Some n => if truthy metaName then Some (n, content) else None
         | None => None
         end) elements.

(** Lines 242-244: [metas.forEach(meta => { if (meta) metadatas.set(...) })]. *)
Definition set_metas (metas : list (option (string * JsString)))
    (metadatas : Metadata) : Metadata :=
  foldl (λ m meta, match meta with
                   | Some (n, c) => <[n := c]> m
                   | None => m
                   end) metadatas metas.

(** The map seen by the continuation of line 248, by the time the title
    arrived. *)
Definition collect_metadata (ta : TitleArrival)
    (elements : list (JsString * JsString)) : Metadata :=
  let m0 : Metadata := ∅ in
  let m1 := match ta with
            | TitleBeforeMetas title => <["title" := Some title]> m0
            | _ => m0
            end in
  let m2 := set_metas (eval_metas elements) m1 in
  match ta with
  | TitleAfterMetas title => <["title" := Some title]> m2
  | _ => m2
  end.

(** [metadatas.get('title')?.toString()] (line 252). *)
Definition get_title (metadatas : Metadata) : option string :=
  match metadatas !! "title" with
  | Some (Some title) => Some title
  | _ => None
  end.

Section Pipeline.
Context `{Helpers}.
Variable backend : Backend.
Variable cliArgs : ICliArguments.
Variable website : Website.

(** Line 213. *)
Definition fileDir (outDir : string) (url : URL) : string :=
  path_join outDir (toFilePath url).

(** Lines 249-255. *)
Definition filePath (outDir : string) (url : URL) (metadatas : Metadata) : string :=
  path_join (fileDir outDir url)
    (toFilename (get_title metadatas) (safeTitle cliArgs) +:+ ".pdf").

(** Lines 258-272. *)
Definition pdf_options (outDir : string) (url : URL) (metadatas : Metadata)
    : PdfOptions :=
  {| pdf_timeout := 0;
     pdf_path := filePath outDir url metadatas;
     pdf_format := "a4";
     pdf_displayHeaderFooter := displayHeaderFooter cliArgs;
     pdf_headerTemplate := interpolate (header (pdfTemplate website)) metadatas;
     pdf_footerTemplate := interpolate (footer (pdfTemplate website)) metadatas;
     pdf_margin := {| top := marginTop cliArgs; bottom := marginBottom cliArgs;
                      left := marginLeft cliArgs; right := marginRight cliArgs |};
     pdf_printBackground := true |}.

(** One step of [pageToPDF]: the promise the task waits for settles, the
    call enters the trace with its answer, and the callbacks chained on it
    run up to the next await. *)
Definition page_step (outDir : string) (t : PageTask) (w : World)
    : PageTask * World :=
  let b := page_backend backend (pt_sitemap t) (pt_index t) in
  let o := page_origin t in
  let url := pt_url t in
  match pt_pc t with
  | AtNewPage =>
      (* line 210: browserContext.newPage() *)
      if newPage_ok b
      then (page_at t AtEnsureDir, emit o (ANewPage true) w)
      else (page_at t (PageSettled (Rejected NewPageError)),
            emit o (ANewPage false) w)
  | AtEnsureDir =>
      (* lines 214-220: fs.ensureDir(fileDir); a rejection skips the
         continuation of line 221 and with it the finally of line 281 *)
      if ensureDir_ok b
      then (page_at t AtGoto,
            mkdir (fileDir outDir url) (emit o (AEnsureDir (fileDir outDir url) true) w))
      else (page_at t (PageSettled (Rejected DirectoryError)),
            emit o (AEnsureDir (fileDir outDir url) false) w)
  | AtGoto =>
      (* lines 222-228: page.goto; on success page.title() is started and
         not awaited *)
      if goto_ok b
      then (page_at t AtEval, emit o (AGoto url true) w)
      else (page_at t (AtClose (Rejected NavigationError)),
            emit o (AGoto url false) w)
  | AtEval =>
      (* lines 229-247: page.$$eval('meta', ...) *)
      match meta_elements b with
      | Some elements =>
          (page_at t (AtPdf (collect_metadata (title_arrival b) elements)),
           emit o (AEvalMetas true) w)
      | None =>
          (page_at t (AtClose (Rejected MetadataError)),
           emit o (AEvalMetas false) w)
      end
  | AtPdf metadatas =>
      (* lines 248-280: page.pdf, then storeResult in then/catch *)
      let w1 := emit o (APdf (pdf_options outDir url metadatas) (pdf_ok b)) w in
      if pdf_ok b
      then (page_at t (AtClose Fulfilled),
            store o url (filePath outDir url metadatas) STATUS_PRINTED w1)
      else (page_at t (AtClose (Rejected RenderError)),
            store o url (filePath outDir url metadatas) STATUS_ERROR w1)
  | AtClose r =>
      (* lines 281-283: finally, page.close() *)
      (page_at t (PageSettled r), emit o AClosePage w)
  | PageSettled _ => (t, w)
  end.

(** The handler of the inner pool starts [pageToPDF] for URL [j] of
    sitemap [i] (lines 194-199). *)
Definition page_spawn (i j : nat) (url : URL) : PageTask :=
  {| pt_sitemap := i; pt_index := j; pt_url := url; pt_pc := AtNewPage |}.

(** An upper bound on the steps a page task still has to take. *)
Definition page_cost (t : PageTask) : nat :=
  match pt_pc t with
  | AtNewPage => 6
  | AtEnsureDir => 5
  | AtGoto => 4
  | AtEval => 3
  | AtPdf _ => 2
  | AtClose _ => 1
  | PageSettled _ => 0
  end.

Definition page_result (t : PageTask) : Settle :=
  match pt_pc t with PageSettled r => r | _ => Fulfilled end.

(** [pageToPDF] run on its own, from the call to the settlement of the
    promise it returns. *)
Definition pageToPDF (outDir : string) (i j : nat) (url : URL) (w : World)
    : Settle * World :=
  let '(t, w') :=
    Nat.iter 6 (λ tw, page_step outDir tw.1 tw.2) (page_spawn i j url, w) in
  (page_result t, w').

(** *** What [pageToPDF] does, read off the answers of the backend *)

Definition behaviour (i j : nat) : PageBehaviour := page_backend backend i j.

(** How the promise of [pageToPDF] settles. *)
Definition page_settlement (b : PageBehaviour) : Settle :=
  if newPage_ok b then
    if ensureDir_ok b then
      if goto_ok b then
        match meta_elements b with
        | Some _ => if pdf_ok b then Fulfilled else Rejected RenderError
        | None => Rejected MetadataError
        end
      else Rejected NavigationError
    else Rejected DirectoryError
  else Rejected NewPageError.

(** The [metadatas] map at line 248, when that line is reached. *)
Definition page_metadata (b : PageBehaviour) : Metadata :=
  collect_metadata (title_arrival b) (default [] (meta_elements b)).

(** Whether [page.pdf] is called (line 257). *)
Definition reaches_render (b : PageBehaviour) : bool :=
  newPage_ok b && ensureDir_ok b && goto_ok b
  && bool_decide (is_Some (meta_elements b)).

(** The outcome [pageToPDF] records for a URL: none unless [page.pdf] is
    called. *)
Definition page_recorded (outDir : string) (i j : nat) (url : URL)
    : list ConversionOutcome :=
  let b := behaviour i j in
  if reaches_render b
  then [{| oc_url := url;
           oc_filePath := filePath outDir url (page_metadata b);
           oc_status := if pdf_ok b then STATUS_PRINTED else STATUS_ERROR |}]
  else [].

(** The calls a page task has made when it is at a given await point. *)
Definition page_hist (outDir : string) (t : PageTask) : list Event :=
  let b := behaviour (pt_sitemap t) (pt_index t) in
  let o := page_origin t in
  let url := pt_url t in
  let dir := fileDir outDir url in
  let md := page_metadata b in
  let h1 := [(o, ANewPage true)] in
  let h2 := h1 ++ [(o, AEnsureDir dir true)] in
  let h3 := h2 ++ [(o, AGoto url true)] in
  let h4 := h3 ++ [(o, AEvalMetas true)] in
  let rendered ok s :=
    h4 ++ [(o, APdf (pdf_options outDir url md) ok);
           (o, AStoreResult {| oc_url := url;
                               oc_filePath := filePath outDir url md;
                               oc_status := s |})] in
  let chain r :=
    match r with
    | Rejected NavigationError => h2 ++ [(o, AGoto url false)]
    | Rejected MetadataError => h3 ++ [(o, AEvalMetas false)]
    | Rejected RenderError => rendered false STATUS_ERROR
    | Fulfilled => rendered true STATUS_PRINTED
    | Rejected _ => []
    end in
  match pt_pc t with
  | AtNewPage => []
  | AtEnsureDir => h1
  | AtGoto => h2
  | AtEval => h3
  | AtPdf _ => h4
  | AtClose r => chain r
  | PageSettled (Rejected NewPageError) => [(o, ANewPage false)]
  | PageSettled (Rejected DirectoryError) => h1 ++ [(o, AEnsureDir dir false)]
  | PageSettled r => chain r ++ [(o, AClosePage)]
  end.

(** A page task of sitemap [i] is where the answers of the backend can
    have taken it. *)
Definition page_wf (i : nat) (t : PageTask) : Prop :=
  let b := behaviour (pt_sitemap t) (pt_index t) in
  pt_sitemap t = i ∧
  match pt_pc t with
  | AtNewPage => True
  | AtEnsureDir => newPage_ok b = true
  | AtGoto => newPage_ok b = true ∧ ensureDir_ok b = true
  | AtEval => newPage_ok b = true ∧ ensureDir_ok b = true ∧ goto_ok b = true
  | AtPdf md => reaches_render b = true ∧ md = page_metadata b
  | AtClose r =>
      newPage_ok b = true ∧ ensureDir_ok b = true ∧ r = page_settlement b
  | PageSettled r => r = page_settlement b
  end.

(** The settled task of URL [j] of sitemap [i], and all its calls. *)
Definition page_final (i j : nat) (url : URL) : PageTask :=
  {| pt_sitemap := i; pt_index := j; pt_url := url;
     pt_pc := PageSettled (page_settlement (behaviour i j)) |}.

Definition page_events (outDir : string) (i j : nat) (url : URL) : list Event :=
  page_hist outDir (page_final i j url).

(** ** [processSitemap] and [sitemapToPDF] (lines 154-201) *)

Inductive SitemapPC :=
  | SAtStart
  | SInPool (p : Pool URL PageTask)
  | SSettled (r : Settle) (done : list PageTask).

Record SitemapTask := {
  st_index : nat;
  st_sitemap : WebsiteSitemap;
  st_pc : SitemapPC;
}.

Definition sitemap_at (t : SitemapTask) (pc : SitemapPC) : SitemapTask :=
  {| st_index := st_index t; st_sitemap := st_sitemap t; st_pc := pc |}.

Definition sitemap_settled (t : SitemapTask) : bool :=
  match st_pc t with SSettled _ _ => true | _ => false end.

(** Line 161. *)
Definition normalized_outputDir : string := path_normalize (outputDir cliArgs).

(** The inner pool, as [sitemapToPDF] creates it (lines 192-193). *)
Definition inner_pool (sitemap : WebsiteSitemap) : Pool URL PageTask :=
  new_pool (processPool cliArgs) (urls sitemap).

(** One turn of the inner pool (lines 192-199). *)
Definition inner_tick (i : nat) (c : nat) (p : Pool URL PageTask) (w : World)
    : Pool URL PageTask * World :=
  tick (page_spawn i) (λ _, page_step normalized_outputDir) page_settled c p w.

(** One step of [processSitemap] for sitemap [i].  At the start: the test
    of line 160, then [fs.ensureDir(outputDir)] and the creation of the
    inner pool; afterwards each step is a turn of the inner pool, and the
    promise fulfils when the pool has drained. *)
Definition sitemap_step (c : nat) (t : SitemapTask) (w : World)
    : SitemapTask * World :=
  let o := OSitemap (st_index t) in
  let sitemap := st_sitemap t in
  match st_pc t with
  | SAtStart =>
      if bool_decide (length (urls sitemap) ≠ 0)
      then
        if outputDir_ok backend (st_index t)
        then
          let w1 := mkdir normalized_outputDir
                      (emit o (AEnsureDir normalized_outputDir true) w) in
          if valid_concurrency (processPool cliArgs)
          then (sitemap_at t (SInPool (inner_pool sitemap)), w1)
          else (sitemap_at t (SSettled (Rejected ValidationError) []), w1)
        else (sitemap_at t (SSettled (Rejected DirectoryError) []),
              emit o (AEnsureDir normalized_outputDir false) w)
      else (sitemap_at t (SSettled Fulfilled []),
            emit o (AWarn (NoUrlsFound (rootUrl sitemap) (sitemapURL website))) w)
  | SInPool p =>
      let '(p', w') := inner_tick (st_index t) c p w in
      if drained p'
      then (sitemap_at t (SSettled Fulfilled (finished p')), w')
      else (sitemap_at t (SInPool p'), w')
  | SSettled _ _ => (t, w)
  end.

Definition sitemap_spawn (i : nat) (sitemap : WebsiteSitemap) : SitemapTask :=
  {| st_index := i; st_sitemap := sitemap; st_pc := SAtStart |}.

Definition sitemap_cost (t : SitemapTask) : nat :=
  match st_pc t with
  | SAtStart => 2 + 6 * length (urls (st_sitemap t))
  | SInPool p => 1 + pool_cost (page_spawn (st_index t)) page_cost p
  | SSettled _ _ => 0
  end.

(** *** What [processSitemap] does, read off the answers of the backend *)

(** Whether the inner pool of sitemap [i] is run. *)
Definition sitemap_runs (i : nat) (sitemap : WebsiteSitemap) : bool :=
  bool_decide (length (urls sitemap) ≠ 0)
  && outputDir_ok backend i
  && valid_concurrency (processPool cliArgs).

(** The call [processSitemap] makes itself. *)
Definition sitemap_prologue (i : nat) (sitemap : WebsiteSitemap) : list Event :=
  if bool_decide (length (urls sitemap) ≠ 0)
  then [(OSitemap i, AEnsureDir normalized_outputDir (outputDir_ok backend i))]
  else [(OSitemap i, AWarn (NoUrlsFound (rootUrl sitemap) (sitemapURL website)))].

Definition sitemap_events (i : nat) (sitemap : WebsiteSitemap) : list Event :=
  sitemap_prologue i sitemap
  ++ (if sitemap_runs i sitemap
      then indexed (urls sitemap)
             ≫= λ jx, page_events normalized_outputDir i jx.1 jx.2
      else []).

Definition sitemap_recorded (i : nat) (sitemap : WebsiteSitemap)
    : list ConversionOutcome :=
  if sitemap_runs i sitemap
  then indexed (urls sitemap)
         ≫= λ jx, page_recorded normalized_outputDir i jx.1 jx.2
  else [].

(** The calls of the handlers of the outer pool, and the outcomes they
    record, sitemap by sitemap and URL by URL. *)
Definition run_events : list Event :=
  indexed (sitemaps website) ≫= λ ix, sitemap_events ix.1 ix.2.

Definition run_recorded : list ConversionOutcome :=
  indexed (sitemaps website) ≫= λ ix, sitemap_recorded ix.1 ix.2.

(** The URLs handed to [pageToPDF] during a run. *)
Definition run_urls : list URL :=
  sitemaps website ≫= urls.

(** The calls made so far on behalf of a sitemap task. *)
Definition sitemap_hist (t : SitemapTask) : list Event :=
  let i := st_index t in
  match st_pc t with
  | SAtStart => []
  | SInPool p =>
      sitemap_prologue i (st_sitemap t)
      ++ (pool_tasks (page_spawn i) p ≫= page_hist normalized_outputDir)
  | SSettled _ done =>
      sitemap_prologue i (st_sitemap t)
      ++ (done ≫= page_hist normalized_outputDir)
  end.

(** How the promise of [processSitemap] settles. *)
Definition sitemap_settlement (i : nat) (sitemap : WebsiteSitemap) : Settle :=
  if bool_decide (length (urls sitemap) ≠ 0)
  then
    if outputDir_ok backend i
    then if valid_concurrency (processPool cliArgs)
         then Fulfilled else Rejected ValidationError
    else Rejected DirectoryError
  else Fulfilled.

(** The item a handler was started with, and its index. *)
Definition page_item (t : PageTask) : nat * URL := (pt_index t, pt_url t).

Definition sitemap_item (t : SitemapTask) : nat * WebsiteSitemap :=
  (st_index t, st_sitemap t).

(** A sitemap task is where the answers of the backend can have taken
    it: its pool is in good order and holds one handler per URL. *)
Definition sitemap_wf (t : SitemapTask) : Prop :=
  let i := st_index t in
  let sitemap := st_sitemap t in
  match st_pc t with
  | SAtStart => True
  | SInPool p =>
      sitemap_runs i sitemap = true
      ∧ concurrency p = processPool cliArgs
      ∧ pool_wf (page_spawn i) page_settled (page_wf i) p
      ∧ page_item <$> pool_tasks (page_spawn i) p ≡ₚ indexed (urls sitemap)
  | SSettled r done =>
      r = sitemap_settlement i sitemap
      ∧ done ≡ₚ (if sitemap_runs i sitemap
                 then (λ jx, page_final i jx.1 jx.2) <$> indexed (urls sitemap)
                 else [])
  end.

(** The inner pool run for a given number of turns. *)
Definition inner_run (i : nat) (turns : nat) (sched : Schedule)
    (sitemap : WebsiteSitemap) (w : World) : Pool URL PageTask * World :=
  run_ticks (page_spawn i) (λ _, page_step normalized_outputDir) page_settled
    turns sched (inner_pool sitemap) w.

(** The page contexts held by the handlers in flight, and those left
    open by handlers that have settled. *)
Definition pages_in_flight (p : Pool URL PageTask) : nat :=
  length (filter (λ t, holds_page t = true) (active p)).

Definition pages_leaked (p : Pool URL PageTask) : nat :=
  length (filter (λ t, leaked_page t = true) (finished p)).

(** The inner pool run until it has drained. *)
Definition inner_process (i : nat) (sched : Schedule)
    (sitemap : WebsiteSitemap) (w : World) : Pool URL PageTask * World :=
  process (page_spawn i) (λ _, page_step normalized_outputDir) page_settled
    page_cost sched (inner_pool sitemap) w.

(** ** [processSitemaps] (lines 113-152) and [main] (lines 90-106) *)

(** *** The outer pool and the calls outside it *)

(** The outer pool: [PromisePool.for(website.sitemaps).withConcurrency(1)]. *)
Definition outer_pool : Pool WebsiteSitemap SitemapTask :=
  new_pool 1 (sitemaps website).

Definition outer_tick (c : nat) (p : Pool WebsiteSitemap SitemapTask) (w : World)
    : Pool WebsiteSitemap SitemapTask * World :=
  tick sitemap_spawn sitemap_step sitemap_settled c p w.

(** The outer pool run until it has drained, every handler going to its
    end. *)
Definition outer_process (sched : Schedule) (w : World)
    : Pool WebsiteSitemap SitemapTask * World :=
  process sitemap_spawn sitemap_step sitemap_settled sitemap_cost sched outer_pool w.

(** Whether the outer pool is run. *)
Definition pools_run : bool :=
  bool_decide (length (sitemaps website) ≠ 0)
  && launch_ok backend && version_ok backend && context_ok backend.

(** The calls of [main] and [processSitemaps] before the outer pool. *)
Definition run_prologue : list Event :=
  if bool_decide (length (sitemaps website) ≠ 0)
  then
    if launch_ok backend
    then
      (OMain, ALaunch true)
      :: (if version_ok backend
          then [(OMain, AVersion true); (OMain, ANewContext (context_ok backend))]
          else [(OMain, AVersion false)])
    else [(OMain, ALaunch false)]
  else [(OMain, AWarn (NoSitemapFound (sitemapURL website)))].

(** The calls of the [finally] of line 147, when it is reached, with the
    outcome collection as it is then. *)
Definition run_epilogue (store : list ConversionOutcome) : list Event :=
  if bool_decide (length (sitemaps website) ≠ 0) && launch_ok backend
  then [(OMain, APrintResults (printResults store)); (OMain, ABrowserClose)]
  else [].

End Pipeline.

(** *** The run of the outer pool

    A handler that rejects with the [ValidationError] of PromisePool is
    not collected like another error: the pool it runs in stops, starts
    no further item, and its [process] rejects with that error.  The
    handler of a sitemap rejects so when the inner pool refuses its
    concurrency.  The outer pool handles one sitemap at a time, in order,
    so the sitemaps it starts are those up to the first whose handler
    stops it. *)

Section Run.
Context `{Helpers}.
Variable backend : Backend.
Variable cliArgs : ICliArguments.
Variable website : Website.

(** The handler of sitemap [i] reaches line 192 and [process] of the inner
    pool rejects with a [ValidationError]. *)
Definition sitemap_stops (i : nat) (sitemap : WebsiteSitemap) : bool :=
  bool_decide (length (urls sitemap) ≠ 0)
  && outputDir_ok backend i
  && negb (valid_concurrency (processPool cliArgs)).

Fixpoint started_from (i : nat) (l : list WebsiteSitemap) : list WebsiteSitemap :=
  match l with
  | [] => []
  | sitemap :: rest =>
      sitemap :: (if sitemap_stops i sitemap then [] else started_from (S i) rest)
  end.

(** The sitemaps the outer pool starts a handler for. *)
Definition started_sitemaps : list WebsiteSitemap :=
  started_from 0 (sitemaps website).

Definition started_website : Website :=
  {| sitemaps := started_sitemaps;
     pdfTemplate := pdfTemplate website;
     sitemapURL := sitemapURL website |}.

(** How [process] of the outer pool settles, from the handlers that have
    settled: it rejects when one of them threw a [ValidationError], and
    fulfils otherwise, whatever other errors were collected. *)
Definition sitemap_result (t : SitemapTask) : Settle :=
  match st_pc t with SSettled r _ => r | _ => Fulfilled end.

Definition pool_settlement (fin : list SitemapTask) : Settle :=
  if bool_decide (Rejected ValidationError ∈ sitemap_result <$> fin)
  then Rejected ValidationError
  else Fulfilled.

(** Lines 132-143: the outer pool, run over the sitemaps it starts. *)
Definition pool_run (sched : Schedule) (w : World) : Settle * World :=
  let pw := outer_process backend cliArgs started_website sched w in
  (pool_settlement (finished pw.1), pw.2).

(** The chain the [finally] of line 147 is attached to (lines 120-146). *)
Definition browser_chain (sched : Schedule) (w : World) : Settle * World :=
  if version_ok backend
  then
    let w1 := emit OMain (AVersion true) w in
    if context_ok backend
    then pool_run sched (emit OMain (ANewContext true) w1)
    else (Rejected ContextError, emit OMain (ANewContext false) w1)
  else (Rejected VersionError, emit OMain (AVersion false) w).

Definition processSitemaps (sched : Schedule) (w : World) : Settle * World :=
  if launch_ok backend
  then
    let '(r, w1) := browser_chain sched (emit OMain (ALaunch true) w) in
    (* lines 147-150: finally *)
    let w2 := emit OMain (APrintResults (printResults (results w1))) w1 in
    (r, emit OMain ABrowserClose w2)
  else (Rejected LaunchError, emit OMain (ALaunch false) w).

(** [main], from the built website on. *)
Definition main (sched : Schedule) (w : World) : Settle * World :=
  if bool_decide (length (sitemaps website) ≠ 0)
  then processSitemaps sched w
  else (Fulfilled, emit OMain (AWarn (NoSitemapFound (sitemapURL website))) w).

(** *** What the outer pool does, read off the answers of the backend *)

(** The calls of the handlers of the outer pool, sitemap by sitemap. *)
Definition started_events : list Event :=
  indexed started_sitemaps
    ≫= λ ix, sitemap_events backend cliArgs website ix.1 ix.2.

(** Whether the outer pool is stopped by one of its handlers. *)
Definition pool_stops : bool :=
  bool_decide (Exists (λ ix, sitemap_stops ix.1 ix.2 = true)
                 (indexed (sitemaps website))).

End Run.

(** ** Example inputs *)

(** Stand-ins for the helpers that are not among the sources: the
    directory of a URL is the URL, the file name is the title or
    ["untitled"], a template is followed by the title, and the
    directories above a path are its prefixes that end before a [/]. *)
Fixpoint parents_from (seen rest : string) : list string :=
  match rest with
  | EmptyString => []
  | String c rest' =>
      if String.eqb (String c EmptyString) "/"
      then (if String.eqb seen EmptyString then [] else [seen])
           ++ parents_from (seen +:+ "/") rest'
      else parents_from (seen +:+ String c EmptyString) rest'
  end.

Definition example_helpers : Helpers :=
  {| toFilePath url := url;
     toFilename title _ := default "untitled" title;
     interpolate template metadatas := template +:+ default "" (get_title metadatas);
     path_join a b := a +:+ "/" +:+ b;
     path_normalize p := p;
     path_parents p := parents_from EmptyString p |}.

Definition example_cliArgs (pool : nat) : ICliArguments :=
  {| outputDir := "out"; displayHeaderFooter := true;
     marginTop := "50px"; marginBottom := "50px";
     marginLeft := "0px"; marginRight := "0px";
     chromiumFlags := ""; safeTitle := false; processPool := pool |}.

Definition example_website (maps : list (list URL)) : Website :=
  {| sitemaps := (λ us, {| rootUrl := "sitemap.xml"; urls := us |}) <$> maps;
     pdfTemplate := {| header := "H:"; footer := "F:" |};
     sitemapURL := "http://localhost:1313/sitemap.xml" |}.

Definition empty_world : World := {| results := []; dirs := ∅; trace := [] |}.

(** A page for which every call succeeds. *)
Definition page_fine : PageBehaviour :=
  {| newPage_ok := true; ensureDir_ok := true; goto_ok := true;
     title_arrival := TitleBeforeMetas "Home";
     meta_elements := Some [(Some "author", Some "me"); (None, Some "utf-8")];
     pdf_ok := true |}.

(** Pages for which one call fails. *)
Definition page_no_directory : PageBehaviour :=
  {| newPage_ok := true; ensureDir_ok := false; goto_ok := true;
     title_arrival := TitleBeforeMetas "Home";
     meta_elements := Some []; pdf_ok := true |}.

Definition page_no_navigation : PageBehaviour :=
  {| newPage_ok := true; ensureDir_ok := true; goto_ok := false;
     title_arrival := TitleLate; meta_elements := None; pdf_ok := false |}.

Definition page_no_render : PageBehaviour :=
  {| newPage_ok := true; ensureDir_ok := true; goto_ok := true;
     title_arrival := TitleBeforeMetas "Home";
     meta_elements := Some []; pdf_ok := false |}.

(** A page with a [meta] element whose name is the empty string, and a page
    whose title arrives too late. *)
Definition page_empty_meta_name : PageBehaviour :=
  {| newPage_ok := true; ensureDir_ok := true; goto_ok := true;
     title_arrival := TitleBeforeMetas "Home";
     meta_elements := Some [(Some "", Some "x")];
     pdf_ok := true |}.

Definition page_late_title : PageBehaviour :=
  {| newPage_ok := true; ensureDir_ok := true; goto_ok := true;
     title_arrival := TitleLate;
     meta_elements := Some [(Some "author", Some "me")];
     pdf_ok := true |}.

(** A backend whose browser starts, with the given answers per URL. *)
Definition example_backend (pages : nat → nat → PageBehaviour) : Backend :=
  {| launch_ok := true; version_ok := true; context_ok := true;
     outputDir_ok := λ _, true; page_backend := pages |}.

(** The URL of index [k] misbehaves as [b], the others are fine. *)
Definition except (k : nat) (b : PageBehaviour) (i j : nat) : PageBehaviour :=
  if bool_decide (j = k) then b else page_fine.

(** ** The calls of a whole run *)

(** A call of [browserContext.newPage()], whatever its answer. *)
Definition is_new_page (e : Event) : bool :=
  match e.2 with ANewPage _ => true | _ => false end.

(** The path and the status a call of [page.pdf] stands for, and the same
    of a recorded outcome. *)
Definition pdf_call (e : Event) : option (string * Status) :=
  match e.2 with
  | APdf options ok =>
      Some (pdf_path options, if ok then STATUS_PRINTED else STATUS_ERROR)
  | _ => None
  end.

Definition outcome_key (o : ConversionOutcome) : string * Status :=
  (oc_filePath o, oc_status o).

(** The calls [main], [processSitemaps] and [processSitemap] make
    themselves, and the kinds of call that are made on pages only. *)
Definition outside_pages (a : Action) : bool :=
  match a with
  | ALaunch _ | AVersion _ | ANewContext _ | AWarn _ | AEnsureDir _ _
  | APrintResults _ | ABrowserClose => true
  | _ => false
  end.

(** [f] selects calls made on pages only. *)
Definition on_page (f : Event → bool) : Prop :=
  ∀ e, outside_pages e.2 = true → f e = false.

(** The outcomes stored by a sequence of calls are those of its calls of
    [page.pdf], one for one and in the order in which these settle. *)
Definition pdf_calls_recorded (evs : list Event) : Prop :=
  omap pdf_call evs = outcome_key <$> stored evs.

(** A backend that never fails. *)
Definition all_fine (backend : Backend) : Prop :=
  launch_ok backend = true ∧ version_ok backend = true
  ∧ context_ok backend = true
  ∧ (∀ i, outputDir_ok backend i = true)
  ∧ ∀ i j, let b := page_backend backend i j in
           newPage_ok b = true ∧ ensureDir_ok b = true ∧ goto_ok b = true
           ∧ is_Some (meta_elements b) ∧ pdf_ok b = true.

Section Handed.
Context `{Helpers}.
Variable backend : Backend.
Variable cliArgs : ICliArguments.
Variable website : Website.

(** The calls of a run: what [main] adds to the trace. *)
Definition run_calls (sched : Schedule) (w : World) : list Event :=
  drop (length (trace w)) (trace (main backend cliArgs website sched w).2).

(** The URLs handed to [pageToPDF] in a run, each with the index of its
    sitemap and its own index in the sitemap. *)
Definition run_pages : list (nat * nat * URL) :=
  if pools_run backend website
  then indexed (sitemaps website) ≫= λ ix,
         if sitemap_runs backend cliArgs ix.1 ix.2
         then (λ jx, (ix.1, jx.1, jx.2)) <$> indexed (urls ix.2)
         else []
  else [].

(** The answers of the backend for such a URL, and its calls. *)
Definition page_answers (p : nat * nat * URL) : PageBehaviour :=
  page_backend backend p.1.1 p.1.2.

Definition page_calls (p : nat * nat * URL) : list Event :=
  page_events backend cliArgs website (normalized_outputDir cliArgs) p.1.1 p.1.2 p.2.

(** The calls [processSitemap] and [sitemapToPDF] make themselves, for
    the sitemaps that are started. *)
Definition sitemap_calls : list Event :=
  if pools_run backend website
  then indexed (started_sitemaps backend cliArgs website)
         ≫= λ ix, sitemap_prologue backend cliArgs website ix.1 ix.2
  else [].

(** A page context is opened for the URL and never closed. *)
Definition page_leaks (p : nat * nat * URL) : bool :=
  newPage_ok (page_answers p) && negb (ensureDir_ok (page_answers p)).

(** The calls made so far for URL [j] of a sitemap, read off the state of
    the task of that sitemap. *)
Definition url_calls_at (j : nat) (t : SitemapTask) (l : list Event) : Prop :=
  let hist := page_hist backend cliArgs website (normalized_outputDir cliArgs) in
  match st_pc t with
  | SAtStart => l = []
  | SInPool p =>
      Forall (λ u, pt_index u = j → l = hist u) (pool_tasks (page_spawn (st_index t)) p)
  | SSettled _ fin =>
      if sitemap_runs backend cliArgs (st_index t) (st_sitemap t)
      then Forall (λ u, pt_index u = j → l = hist u) fin
      else l = []
  end.

(** The calls made so far on behalf of a sitemap start with the call of
    [processSitemap] itself. *)
Definition sitemap_calls_at (t : SitemapTask) (l : list Event) : Prop :=
  match st_pc t with
  | SAtStart => l = []
  | _ => ∃ rest,
      l = sitemap_prologue backend cliArgs website (st_index t) (st_sitemap t) ++ rest
  end.

End Handed.

(** The [content] attributes of the [meta] elements named [n], in the
    order of the document. *)
Definition named (n : string) (elements : list (JsString * JsString))
    : list JsString :=
  omap (λ el, if bool_decide (el.1 = Some n) then Some el.2 else None) elements.

(** The URL, by its index in its sitemap, for which a call is made. *)
Definition page_tag (e : Event) : option nat :=
  match e.1 with
  | OPage _ j => Some j
  | _ => None
  end.

Section Sequential.
Context `{Helpers}.
Variable backend : Backend.
Variable cliArgs : ICliArguments.
Variable website : Website.

(** The calls made so far on behalf of a sitemap whose pool is serial:
    after the call of [processSitemap] itself come the calls of the URLs,
    in the order of the URLs. *)
Definition sitemap_serial_at (t : SitemapTask) (l : list Event) : Prop :=
  match st_pc t with
  | SAtStart => l = []
  | SInPool p =>
      ∃ rest,
        l = sitemap_prologue backend cliArgs website (st_index t) (st_sitemap t)
            ++ rest
        ∧ in_order (page_spawn (st_index t)) pt_index page_tag p rest
  | SSettled _ _ =>
      ∃ rest,
        l = sitemap_prologue backend cliArgs website (st_index t) (st_sitemap t)
            ++ rest
        ∧ StronglySorted le (omap page_tag rest)
  end.

End Sequential.

(** * Properties *)

(** ** Worlds *)

Lemma stored_app (tr1 tr2 : list Event) : stored (tr1 ++ tr2) = stored tr1 ++ stored tr2.
Proof. apply omap_app. Qed.

Lemma made_app `{Helpers} (tr1 tr2 : list Event) :
  made (tr1 ++ tr2) = made tr1 ∪ made tr2.
Proof. unfold made. rewrite bind_app, list_to_set_app_L. done. Qed.

Lemma evolves_refl `{Helpers} (w : World) : evolves w [] w.
Proof.
  unfold evolves, made. simpl. rewrite !app_nil_r. split_and!; [done|done|set_solver|constructor].
Qed.

Lemma evolves_trans `{Helpers} (w1 w2 w3 : World) (evs1 evs2 : list Event) :
  evolves w1 evs1 w2 → evolves w2 evs2 w3 → evolves w1 (evs1 ++ evs2) w3.
Proof.
  intros (Ht1 & Hr1 & Hd1 & Hf1) (Ht2 & Hr2 & Hd2 & Hf2).
  unfold evolves. rewrite Ht2, Ht1, Hr2, Hr1, Hd2, Hd1, stored_app, made_app.
  rewrite !app_assoc. split_and!; [done|done|set_solver|by apply Forall_app].
Qed.

Lemma evolves_emit `{Helpers} (w : World) (o : Origin) (a : Action) :
  o ≠ OMain →
  match a with
  | AStoreResult _ | AEnsureDir _ true | APrintResults _ => False
  | _ => True
  end →
  evolves w [(o, a)] (emit o a w).
Proof.
  intros Ho Ha. unfold evolves, emit, stored, made; simpl.
  destruct a as [| | | | dir [] | | | | | | | |]; try done; simpl;
    (split_and!; [done | by rewrite app_nil_r | set_solver | by repeat constructor]).
Qed.

(** ** The bounded pool *)

Section PoolFacts.
Context `{Helpers} {Item Task : Type}.
Variable spawn : nat → Item → Task.
Variable advance : nat → Task → World → Task * World.
Variable settled : Task → bool.
Variable cost : Task → nat.
Variable wf : Task → Prop.
Variable hist : Task → list Event.

Hypothesis wf_advance : ∀ c t w,
  wf t → settled t = false → wf (advance c t w).1.
Hypothesis cost_advance : ∀ c t w,
  wf t → settled t = false → cost (advance c t w).1 < cost t.
Hypothesis hist_advance : ∀ c t w,
  wf t → settled t = false →
  ∃ evs, evolves w evs (advance c t w).2
         ∧ hist (advance c t w).1 ≡ₚ hist t ++ evs.

Local Abbreviation start := (λ ix : nat * Item, spawn ix.1 ix.2).
Local Abbreviation tick := (tick spawn advance settled).
Local Abbreviation run_ticks := (run_ticks spawn advance settled).
Local Abbreviation process := (process spawn advance settled cost).
Local Abbreviation pool_cost := (pool_cost spawn cost).
Local Abbreviation pool_wf := (pool_wf spawn settled wf).
Local Abbreviation live := (live spawn).
Local Abbreviation pool_tasks := (pool_tasks spawn).
Local Abbreviation fill := (fill spawn).

Lemma fill_spec (n : nat) (pend : list (nat * Item)) (act : list Task) :
  ∃ started,
    pend = started ++ (fill n pend act).1
    ∧ (fill n pend act).2 = act ++ (start <$> started)
    ∧ (length act ≤ n → length (fill n pend act).2 ≤ n)
    ∧ ((fill n pend act).1 ≠ [] → n ≤ length (fill n pend act).2).
Proof.
  revert act. induction pend as [|[i x] pend IH]; intros act; simpl.
  - exists []. simpl. rewrite app_nil_r. done.
  - case_bool_decide as Hlt.
    + destruct (IH (act ++ [spawn i x])) as (started & Hp & Ha & Hle & Hfull).
      exists ((i, x) :: started). simpl. split_and!.
      * by f_equal.
      * rewrite Ha, <- app_assoc. done.
      * intros _. apply Hle. rewrite length_app. simpl. lia.
      * done.
    + exists []. simpl. rewrite app_nil_r. split_and!; [done|done|done|lia].
Qed.

Lemma insert_delete_Permutation (l : list Task) (k : nat) (t t' : Task) :
  l !! k = Some t → <[k := t']> l ≡ₚ t' :: delete k l.
Proof.
  intros Hk. rewrite insert_take_drop by (by eapply lookup_lt_Some).
  rewrite delete_take_drop. by rewrite Permutation_middle.
Qed.

Lemma live_nil (p : Pool Item Task) : live p = [] ↔ drained p = true.
Proof.
  unfold live, drained.
  destruct (pending p), (active p); simpl; split; (done || discriminate).
Qed.

Lemma pool_cost_live (p : Pool Item Task) :
  pool_cost p = sum_list_with cost (live p).
Proof.
  unfold pool_cost, live.
  rewrite sum_list_with_app. rewrite Nat.add_comm. f_equal.
  induction (pending p) as [|ix l IH]; simpl; [done | by rewrite IH].
Qed.

(** What one turn of the event loop does: nothing when no handler is
    left, and otherwise one step of one handler that has not settled,
    among the first [concurrency p] of those that have not. *)
Lemma tick_exact (c : nat) (p : Pool Item Task) (w : World) :
  pool_wf p →
  concurrency (tick c p w).1 = concurrency p
  ∧ length (active (tick c p w).1) ≤ concurrency p
  ∧ ((live p = [] ∧ tick c p w = (p, w))
     ∨ ∃ c' k t,
         live p !! k = Some t ∧ k < concurrency p
         ∧ (tick c p w).2 = (advance c' t w).2
         ∧ if settled (advance c' t w).1
           then finished (tick c p w).1 = finished p ++ [(advance c' t w).1]
                ∧ live (tick c p w).1 = delete k (live p)
           else finished (tick c p w).1 = finished p
                ∧ live (tick c p w).1 = <[k := (advance c' t w).1]> (live p)).
Proof.
  intros (Hn & Hlen & Hfin & Hlive).
  unfold tick.
  pose proof (fill_spec (concurrency p) (pending p) (active p))
    as (started & Hp & Ha & Hle & Hfull).
  destruct (fill (concurrency p) (pending p) (active p))
    as [rest act] eqn:Hfill.
  simpl in Hp, Ha, Hle, Hfull.
  assert (Hl : live p = act ++ (start <$> rest)).
  { unfold live. rewrite Hp, Ha, fmap_app, app_assoc. done. }
  destruct (act !! (c `mod` length act)) as [t|] eqn:Hk.
  - destruct (advance (c `div` length act) t w) as [t' w'] eqn:Hadv.
    pose proof (lookup_lt_Some _ _ _ Hk) as Hlt.
    specialize (Hle Hlen).
    destruct (settled t') eqn:Hs; simpl.
    + split; [done|]. split.
      { rewrite length_delete by eauto. lia. }
      right. exists (c `div` length act), (c `mod` length act), t.
      rewrite Hadv. simpl. rewrite Hs, Hl. unfold live. simpl.
      split_and!; try done; [by apply lookup_app_l_Some | lia |].
      rewrite !delete_take_drop, take_app_le, drop_app_le by lia.
      by rewrite app_assoc.
    + split; [done|]. split.
      { rewrite length_insert. auto. }
      right. exists (c `div` length act), (c `mod` length act), t.
      rewrite Hadv. simpl. rewrite Hs, Hl. unfold live. simpl.
      split_and!; try done; [by apply lookup_app_l_Some | lia |].
      by rewrite insert_app_l.
  - simpl. split; [done|]. split; [auto|].
    left.
    assert (act = []) as ->.
    { apply lookup_ge_None in Hk. destruct act; [done|].
      pose proof (Nat.mod_upper_bound c (length (t :: act))). simpl in *. lia. }
    assert (rest = []) as ->.
    { destruct rest; [done|]. simpl in Hfull. specialize (Hfull ltac:(done)). lia. }
    split; [by rewrite Hl|].
    simpl in Hl. apply live_nil in Hl. unfold drained in Hl.
    destruct p as [n [|] [|] fin]; simpl in *; try done.
Qed.

(** The same, up to the order of the handlers. *)
Lemma tick_spec (c : nat) (p : Pool Item Task) (w : World) :
  pool_wf p →
  concurrency (tick c p w).1 = concurrency p
  ∧ length (active (tick c p w).1) ≤ concurrency p
  ∧ ((live p = [] ∧ tick c p w = (p, w))
     ∨ ∃ c' t rest,
         wf t ∧ settled t = false ∧ live p ≡ₚ t :: rest
         ∧ (tick c p w).2 = (advance c' t w).2
         ∧ if settled (advance c' t w).1
           then finished (tick c p w).1 = finished p ++ [(advance c' t w).1]
                ∧ live (tick c p w).1 ≡ₚ rest
           else finished (tick c p w).1 = finished p
                ∧ live (tick c p w).1 ≡ₚ (advance c' t w).1 :: rest).
Proof.
  intros Hwf. destruct (tick_exact c p w Hwf) as (Hc & Hlen & Hcase).
  split; [done|]. split; [done|].
  destruct Hcase as [Hidle | (c' & k & t & Hk & _ & Hw & Hcase)]; [by left|].
  right. exists c', t, (delete k (live p)).
  destruct Hwf as (_ & _ & _ & Hlive).
  pose proof (delete_Permutation _ _ _ Hk) as Hperm.
  assert (Ht : wf t ∧ settled t = false).
  { rewrite Hperm in Hlive. by apply Forall_cons in Hlive as [? _]. }
  split_and!; try done; try apply Ht.
  destruct (settled (advance c' t w).1); destruct Hcase as [-> ->];
    (split; [done|]); [done|].
  by apply (insert_delete_Permutation _ _ t).
Qed.

Lemma tick_wf (c : nat) (p : Pool Item Task) (w : World) :
  pool_wf p → pool_wf (tick c p w).1.
Proof.
  intros Hwf. destruct (tick_spec c p w Hwf) as (Hc & Hlen & Hcase).
  pose proof Hwf as (Hn & _ & Hfin & Hlive).
  destruct Hcase as [[_ ->] | (c' & t & rest & Ht & Hs & Hperm & _ & Hcase)].
  { exact Hwf. }
  rewrite Hperm in Hlive. apply Forall_cons in Hlive as [_ Hrest].
  pose proof (wf_advance c' t w Ht Hs) as Hwf'.
  unfold pool_wf. rewrite Hc.
  destruct (settled (advance c' t w).1) eqn:Hs'; destruct Hcase as [-> ->].
  - split_and!; [done|done| |done].
    apply Forall_app. split; [done|]. by repeat constructor.
  - split_and!; [done|done|done|]. by constructor.
Qed.

Lemma tick_cost (c : nat) (p : Pool Item Task) (w : World) :
  pool_wf p → drained p = false → pool_cost (tick c p w).1 < pool_cost p.
Proof.
  intros Hwf Hd. destruct (tick_spec c p w Hwf) as (_ & _ & Hcase).
  destruct Hcase as [[Hnil _] | (c' & t & rest & Ht & Hs & Hperm & _ & Hcase)].
  { apply live_nil in Hnil. congruence. }
  rewrite !pool_cost_live, Hperm. simpl.
  pose proof (cost_advance c' t w Ht Hs).
  destruct (settled (advance c' t w).1); destruct Hcase as [_ ->]; simpl; lia.
Qed.

Lemma tick_hist (c : nat) (p : Pool Item Task) (w : World) :
  pool_wf p →
  ∃ evs, evolves w evs (tick c p w).2
         ∧ pool_tasks (tick c p w).1 ≫= hist ≡ₚ (pool_tasks p ≫= hist) ++ evs.
Proof.
  intros Hwf. destruct (tick_spec c p w Hwf) as (_ & _ & Hcase).
  destruct Hcase as [[_ ->] | (c' & t & rest & Ht & Hs & Hperm & -> & Hcase)].
  { exists []. split; [apply evolves_refl | by rewrite app_nil_r]. }
  destruct (hist_advance c' t w Ht Hs) as (evs & Hev & Hh).
  exists evs. split; [done|].
  unfold pool_tasks. rewrite !bind_app, Hperm, bind_cons.
  destruct (settled (advance c' t w).1); destruct Hcase as [-> ->].
  - rewrite bind_app, bind_cons. simpl. rewrite app_nil_r, Hh.
    rewrite <- !app_assoc. do 2 apply Permutation_app_head.
    apply Permutation_app_comm.
  - rewrite bind_cons, Hh. rewrite <- !app_assoc.
    do 2 apply Permutation_app_head. apply Permutation_app_comm.
Qed.

Lemma tick_drained (c : nat) (p : Pool Item Task) (w : World) :
  drained p = true → tick c p w = (p, w).
Proof.
  unfold drained, tick. destruct p as [n [|] [|] fin]; simpl; try done.
Qed.

Lemma run_ticks_wf (fuel : nat) (sched : Schedule) (p : Pool Item Task) (w : World) :
  pool_wf p → pool_wf (run_ticks fuel sched p w).1.
Proof.
  revert sched p w. induction fuel as [|fuel IH]; intros sched p w Hwf; simpl.
  - done.
  - pose proof (tick_wf (choice sched) p w Hwf) as Hwf'.
    destruct (tick (choice sched) p w) as [p' w']. by apply IH.
Qed.

Lemma run_ticks_concurrency (fuel : nat) (sched : Schedule)
    (p : Pool Item Task) (w : World) :
  pool_wf p → concurrency (run_ticks fuel sched p w).1 = concurrency p.
Proof.
  revert sched p w. induction fuel as [|fuel IH]; intros sched p w Hwf; simpl.
  - done.
  - pose proof (tick_wf (choice sched) p w Hwf) as Hwf'.
    destruct (tick_spec (choice sched) p w Hwf) as (Hc & _).
    destruct (tick (choice sched) p w) as [p' w']. simpl in *.
    rewrite IH by done. done.
Qed.

Lemma run_ticks_hist (fuel : nat) (sched : Schedule) (p : Pool Item Task) (w : World) :
  pool_wf p →
  ∃ evs, evolves w evs (run_ticks fuel sched p w).2
         ∧ pool_tasks (run_ticks fuel sched p w).1 ≫= hist
             ≡ₚ (pool_tasks p ≫= hist) ++ evs.
Proof.
  revert sched p w. induction fuel as [|fuel IH]; intros sched p w Hwf; simpl.
  - exists []. split; [apply evolves_refl | by rewrite app_nil_r].
  - pose proof (tick_wf (choice sched) p w Hwf) as Hwf'.
    destruct (tick_hist (choice sched) p w Hwf) as (evs1 & Hev1 & Hh1).
    destruct (tick (choice sched) p w) as [p' w']. simpl in *.
    destruct (IH (tail sched) p' w' Hwf') as (evs2 & Hev2 & Hh2).
    exists (evs1 ++ evs2). split; [by eapply evolves_trans|].
    rewrite Hh2, Hh1, app_assoc. done.
Qed.

Lemma run_ticks_drained (fuel : nat) (sched : Schedule) (p : Pool Item Task) (w : World) :
  pool_wf p → pool_cost p ≤ fuel → drained (run_ticks fuel sched p w).1 = true.
Proof.
  revert sched p w. induction fuel as [|fuel IH]; intros sched p w Hwf Hcost; simpl.
  - destruct (drained p) eqn:Hd; [done|].
    pose proof (tick_cost 0 p w Hwf Hd). lia.
  - destruct (drained p) eqn:Hd.
    + rewrite tick_drained by done. apply IH; [done|].
      rewrite pool_cost_live. apply live_nil in Hd. rewrite Hd. simpl. lia.
    + pose proof (tick_cost (choice sched) p w Hwf Hd).
      pose proof (tick_wf (choice sched) p w Hwf).
      destruct (tick (choice sched) p w) as [p' w']. simpl in *.
      apply IH; [done | lia].
Qed.

(** Each handler keeps the item and the index it was started with. *)
Section Origin.
Variable origin : Task → nat * Item.
Hypothesis origin_spawn : ∀ i x, origin (spawn i x) = (i, x).
Hypothesis origin_advance : ∀ c t w, origin (advance c t w).1 = origin t.

Lemma tick_origin (c : nat) (p : Pool Item Task) (w : World) :
  pool_wf p →
  origin <$> pool_tasks (tick c p w).1 ≡ₚ origin <$> pool_tasks p.
Proof.
  intros Hwf. destruct (tick_spec c p w Hwf) as (_ & _ & Hcase).
  destruct Hcase as [[_ ->] | (c' & t & rest & Ht & Hs & Hperm & _ & Hcase)].
  { done. }
  unfold pool_tasks. rewrite !fmap_app, Hperm, fmap_cons.
  destruct (settled (advance c' t w).1); destruct Hcase as [-> ->].
  - rewrite fmap_app. simpl. rewrite origin_advance, <- app_assoc. done.
  - rewrite fmap_cons, origin_advance. done.
Qed.

Lemma run_ticks_origin (fuel : nat) (sched : Schedule)
    (p : Pool Item Task) (w : World) :
  pool_wf p →
  origin <$> pool_tasks (run_ticks fuel sched p w).1 ≡ₚ origin <$> pool_tasks p.
Proof.
  revert sched p w. induction fuel as [|fuel IH]; intros sched p w Hwf; simpl.
  - done.
  - pose proof (tick_wf (choice sched) p w Hwf) as Hwf'.
    pose proof (tick_origin (choice sched) p w Hwf) as Ho.
    destruct (tick (choice sched) p w) as [p' w']. simpl in *.
    rewrite IH by done. done.
Qed.

Lemma new_pool_origin (n : nat) (items : list Item) :
  origin <$> pool_tasks (new_pool n items) = indexed items.
Proof.
  unfold pool_tasks, live, new_pool. simpl.
  rewrite <- list_fmap_compose. rewrite <- (list_fmap_id (indexed items)) at 2.
  apply list_fmap_ext. intros _ [i x] _. simpl. apply origin_spawn.
Qed.
End Origin.

Lemma drained_tasks (p : Pool Item Task) :
  drained p = true → pool_tasks p = finished p.
Proof.
  intros Hd. apply live_nil in Hd. unfold pool_tasks. by rewrite Hd, app_nil_r.
Qed.

Lemma new_pool_wf (n : nat) (items : list Item) :
  1 ≤ n →
  (∀ i x, wf (spawn i x) ∧ settled (spawn i x) = false) →
  pool_wf (new_pool n items).
Proof.
  intros Hn Hs. unfold pool_wf, live, new_pool. simpl.
  split_and!; [done | lia | constructor |].
  apply Forall_fmap, Forall_forall. intros [i x] _. apply Hs.
Qed.

End PoolFacts.

(** ** [pageToPDF] as a task *)

Lemma evolves_mkdir `{Helpers} (w : World) (o : Origin) (dir : string) :
  o ≠ OMain →
  evolves w [(o, AEnsureDir dir true)] (mkdir dir (emit o (AEnsureDir dir true) w)).
Proof.
  intros Ho. unfold evolves, emit, mkdir, stored, made; simpl.
  split_and!; [done | by rewrite app_nil_r | set_solver | by repeat constructor].
Qed.

Lemma evolves_store `{Helpers} (w : World) (o : Origin) (url : URL) (path : string)
    (s : Status) (options : PdfOptions) (ok : bool) :
  o ≠ OMain →
  evolves w
    [(o, APdf options ok);
     (o, AStoreResult {| oc_url := url; oc_filePath := path; oc_status := s |})]
    (store o url path s (emit o (APdf options ok) w)).
Proof.
  intros Ho. unfold evolves, emit, store, storeResult, stored, made; simpl.
  split_and!; [by rewrite <- app_assoc | done | set_solver | by repeat constructor].
Qed.

Section PageFacts.
Context `{Helpers}.
Variable backend : Backend.
Variable cliArgs : ICliArguments.
Variable website : Website.
Variable outDir : string.

Local Abbreviation step := (page_step backend cliArgs website outDir).
Local Abbreviation hist := (page_hist backend cliArgs website outDir).
Local Abbreviation wf := (page_wf backend).
Local Abbreviation final := (page_final backend).

Lemma reaches_render_spec (b : PageBehaviour) :
  reaches_render b = true ↔
  newPage_ok b = true ∧ ensureDir_ok b = true ∧ goto_ok b = true
  ∧ is_Some (meta_elements b).
Proof.
  unfold reaches_render.
  rewrite !andb_true_iff, bool_decide_eq_true. naive_solver.
Qed.

(** Case analysis on the answers of the backend that the goal looks at,
    after those known from the hypotheses have been used. *)
Local Ltac known :=
  repeat match goal with
         | H : reaches_render _ = true |- _ =>
             apply reaches_render_spec in H as (? & ? & ? & [? ?])
         | H : _ ∧ _ |- _ => destruct H
         end.

Local Ltac answers :=
  repeat (simpl;
          match goal with
          | H : newPage_ok ?b = _ |- context [newPage_ok ?b] => rewrite H
          | H : ensureDir_ok ?b = _ |- context [ensureDir_ok ?b] => rewrite H
          | H : goto_ok ?b = _ |- context [goto_ok ?b] => rewrite H
          | H : meta_elements ?b = _ |- context [meta_elements ?b] => rewrite H
          | H : pdf_ok ?b = _ |- context [pdf_ok ?b] => rewrite H
          | |- context [if newPage_ok ?b then _ else _] =>
              destruct (newPage_ok b) eqn:?
          | |- context [if ensureDir_ok ?b then _ else _] =>
              destruct (ensureDir_ok b) eqn:?
          | |- context [if goto_ok ?b then _ else _] =>
              destruct (goto_ok b) eqn:?
          | |- context [match meta_elements ?b with _ => _ end] =>
              destruct (meta_elements b) eqn:?
          | |- context [if pdf_ok ?b then _ else _] =>
              destruct (pdf_ok b) eqn:?
          end); simpl.

Local Ltac page_cases t :=
  let i := fresh "i" in let j := fresh "j" in
  let url := fresh "url" in let pc := fresh "pc" in
  destruct t as [i j url pc];
  unfold page_step, page_settled, page_settlement, page_metadata, page_cost;
  destruct pc as [| | | | ? | ? | ?]; simpl.

Lemma page_step_cost (t : PageTask) (w : World) :
  page_settled t = false → page_cost (step t w).1 < page_cost t.
Proof. page_cases t; intros Hs; try done; answers; lia. Qed.

(** A step changes the await point only. *)
Lemma page_step_ids (t : PageTask) (w : World) :
  pt_sitemap (step t w).1 = pt_sitemap t
  ∧ pt_index (step t w).1 = pt_index t
  ∧ pt_url (step t w).1 = pt_url t.
Proof. page_cases t; answers; done. Qed.

Lemma page_step_origin (t : PageTask) (w : World) :
  page_item (step t w).1 = page_item t.
Proof.
  destruct (page_step_ids t w) as (_ & Hj & Hu). unfold page_item. congruence.
Qed.

Lemma page_step_wf (i : nat) (t : PageTask) (w : World) :
  wf i t → page_settled t = false → wf i (step t w).1.
Proof.
  destruct (page_step_ids t w) as (Hi & Hj & _).
  unfold page_wf, behaviour. rewrite Hi, Hj. clear Hi Hj.
  page_cases t; intros [-> Hpc] Hs; try done; known; subst; answers;
    rewrite ?reaches_render_spec; answers; try done; eauto 10.
Qed.

Lemma page_step_hist (i : nat) (t : PageTask) (w : World) :
  wf i t → page_settled t = false →
  ∃ evs, evolves w evs (step t w).2 ∧ hist (step t w).1 = hist t ++ evs.
Proof.
  destruct (page_step_ids t w) as (Hi & Hj & Hu).
  unfold page_wf, page_hist, page_origin, behaviour. rewrite Hi, Hj, Hu.
  clear Hi Hj Hu.
  page_cases t; intros [-> Hpc] Hs; try done; known; subst; answers;
    try discriminate;
    eexists; (split; [ first [ by apply evolves_mkdir
                             | by apply evolves_store
                             | by apply evolves_emit ]
                     | first [ reflexivity | by rewrite <- ?app_assoc ] ]).
Qed.

(** The page contexts a task has open, counted on its calls. *)
Lemma page_hist_pages (i : nat) (t : PageTask) :
  wf i t →
  count is_close (hist t) ≤ count is_open (hist t)
  ∧ open_pages (hist t) = if holds_page t || leaked_page t then 1 else 0.
Proof.
  unfold page_wf, page_hist, page_origin, behaviour, open_pages, count,
    holds_page, leaked_page.
  page_cases t; intros [-> Hpc]; known; subst; answers;
    try discriminate; simpl; split; try done; lia.
Qed.

Lemma page_settled_final (i : nat) (t : PageTask) :
  wf i t → page_settled t = true → t = final i (pt_index t) (pt_url t).
Proof.
  destruct t as [i' j url pc]. unfold page_wf, page_settled, page_final. simpl.
  intros [-> Hpc]. destruct pc; try done. by subst.
Qed.

End PageFacts.

(** ** [processSitemap] as a task *)

Lemma bind_fmap_list {A B C} (f : A → B) (g : B → list C) (l : list A) :
  (f <$> l) ≫= g = l ≫= (g ∘ f).
Proof. induction l as [|x l IH]; csimpl; [done | by rewrite IH]. Qed.

Lemma bind_ext_Permutation {A B} (f g : A → list B) (l : list A) :
  Forall (λ x, f x ≡ₚ g x) l → l ≫= f ≡ₚ l ≫= g.
Proof.
  induction 1 as [|x l Hx _ IH]; csimpl; [done|]. by rewrite Hx, IH.
Qed.

Section SitemapFacts.
Context `{Helpers}.
Variable backend : Backend.
Variable cliArgs : ICliArguments.
Variable website : Website.

Local Abbreviation outDir := (normalized_outputDir cliArgs).
Local Abbreviation pstep :=
  (λ _ : nat, page_step backend cliArgs website (normalized_outputDir cliArgs)).
Local Abbreviation phist :=
  (page_hist backend cliArgs website (normalized_outputDir cliArgs)).
Local Abbreviation pwf := (page_wf backend).
Local Abbreviation sstep := (sitemap_step backend cliArgs website).
Local Abbreviation swf := (sitemap_wf backend cliArgs).
Local Abbreviation shist := (sitemap_hist backend cliArgs website).
Local Abbreviation sevents := (sitemap_events backend cliArgs website).

Lemma inner_wf_advance (i : nat) (c : nat) (t : PageTask) (w : World) :
  pwf i t → page_settled t = false → pwf i (pstep c t w).1.
Proof. exact (page_step_wf backend cliArgs website outDir i t w). Qed.

Lemma inner_cost_advance (i : nat) (c : nat) (t : PageTask) (w : World) :
  pwf i t → page_settled t = false → page_cost (pstep c t w).1 < page_cost t.
Proof.
  intros _. exact (page_step_cost backend cliArgs website outDir t w).
Qed.

Lemma inner_hist_advance (i : nat) (c : nat) (t : PageTask) (w : World) :
  pwf i t → page_settled t = false →
  ∃ evs, evolves w evs (pstep c t w).2 ∧ phist (pstep c t w).1 ≡ₚ phist t ++ evs.
Proof.
  intros Hwf Hs.
  destruct (page_step_hist backend cliArgs website outDir i t w Hwf Hs)
    as (evs & Hev & Hh).
  exists evs. by rewrite Hh.
Qed.

Lemma inner_pool_wf (i : nat) (sitemap : WebsiteSitemap) :
  1 ≤ processPool cliArgs →
  pool_wf (page_spawn i) page_settled (pwf i) (inner_pool cliArgs sitemap).
Proof.
  intros Hn. apply new_pool_wf; [done|]. intros j url.
  unfold page_wf, page_spawn, page_settled. simpl. done.
Qed.

Lemma inner_pool_hist (i : nat) (sitemap : WebsiteSitemap) :
  pool_tasks (page_spawn i) (inner_pool cliArgs sitemap) ≫= phist = [].
Proof.
  unfold pool_tasks, live, inner_pool, new_pool. simpl.
  induction (indexed (urls sitemap)) as [|[j url] l IH]; simpl; done.
Qed.

Lemma inner_pool_items (i : nat) (sitemap : WebsiteSitemap) :
  page_item <$> pool_tasks (page_spawn i) (inner_pool cliArgs sitemap)
  = indexed (urls sitemap).
Proof. unfold inner_pool. by apply new_pool_origin. Qed.

Lemma finished_final (i : nat) (tasks : list PageTask) :
  Forall (λ t, pwf i t ∧ page_settled t = true) tasks →
  tasks = (λ jx, page_final backend i jx.1 jx.2) <$> (page_item <$> tasks).
Proof.
  induction 1 as [|t l [Hwf Hs] _ IH]; csimpl; [done|].
  rewrite <- IH. f_equal. by apply page_settled_final.
Qed.

Lemma valid_concurrency_spec (n : nat) : valid_concurrency n = true ↔ 1 ≤ n.
Proof. unfold valid_concurrency. by rewrite bool_decide_eq_true. Qed.

Local Ltac sitemap_cases t :=
  let i := fresh "i" in let sm := fresh "sm" in let pc := fresh "pc" in
  destruct t as [i sm pc];
  unfold sitemap_step, sitemap_wf, sitemap_settled, sitemap_cost, sitemap_hist,
    sitemap_runs, sitemap_settlement, sitemap_prologue;
  simpl;
  destruct pc as [|p|r fin]; simpl.

Lemma sitemap_step_wf (c : nat) (t : SitemapTask) (w : World) :
  swf t → sitemap_settled t = false → swf (sstep c t w).1.
Proof.
  sitemap_cases t; intros Hwf Hs; try done.
  - case_bool_decide as Hu; simpl.
    + destruct (outputDir_ok backend i) eqn:Hok; simpl.
      * destruct (valid_concurrency (processPool cliArgs)) eqn:Hv; simpl.
        -- rewrite ?bool_decide_true, ?Hok, ?Hv by done. simpl.
           split_and!; [done | done | | by rewrite inner_pool_items].
           by apply inner_pool_wf, valid_concurrency_spec.
        -- rewrite ?bool_decide_true, ?Hok, ?Hv by done. done.
      * rewrite ?bool_decide_true, ?Hok by done. done.
    + rewrite ?bool_decide_false by lia. done.
  - destruct Hwf as (Hruns & Hn & Hp & Hitems).
    unfold inner_tick.
    pose proof (tick_wf _ pstep _ _ (inner_wf_advance i) c p w Hp) as Hp'.
    pose proof (tick_origin _ pstep page_settled (pwf i) page_item
                  (λ c t w, page_step_origin backend cliArgs website outDir t w)
                  c p w Hp) as Ho.
    destruct (tick_spec _ pstep page_settled (pwf i) c p w Hp) as (Hc & _).
    destruct (tick (page_spawn i) pstep page_settled c p w) as [p' w'].
    simpl in *.
    destruct (drained p') eqn:Hd; simpl.
    + rewrite Hruns. split.
      { apply andb_prop in Hruns as [Hruns Hv]. apply andb_prop in Hruns as [Hu Hok].
        by rewrite Hu, Hok, Hv. }
      rewrite (drained_tasks _ p' Hd) in Ho.
      destruct Hp' as (_ & _ & Hfin & _).
      rewrite (finished_final i (finished p') Hfin).
      by rewrite Ho, Hitems.
    + split_and!; try done; [congruence | by rewrite Ho].
Qed.

Lemma sitemap_step_cost (c : nat) (t : SitemapTask) (w : World) :
  swf t → sitemap_settled t = false →
  sitemap_cost (sstep c t w).1 < sitemap_cost t.
Proof.
  sitemap_cases t; intros Hwf Hs; try done.
  - case_bool_decide; simpl; [|lia].
    destruct (outputDir_ok backend i); simpl; [|lia].
    destruct (valid_concurrency (processPool cliArgs)); simpl; [|lia].
    unfold pool_cost, inner_pool, new_pool. simpl.
    assert (Hsum : ∀ l : list (nat * URL),
               sum_list_with (λ ix, page_cost (page_spawn i ix.1 ix.2)) l
               = 6 * length l).
    { induction l as [|ix l IH]; simpl; [done | rewrite IH; lia]. }
    rewrite Hsum. unfold indexed. rewrite length_imap. lia.
  - destruct Hwf as (Hruns & Hn & Hp & Hitems).
    unfold inner_tick.
    destruct (drained p) eqn:Hd0.
    + rewrite tick_drained by done. rewrite Hd0. simpl. lia.
    + pose proof (tick_cost _ pstep _ page_cost _ (inner_cost_advance i)
                    c p w Hp Hd0) as Hlt.
      destruct (tick (page_spawn i) pstep page_settled c p w) as [p' w'].
      simpl in *. destruct (drained p'); simpl; lia.
Qed.

Lemma sitemap_step_hist (c : nat) (t : SitemapTask) (w : World) :
  swf t → sitemap_settled t = false →
  ∃ evs, evolves w evs (sstep c t w).2 ∧ shist (sstep c t w).1 ≡ₚ shist t ++ evs.
Proof.
  sitemap_cases t; intros Hwf Hs; try done.
  - case_bool_decide as Hu; simpl.
    + destruct (outputDir_ok backend i) eqn:Hok; simpl.
      * destruct (valid_concurrency (processPool cliArgs)); simpl;
          (eexists; split; [by apply evolves_mkdir|]);
          rewrite ?bool_decide_true, ?Hok, ?inner_pool_hist by done; done.
      * eexists. split; [by apply evolves_emit|].
        rewrite ?bool_decide_true, ?Hok by done. done.
    + eexists. split; [by apply evolves_emit|].
      rewrite ?bool_decide_false by lia. done.
  - destruct Hwf as (Hruns & Hn & Hp & Hitems).
    unfold inner_tick.
    destruct (tick_hist _ pstep _ _ phist (inner_hist_advance i) c p w Hp)
      as (evs & Hev & Hh).
    destruct (tick (page_spawn i) pstep page_settled c p w) as [p' w'].
    simpl in *. exists evs.
    destruct (drained p') eqn:Hd; simpl; (split; [done|]).
    + rewrite <- (drained_tasks (page_spawn i) p' Hd), Hh, app_assoc. done.
    + rewrite Hh, app_assoc. done.
Qed.

Lemma sitemap_step_item (c : nat) (t : SitemapTask) (w : World) :
  sitemap_item (sstep c t w).1 = sitemap_item t.
Proof.
  destruct t as [i sm pc]. unfold sitemap_step, sitemap_item. simpl.
  destruct pc as [|p|]; simpl; [| |done].
  - case_bool_decide; simpl; [|done].
    destruct (outputDir_ok backend i); simpl; [|done].
    by destruct (valid_concurrency (processPool cliArgs)).
  - destruct (inner_tick backend cliArgs website i c p w) as [p' w'].
    by destruct (drained p').
Qed.

(** A settled sitemap task has made the calls [sitemap_events] lists. *)
Lemma sitemap_settled_events (t : SitemapTask) :
  swf t → sitemap_settled t = true →
  shist t ≡ₚ sevents (st_index t) (st_sitemap t).
Proof.
  destruct t as [i sm pc].
  unfold sitemap_wf, sitemap_settled, sitemap_hist, sitemap_events. simpl.
  destruct pc as [|p|r fin]; simpl; intros Hwf Hs; [done|done|].
  destruct Hwf as [_ Hdone].
  rewrite Hdone. destruct (sitemap_runs backend cliArgs i sm); [|done].
  rewrite bind_fmap_list. done.
Qed.

End SitemapFacts.

(** ** The whole run *)

Lemma stored_bind {A} (f : A → list Event) (l : list A) :
  stored (l ≫= f) = l ≫= (stored ∘ f).
Proof.
  induction l as [|x l IH]; csimpl; [done|]. by rewrite stored_app, IH.
Qed.

Section RunFacts.
Context `{Helpers}.
Variable backend : Backend.
Variable cliArgs : ICliArguments.
Variable website : Website.

Local Abbreviation outDir := (normalized_outputDir cliArgs).
Local Abbreviation sstep := (sitemap_step backend cliArgs website).
Local Abbreviation swf := (sitemap_wf backend cliArgs).
Local Abbreviation shist := (sitemap_hist backend cliArgs website).
Local Abbreviation sevents := (sitemap_events backend cliArgs website).

Lemma outer_pool_wf :
  pool_wf sitemap_spawn sitemap_settled swf (outer_pool website).
Proof. by apply new_pool_wf. Qed.

(** The outer pool drains, and the calls made meanwhile are those of
    [run_events], in some order. *)
Lemma outer_process_spec (sched : Schedule) (w : World) :
  ∃ evs, evolves w evs (outer_process backend cliArgs website sched w).2
         ∧ evs ≡ₚ run_events backend cliArgs website.
Proof.
  unfold outer_process, process.
  set (p0 := outer_pool website). set (fuel := pool_cost _ _ p0).
  pose proof outer_pool_wf as Hwf0. fold p0 in Hwf0.
  pose proof (run_ticks_wf sitemap_spawn sstep sitemap_settled swf
                (sitemap_step_wf backend cliArgs website)
                fuel sched p0 w Hwf0) as Hwf.
  pose proof (run_ticks_drained sitemap_spawn sstep sitemap_settled
                sitemap_cost swf
                (sitemap_step_wf backend cliArgs website)
                (sitemap_step_cost backend cliArgs website)
                fuel sched p0 w Hwf0 (Nat.le_refl _)) as Hd.
  destruct (run_ticks_hist sitemap_spawn sstep sitemap_settled swf shist
              (sitemap_step_wf backend cliArgs website)
              (sitemap_step_hist backend cliArgs website)
              fuel sched p0 w Hwf0) as (evs & Hev & Hh).
  pose proof (run_ticks_origin sitemap_spawn sstep sitemap_settled swf
                (sitemap_step_wf backend cliArgs website)
                sitemap_item (sitemap_step_item backend cliArgs website)
                fuel sched p0 w Hwf0) as Ho.
  destruct (run_ticks sitemap_spawn sstep sitemap_settled fuel sched p0 w)
    as [p' w']. simpl in *.
  exists evs. split; [done|].
  assert (Hnil : pool_tasks sitemap_spawn p0 ≫= shist = []).
  { unfold pool_tasks, live, p0, outer_pool, new_pool. simpl.
    induction (indexed (sitemaps website)) as [|[i sm] l IH]; csimpl; done. }
  rewrite Hnil in Hh. simpl in Hh. rewrite <- Hh.
  rewrite (drained_tasks _ p' Hd) in *.
  destruct Hwf as (_ & _ & Hfin & _).
  rewrite (bind_ext_Permutation shist
             ((λ ix, sevents ix.1 ix.2) ∘ sitemap_item) (finished p')).
  2:{ eapply Forall_impl; [exact Hfin|]. intros t [Ht Hs]. simpl.
      by apply sitemap_settled_events. }
  rewrite <- bind_fmap_list, Ho.
  unfold p0, outer_pool.
  rewrite (new_pool_origin sitemap_spawn sitemap_item (λ _ _, eq_refl)).
  done.
Qed.

Lemma stored_page_events (dir : string) (i j : nat) (url : URL) :
  stored (page_events backend cliArgs website dir i j url)
  = page_recorded backend cliArgs dir i j url.
Proof.
  unfold page_events, page_final, page_hist, page_recorded, page_settlement,
    reaches_render, behaviour. simpl.
  destruct (page_backend backend i j) as [[] [] [] ? [?|] []]; simpl; done.
Qed.

Lemma stored_sitemap_events (i : nat) (sitemap : WebsiteSitemap) :
  stored (sevents i sitemap) = sitemap_recorded backend cliArgs i sitemap.
Proof.
  unfold sitemap_events, sitemap_recorded, sitemap_prologue.
  rewrite stored_app.
  assert (Hp : ∀ evs, stored ((if bool_decide (length (urls sitemap) ≠ 0)
     then [(OSitemap i, AEnsureDir outDir (outputDir_ok backend i))]
     else [(OSitemap i, AWarn (NoUrlsFound (rootUrl sitemap) (sitemapURL website)))])) ++ evs = evs).
  { intros evs. by case_bool_decide. }
  rewrite Hp. destruct (sitemap_runs backend cliArgs i sitemap); [|done].
  rewrite stored_bind. apply list_bind_ext; [|done].
  intros [j url]. apply stored_page_events.
Qed.

Lemma stored_run_events :
  stored (run_events backend cliArgs website) = run_recorded backend cliArgs website.
Proof.
  unfold run_events, run_recorded. rewrite stored_bind.
  apply list_bind_ext; [|done]. intros [i sm]. apply stored_sitemap_events.
Qed.

(** After the outer pool has drained, the outcome collection has grown
    by the outcomes of [run_recorded], in some order. *)
Lemma outer_process_results (sched : Schedule) (w : World) :
  ∃ new, results (outer_process backend cliArgs website sched w).2 = results w ++ new
         ∧ new ≡ₚ run_recorded backend cliArgs website.
Proof.
  destruct (outer_process_spec sched w) as (evs & (_ & Hr & _) & Hp).
  exists (stored evs). split; [done|].
  rewrite <- stored_run_events. unfold stored. by rewrite Hp.
Qed.

End RunFacts.

(** ** [pageToPDF] and the inner pool, run to completion *)

Section Completion.
Context `{Helpers}.
Variable backend : Backend.
Variable cliArgs : ICliArguments.
Variable website : Website.

Local Abbreviation outDir := (normalized_outputDir cliArgs).
Local Abbreviation pstep :=
  (λ _ : nat, page_step backend cliArgs website (normalized_outputDir cliArgs)).
Local Abbreviation phist :=
  (page_hist backend cliArgs website (normalized_outputDir cliArgs)).
Local Abbreviation pwf := (page_wf backend).

Lemma page_cost_settled (t : PageTask) :
  page_cost t = 0 ↔ page_settled t = true.
Proof.
  unfold page_cost, page_settled. destruct (pt_pc t); split; (done || lia).
Qed.

Lemma page_step_settled (dir : string) (t : PageTask) (w : World) :
  page_settled t = true → page_step backend cliArgs website dir t w = (t, w).
Proof.
  unfold page_settled, page_step. by destruct (pt_pc t).
Qed.

Lemma page_iter_spec (dir : string) (i : nat) (t : PageTask) (w : World) (n : nat) :
  page_wf backend i t →
  let tw := Nat.iter n (λ tw, page_step backend cliArgs website dir tw.1 tw.2) (t, w) in
  ∃ evs,
    page_wf backend i tw.1
    ∧ page_item tw.1 = page_item t
    ∧ evolves w evs tw.2
    ∧ page_hist backend cliArgs website dir tw.1
        = page_hist backend cliArgs website dir t ++ evs
    ∧ page_cost tw.1 ≤ page_cost t - n.
Proof.
  intros Hwf. induction n as [|n IH]; simpl.
  - exists []. rewrite app_nil_r. split_and!; try done; [apply evolves_refl | lia].
  - destruct IH as (evs & Hwf' & Hitem & Hev & Hh & Hc).
    set (tw := Nat.iter n _ (t, w)) in *.
    destruct (page_settled tw.1) eqn:Hs.
    + rewrite page_step_settled by done. exists evs. simpl.
      apply page_cost_settled in Hs. split_and!; try done. lia.
    + destruct (page_step_hist backend cliArgs website dir i tw.1 tw.2 Hwf' Hs)
        as (evs' & Hev' & Hh').
      pose proof (page_step_cost backend cliArgs website dir tw.1 tw.2 Hs).
      exists (evs ++ evs'). split_and!.
      * by apply page_step_wf.
      * by rewrite page_step_origin.
      * by eapply evolves_trans.
      * by rewrite Hh', Hh, app_assoc.
      * lia.
Qed.

(** [pageToPDF] settles as [page_settlement] says and makes the calls of
    [page_events], in that order. *)
Lemma pageToPDF_spec (dir : string) (i j : nat) (url : URL) (w : World) :
  (pageToPDF backend cliArgs website dir i j url w).1
    = page_settlement (behaviour backend i j)
  ∧ evolves w (page_events backend cliArgs website dir i j url)
      (pageToPDF backend cliArgs website dir i j url w).2.
Proof.
  unfold pageToPDF.
  assert (Hwf : page_wf backend i (page_spawn i j url)) by done.
  destruct (page_iter_spec dir i _ w 6 Hwf) as (evs & Hwf' & Hitem & Hev & Hh & Hc).
  set (tw := Nat.iter 6 _ _) in *. clearbody tw. destruct tw as [t w'].
  simpl in *.
  assert (Hs : page_settled t = true) by (apply page_cost_settled; lia).
  pose proof (page_settled_final backend i t Hwf' Hs) as Ht.
  unfold page_item in Hitem. simpl in Hitem. injection Hitem as Hj Hu.
  rewrite Hj, Hu in Ht. subst t.
  split; [done|]. unfold page_events. by rewrite Hh.
Qed.

(** The inner pool drains; every URL has been handled once, has settled
    as its own answers say, and the calls made are those of the page
    tasks, in some order. *)
Lemma inner_process_spec (i : nat) (sched : Schedule) (sitemap : WebsiteSitemap)
    (w : World) :
  1 ≤ processPool cliArgs →
  let pw := inner_process backend cliArgs website i sched sitemap w in
  drained pw.1 = true
  ∧ active pw.1 = []
  ∧ finished pw.1 ≡ₚ (λ jx, page_final backend i jx.1 jx.2) <$> indexed (urls sitemap)
  ∧ ∃ evs, evolves w evs pw.2
           ∧ evs ≡ₚ indexed (urls sitemap)
                    ≫= λ jx, page_events backend cliArgs website outDir i jx.1 jx.2.
Proof.
  intros Hn. unfold inner_process, process.
  set (p0 := inner_pool cliArgs sitemap). set (fuel := pool_cost _ _ p0).
  pose proof (inner_pool_wf backend cliArgs i sitemap Hn) as Hwf0. fold p0 in Hwf0.
  pose proof (run_ticks_wf (page_spawn i) pstep page_settled (pwf i)
                (inner_wf_advance backend cliArgs website i)
                fuel sched p0 w Hwf0) as Hwf.
  pose proof (run_ticks_drained (page_spawn i) pstep page_settled page_cost (pwf i)
                (inner_wf_advance backend cliArgs website i)
                (inner_cost_advance backend cliArgs website i)
                fuel sched p0 w Hwf0 (Nat.le_refl _)) as Hd.
  destruct (run_ticks_hist (page_spawn i) pstep page_settled (pwf i) phist
              (inner_wf_advance backend cliArgs website i)
              (inner_hist_advance backend cliArgs website i)
              fuel sched p0 w Hwf0) as (evs & Hev & Hh).
  pose proof (run_ticks_origin (page_spawn i) pstep page_settled (pwf i)
                (inner_wf_advance backend cliArgs website i)
                page_item
                (λ c t w, page_step_origin backend cliArgs website outDir t w)
                fuel sched p0 w Hwf0) as Ho.
  destruct (run_ticks (page_spawn i) pstep page_settled fuel sched p0 w)
    as [p' w']. simpl in *.
  destruct Hwf as (_ & _ & Hfin & _).
  rewrite (drained_tasks _ p' Hd) in *.
  unfold p0 in Ho, Hh. rewrite inner_pool_items in Ho. rewrite inner_pool_hist in Hh.
  assert (Hf : finished p'
               ≡ₚ (λ jx, page_final backend i jx.1 jx.2) <$> indexed (urls sitemap)).
  { rewrite (finished_final backend i (finished p') Hfin). by rewrite Ho. }
  split_and!; [done | | done |].
  { unfold drained in Hd. by destruct (pending p'), (active p'). }
  exists evs. split; [done|]. simpl in Hh.
  rewrite <- Hh, Hf, bind_fmap_list. done.
Qed.

End Completion.

(** ** A pool of concurrency 1 is serial *)

Section Serial.
Context {Item Task : Type}.
Variable spawn : nat → Item → Task.
Variable advance : nat → Task → World → Task * World.
Variable settled : Task → bool.
Variable wf : Task → Prop.
Variable index : Task → nat.
Variable tag : Event → option nat.

Hypothesis wf_advance : ∀ c t w,
  wf t → settled t = false → wf (advance c t w).1.
Hypothesis index_advance : ∀ c t w, index (advance c t w).1 = index t.
Hypothesis tag_advance : ∀ c t w,
  wf t → settled t = false →
  ∃ evs, trace (advance c t w).2 = trace w ++ evs
         ∧ Forall (λ e, tag e = Some (index t)) evs.

Local Abbreviation tick1 := (tick spawn advance settled).
Local Abbreviation run1 := (run_ticks spawn advance settled).
Local Abbreviation ordered := (in_order spawn index tag).

Lemma omap_tag_const (evs : list Event) (i : nat) :
  Forall (λ e, tag e = Some i) evs → Forall (λ a, a = i) (omap tag evs).
Proof.
  induction 1 as [|e evs He _ IH]; csimpl; [constructor|].
  rewrite He. simpl. by constructor.
Qed.

Lemma const_sorted (l : list nat) (i : nat) :
  Forall (λ a, a = i) l → StronglySorted le l.
Proof.
  induction 1 as [|a l -> Hl IH]; constructor; [done|].
  eapply Forall_impl; [exact Hl|]. intros ? ->. done.
Qed.

Lemma tick_in_order (c : nat) (p : Pool Item Task) (w : World) (evs : list Event) :
  concurrency p = 1 →
  pool_wf spawn settled wf p →
  ordered p evs →
  ∃ evs', trace (tick1 c p w).2 = trace w ++ evs'
          ∧ ordered (tick1 c p w).1 (evs ++ evs').
Proof.
  intros Hone Hwf (Hlive & Htags & Hle).
  destruct (tick_exact spawn advance settled wf c p w Hwf) as (_ & _ & Hcase).
  destruct Hcase as [[_ ->] | (c' & k & t & Hk & Hlt & Hw & Hcase)].
  { exists []. rewrite !app_nil_r. done. }
  assert (k = 0) as -> by lia.
  destruct (live spawn p) as [|t0 rest] eqn:Hl; [done|].
  simpl in Hk. injection Hk as ->.
  pose proof Hwf as (_ & _ & _ & Hall). rewrite Hl in Hall.
  apply Forall_cons in Hall as [[Ht Hs] _].
  destruct (tag_advance c' t w Ht Hs) as (evs' & Htr & Hev).
  exists evs'. split; [by rewrite Hw|].
  apply omap_tag_const in Hev.
  rewrite fmap_cons in Hlive. apply StronglySorted_cons in Hlive as [Hhd Hrest].
  assert (Hnew : ∀ a u, a ∈ omap tag (evs ++ evs') → u ∈ t :: rest → a ≤ index u).
  { intros a u Ha Hu. rewrite omap_app, elem_of_app in Ha.
    destruct Ha as [Ha|Ha]; [by apply Hle|].
    rewrite Forall_forall in Hev. rewrite (Hev a Ha).
    apply elem_of_cons in Hu as [->|Hu]; [done|].
    rewrite Forall_forall in Hhd. apply Nat.lt_le_incl, Hhd.
    by apply list_elem_of_fmap_2. }
  assert (Hsorted : StronglySorted le (omap tag (evs ++ evs'))).
  { rewrite omap_app. apply StronglySorted_app. split_and!.
    - intros a b Ha Hb. rewrite Forall_forall in Hev. rewrite (Hev b Hb).
      apply (Hle a t); [done | left].
    - done.
    - by eapply const_sorted. }
  unfold in_order.
  destruct (settled (advance c' t w).1); destruct Hcase as [_ ->]; simpl.
  - split_and!; [done | done |]. intros a u Ha Hu. apply Hnew; [done | by right].
  - split_and!; [ | done | ].
    + csimpl. rewrite index_advance. by apply StronglySorted_cons.
    + intros a u Ha Hu. apply elem_of_cons in Hu as [->|Hu].
      * rewrite index_advance. apply Hnew; [done | left].
      * apply Hnew; [done | by right].
Qed.

Lemma run_ticks_in_order (fuel : nat) (sched : Schedule) (p : Pool Item Task)
    (w : World) (evs : list Event) :
  concurrency p = 1 →
  pool_wf spawn settled wf p →
  ordered p evs →
  ∃ evs', trace (run1 fuel sched p w).2 = trace w ++ evs'
          ∧ ordered (run1 fuel sched p w).1 (evs ++ evs').
Proof.
  revert sched p w evs.
  induction fuel as [|fuel IH]; intros sched p w evs Hone Hwf Hord; simpl.
  - exists []. by rewrite !app_nil_r.
  - destruct (tick_in_order (choice sched) p w evs Hone Hwf Hord)
      as (evs1 & Htr1 & Hord1).
    pose proof (tick_wf spawn advance settled wf wf_advance (choice sched) p w Hwf)
      as Hwf1.
    destruct (tick_exact spawn advance settled wf (choice sched) p w Hwf)
      as (Hc1 & _).
    destruct (tick1 (choice sched) p w) as [p1 w1]. simpl in *.
    destruct (IH (tail sched) p1 w1 (evs ++ evs1)) as (evs2 & Htr2 & Hord2);
      [congruence | done | done |].
    exists (evs1 ++ evs2). rewrite Htr2, Htr1, <- !app_assoc.
    split; [done|]. by rewrite <- app_assoc in Hord2.
Qed.

End Serial.

(** ** The sitemaps of a run are handled one after the other *)

Lemma indexed_fst {A} (l : list A) : (indexed l).*1 = seq 0 (length l).
Proof.
  unfold indexed. rewrite fmap_imap.
  rewrite (imap_ext _ (λ i _, id i)) by done.
  by rewrite imap_seq_0, list_fmap_id.
Qed.

Lemma seq_sorted (start len : nat) : StronglySorted lt (seq start len).
Proof.
  revert start. induction len as [|len IH]; intros start; simpl; constructor.
  - apply IH.
  - apply Forall_forall. intros x Hx. apply elem_of_seq in Hx. lia.
Qed.

Section SerialRun.
Context `{Helpers}.
Variable backend : Backend.
Variable cliArgs : ICliArguments.
Variable website : Website.

Local Abbreviation outDir := (normalized_outputDir cliArgs).
Local Abbreviation phist :=
  (page_hist backend cliArgs website (normalized_outputDir cliArgs)).
Local Abbreviation sstep := (sitemap_step backend cliArgs website).
Local Abbreviation swf := (sitemap_wf backend cliArgs).
Local Abbreviation shist := (sitemap_hist backend cliArgs website).

Lemma page_hist_origin (dir : string) (t : PageTask) :
  Forall (λ e, e.1 = page_origin t) (page_hist backend cliArgs website dir t).
Proof.
  destruct t as [i j url pc]. unfold page_hist. simpl.
  destruct pc as [| | | | md | [|[]] | [|[]]]; simpl; repeat constructor.
Qed.

Lemma pages_hist_sitemap (i : nat) (tasks : list PageTask) :
  Forall (λ t, pt_sitemap t = i) tasks →
  Forall (λ e, event_sitemap e = Some i) (tasks ≫= phist).
Proof.
  induction 1 as [|t l Ht _ IH]; csimpl; [constructor|].
  apply Forall_app. split; [|done].
  eapply Forall_impl; [apply page_hist_origin|].
  intros e He. unfold event_sitemap. rewrite He. simpl. by rewrite Ht.
Qed.

Lemma sitemap_hist_sitemap (t : SitemapTask) :
  swf t → Forall (λ e, event_sitemap e = Some (st_index t)) (shist t).
Proof.
  destruct t as [i sm pc]. unfold sitemap_wf, sitemap_hist. simpl.
  assert (Hpro : Forall (λ e, event_sitemap e = Some i)
                   (sitemap_prologue backend cliArgs website i sm)).
  { unfold sitemap_prologue. case_bool_decide; by repeat constructor. }
  destruct pc as [|p|r fin]; intros Hwf.
  - constructor.
  - destruct Hwf as (_ & _ & (_ & _ & Hfin & Hlive) & _).
    apply Forall_app. split; [done|]. apply pages_hist_sitemap.
    unfold pool_tasks. apply Forall_app. split.
    + eapply Forall_impl; [exact Hfin|]. by intros t [[? _] _].
    + eapply Forall_impl; [exact Hlive|]. by intros t [[? _] _].
  - destruct Hwf as [_ Hfin].
    apply Forall_app. split; [done|]. apply pages_hist_sitemap.
    rewrite Hfin. destruct (sitemap_runs backend cliArgs i sm); [|constructor].
    apply Forall_fmap, Forall_forall. by intros [j url] _.
Qed.

Lemma sitemap_step_tag (c : nat) (t : SitemapTask) (w : World) :
  swf t → sitemap_settled t = false →
  ∃ evs, trace (sstep c t w).2 = trace w ++ evs
         ∧ Forall (λ e, event_sitemap e = Some (st_index t)) evs.
Proof.
  intros Hwf Hs.
  destruct (sitemap_step_hist backend cliArgs website c t w Hwf Hs)
    as (evs & (Htr & _) & Hh).
  exists evs. split; [done|].
  pose proof (sitemap_step_wf backend cliArgs website c t w Hwf Hs) as Hwf'.
  apply sitemap_hist_sitemap in Hwf'.
  pose proof (sitemap_step_item backend cliArgs website c t w) as Hitem.
  injection Hitem as Hi _. rewrite Hi, Hh in Hwf'.
  by apply Forall_app in Hwf' as [_ ?].
Qed.

Lemma outer_pool_in_order :
  in_order sitemap_spawn st_index event_sitemap (outer_pool website) [].
Proof.
  unfold in_order, live, outer_pool, new_pool. simpl. split_and!.
  - rewrite <- list_fmap_compose.
    erewrite list_fmap_ext; [rewrite indexed_fst; apply seq_sorted|].
    by intros ? [] ?.
  - constructor.
  - intros a t Ha. by apply elem_of_nil in Ha.
Qed.

(** The calls of the outer pool come sitemap after sitemap. *)
Lemma outer_process_serial (sched : Schedule) (w : World) :
  ∃ evs, trace (outer_process backend cliArgs website sched w).2 = trace w ++ evs
         ∧ StronglySorted le (omap event_sitemap evs).
Proof.
  unfold outer_process, process.
  destruct (run_ticks_in_order sitemap_spawn sstep sitemap_settled swf
              st_index event_sitemap
              (sitemap_step_wf backend cliArgs website)
              (λ c t w, f_equal fst (sitemap_step_item backend cliArgs website c t w))
              (sitemap_step_tag)
              (pool_cost sitemap_spawn sitemap_cost (outer_pool website))
              sched (outer_pool website) w [] eq_refl
              (outer_pool_wf backend cliArgs website)
              outer_pool_in_order) as (evs & Htr & _ & Hsorted & _).
  by exists evs.
Qed.

End SerialRun.

(** ** The inner pool at any instant *)

Lemma count_app (f : Event → bool) (tr1 tr2 : list Event) :
  count f (tr1 ++ tr2) = count f tr1 + count f tr2.
Proof. unfold count. by rewrite filter_app, length_app. Qed.

Lemma count_Permutation (f : Event → bool) (tr1 tr2 : list Event) :
  tr1 ≡ₚ tr2 → count f tr1 = count f tr2.
Proof. unfold count. by intros ->. Qed.

Lemma filter_length_ext {A} (f g : A → bool) (l : list A) :
  Forall (λ x, f x = g x) l →
  length (filter (λ x, f x = true) l) = length (filter (λ x, g x = true) l).
Proof.
  induction 1 as [|x l Hx _ IH]; [done|].
  rewrite !filter_cons, Hx. destruct (decide (g x = true)); simpl; by rewrite IH.
Qed.

Lemma filter_length_none {A} (f : A → bool) (l : list A) :
  Forall (λ x, f x = false) l → length (filter (λ x, f x = true) l) = 0.
Proof.
  induction 1 as [|x l Hx _ IH]; [done|].
  rewrite filter_cons, Hx. by destruct (decide (false = true)).
Qed.

Section Instants.
Context `{Helpers}.
Variable backend : Backend.
Variable cliArgs : ICliArguments.
Variable website : Website.

Local Abbreviation outDir := (normalized_outputDir cliArgs).
Local Abbreviation pstep :=
  (λ _ : nat, page_step backend cliArgs website (normalized_outputDir cliArgs)).
Local Abbreviation phist :=
  (page_hist backend cliArgs website (normalized_outputDir cliArgs)).
Local Abbreviation pwf := (page_wf backend).

Lemma pages_sum (i : nat) (tasks : list PageTask) :
  Forall (pwf i) tasks →
  count is_close (tasks ≫= phist) ≤ count is_open (tasks ≫= phist)
  ∧ open_pages (tasks ≫= phist)
    = length (filter (λ t, holds_page t || leaked_page t = true) tasks).
Proof.
  induction 1 as [|t l Ht _ [IHle IH]]; csimpl; [done|].
  destruct (page_hist_pages backend cliArgs website outDir i t Ht) as [Hle Heq].
  unfold open_pages in *. rewrite !count_app. split; [lia|].
  rewrite filter_cons.
  destruct (decide (holds_page t || leaked_page t = true)) as [Hb|Hb].
  - rewrite Hb in Heq. simpl. lia.
  - apply not_true_is_false in Hb. rewrite Hb in Heq. lia.
Qed.

(** After any number of turns of the inner pool: no more handlers in
    flight than the concurrency allows, and the page contexts open are
    those of the handlers in flight and those leaked. *)
Lemma inner_run_spec (i turns : nat) (sched : Schedule)
    (sitemap : WebsiteSitemap) (w : World) :
  1 ≤ processPool cliArgs →
  let pw := inner_run backend cliArgs website i turns sched sitemap w in
  length (active pw.1) ≤ processPool cliArgs
  ∧ ∃ evs, evolves w evs pw.2
           ∧ open_pages evs = pages_in_flight pw.1 + pages_leaked pw.1.
Proof.
  intros Hn. unfold inner_run.
  set (p0 := inner_pool cliArgs sitemap).
  pose proof (inner_pool_wf backend cliArgs i sitemap Hn) as Hwf0. fold p0 in Hwf0.
  pose proof (run_ticks_wf (page_spawn i) pstep page_settled (pwf i)
                (inner_wf_advance backend cliArgs website i)
                turns sched p0 w Hwf0) as Hwf.
  pose proof (run_ticks_concurrency (page_spawn i) pstep page_settled (pwf i)
                (inner_wf_advance backend cliArgs website i)
                turns sched p0 w Hwf0) as Hc.
  destruct (run_ticks_hist (page_spawn i) pstep page_settled (pwf i) phist
              (inner_wf_advance backend cliArgs website i)
              (inner_hist_advance backend cliArgs website i)
              turns sched p0 w Hwf0) as (evs & Hev & Hh).
  destruct (run_ticks (page_spawn i) pstep page_settled turns sched p0 w)
    as [p w']. simpl in *.
  unfold p0 in Hh. rewrite inner_pool_hist in Hh. simpl in Hh.
  destruct Hwf as (_ & Hlen & Hfin & Hlive).
  split; [by rewrite Hc in Hlen|].
  exists evs. split; [done|].
  unfold open_pages. rewrite <- !(count_Permutation _ _ _ Hh).
  fold (open_pages (pool_tasks (page_spawn i) p ≫= phist)).
  destruct (pages_sum i (pool_tasks (page_spawn i) p)) as [_ ->].
  { unfold pool_tasks. apply Forall_app. split.
    - eapply Forall_impl; [exact Hfin|]. by intros t [? _].
    - eapply Forall_impl; [exact Hlive|]. by intros t [? _]. }
  unfold pool_tasks, live, pages_in_flight, pages_leaked.
  rewrite !filter_app, !length_app.
  rewrite (filter_length_ext _ leaked_page (finished p)).
  2:{ eapply Forall_impl; [exact Hfin|]. intros t [_ Hs].
      unfold page_settled, holds_page in *. by destruct (pt_pc t). }
  apply Forall_app in Hlive as [Hact Hpend].
  rewrite (filter_length_ext _ holds_page (active p)).
  2:{ eapply Forall_impl; [exact Hact|]. intros t [_ Hs].
      unfold page_settled, holds_page, leaked_page in *. by destruct (pt_pc t). }
  rewrite (filter_length_none _ (_ <$> pending p)).
  2:{ apply Forall_fmap, Forall_forall. by intros [j url] _. }
  lia.
Qed.

End Instants.

(** ** The calls of one handler, among those of the pool *)

Section Projection.
Context {Item Task : Type}.
Variable spawn : nat → Item → Task.
Variable advance : nat → Task → World → Task * World.
Variable settled : Task → bool.
Variable wf : Task → Prop.
Variable hist : Task → list Event.
Variable key : Task → Origin.

Hypothesis wf_advance : ∀ c t w,
  wf t → settled t = false → wf (advance c t w).1.
Hypothesis key_advance : ∀ c t w, key (advance c t w).1 = key t.
Hypothesis hist_exact : ∀ c t w,
  wf t → settled t = false →
  ∃ evs, trace (advance c t w).2 = trace w ++ evs
         ∧ hist (advance c t w).1 = hist t ++ evs
         ∧ Forall (λ e, e.1 = key t) evs.

Local Abbreviation own t := (λ e : Event, e.1 = key t).

Lemma filter_own_all (t : Task) (evs : list Event) :
  Forall (λ e, e.1 = key t) evs → filter (own t) evs = evs.
Proof.
  induction 1 as [|e evs He _ IH]; [done|].
  rewrite filter_cons_True by done. by rewrite IH.
Qed.

Lemma filter_own_none (t u : Task) (evs : list Event) :
  key u ≠ key t → Forall (λ e, e.1 = key t) evs → filter (own u) evs = [].
Proof.
  intros Hne. induction 1 as [|e evs He _ IH]; [done|].
  rewrite filter_cons_False by congruence. done.
Qed.

(** Each handler of the pool finds its own calls, in their order, among
    the calls made since the pool started. *)
Lemma tick_projection (c : nat) (p : Pool Item Task) (w : World) (evs : list Event) :
  pool_wf spawn settled wf p →
  NoDup (key <$> pool_tasks spawn p) →
  Forall (λ t, filter (own t) evs = hist t) (pool_tasks spawn p) →
  ∃ evs', trace (tick spawn advance settled c p w).2 = trace w ++ evs'
          ∧ NoDup (key <$> pool_tasks spawn (tick spawn advance settled c p w).1)
          ∧ Forall (λ t, filter (own t) (evs ++ evs') = hist t)
              (pool_tasks spawn (tick spawn advance settled c p w).1).
Proof.
  intros Hwf Hnd Hall.
  destruct (tick_spec spawn advance settled wf c p w Hwf) as (_ & _ & Hcase).
  destruct Hcase as [[_ ->] | (c' & t & rest & Ht & Hs & Hperm & -> & Hcase)].
  { exists []. by rewrite !app_nil_r. }
  destruct (hist_exact c' t w Ht Hs) as (evs' & Htr & Hh & Hown).
  exists evs'. split; [done|].
  assert (Hold : pool_tasks spawn p ≡ₚ t :: (finished p ++ rest)).
  { unfold pool_tasks. rewrite Hperm. by rewrite Permutation_middle. }
  assert (Hnew : pool_tasks spawn (tick spawn advance settled c p w).1
                 ≡ₚ (advance c' t w).1 :: (finished p ++ rest)).
  { unfold pool_tasks.
    destruct (settled (advance c' t w).1); destruct Hcase as [-> ->].
    - rewrite <- app_assoc. simpl. by rewrite Permutation_middle.
    - by rewrite Permutation_middle. }
  rewrite Hold in Hnd, Hall. rewrite Hnew. clear Hold Hnew Hcase Hperm.
  rewrite fmap_cons in Hnd. apply NoDup_cons in Hnd as [Hnotin Hnd].
  apply Forall_cons in Hall as [Hmine Hothers].
  split.
  - rewrite fmap_cons, key_advance. by apply NoDup_cons.
  - apply Forall_cons. split.
    + assert (Hsame : ∀ l : list Event,
                 filter (own (advance c' t w).1) l = filter (own t) l).
      { intros l. apply list_filter_iff. intros e. by rewrite key_advance. }
      by rewrite filter_app, Hh, !Hsame, Hmine, (filter_own_all t).
    + rewrite Forall_forall in Hothers |- *. intros u Hu.
      rewrite filter_app, (Hothers u Hu), (filter_own_none t u), app_nil_r; try done.
      intros Heq. apply Hnotin. rewrite <- Heq. by apply list_elem_of_fmap_2.
Qed.

Lemma run_ticks_projection (fuel : nat) (sched : Schedule) (p : Pool Item Task)
    (w : World) (evs : list Event) :
  pool_wf spawn settled wf p →
  NoDup (key <$> pool_tasks spawn p) →
  Forall (λ t, filter (own t) evs = hist t) (pool_tasks spawn p) →
  ∃ evs', trace (run_ticks spawn advance settled fuel sched p w).2 = trace w ++ evs'
          ∧ Forall (λ t, filter (own t) (evs ++ evs') = hist t)
              (pool_tasks spawn (run_ticks spawn advance settled fuel sched p w).1).
Proof.
  revert sched p w evs.
  induction fuel as [|fuel IH]; intros sched p w evs Hwf Hnd Hall; simpl.
  - exists []. by rewrite !app_nil_r.
  - destruct (tick_projection (choice sched) p w evs Hwf Hnd Hall)
      as (evs1 & Htr1 & Hnd1 & Hall1).
    pose proof (tick_wf spawn advance settled wf wf_advance (choice sched) p w Hwf)
      as Hwf1.
    destruct (tick spawn advance settled (choice sched) p w) as [p1 w1].
    simpl in *.
    destruct (IH (tail sched) p1 w1 (evs ++ evs1) Hwf1 Hnd1 Hall1)
      as (evs2 & Htr2 & Hall2).
    exists (evs1 ++ evs2). rewrite Htr2, Htr1, <- app_assoc. split; [done|].
    by rewrite <- app_assoc in Hall2.
Qed.

End Projection.

Section PageProjection.
Context `{Helpers}.
Variable backend : Backend.
Variable cliArgs : ICliArguments.
Variable website : Website.

Local Abbreviation outDir := (normalized_outputDir cliArgs).
Local Abbreviation pstep :=
  (λ _ : nat, page_step backend cliArgs website (normalized_outputDir cliArgs)).
Local Abbreviation phist :=
  (page_hist backend cliArgs website (normalized_outputDir cliArgs)).
Local Abbreviation pwf := (page_wf backend).

Lemma page_step_exact (i c : nat) (t : PageTask) (w : World) :
  pwf i t → page_settled t = false →
  ∃ evs, trace (pstep c t w).2 = trace w ++ evs
         ∧ phist (pstep c t w).1 = phist t ++ evs
         ∧ Forall (λ e, e.1 = page_origin t) evs.
Proof.
  intros Hwf Hs.
  destruct (page_step_hist backend cliArgs website outDir i t w Hwf Hs)
    as (evs & (Htr & _) & Hh).
  exists evs. split_and!; [done | done |].
  pose proof (page_hist_origin backend cliArgs website outDir
                (page_step backend cliArgs website outDir t w).1) as Ho.
  rewrite Hh in Ho. apply Forall_app in Ho as [_ Ho].
  destruct (page_step_ids backend cliArgs website outDir t w) as (Hi & Hj & _).
  unfold page_origin in *. by rewrite Hi, Hj in Ho.
Qed.

(** In a run of the inner pool, the calls made for a URL are those of
    [pageToPDF] run on its own for that URL, in the same order, whatever
    the calls for the other URLs they are interleaved with. *)
Lemma inner_process_projection (i : nat) (sched : Schedule)
    (sitemap : WebsiteSitemap) (w : World) :
  1 ≤ processPool cliArgs →
  ∃ evs,
    trace (inner_process backend cliArgs website i sched sitemap w).2
    = trace w ++ evs
    ∧ ∀ j url, urls sitemap !! j = Some url →
        filter (λ e, e.1 = OPage i j) evs
        = page_events backend cliArgs website outDir i j url.
Proof.
  intros Hn.
  destruct (inner_process_spec backend cliArgs website i sched sitemap w Hn)
    as (Hd & _ & Hfin & _).
  unfold inner_process, process in *.
  set (p0 := inner_pool cliArgs sitemap) in *. set (fuel := pool_cost _ _ p0) in *.
  pose proof (inner_pool_wf backend cliArgs i sitemap Hn) as Hwf0. fold p0 in Hwf0.
  destruct (run_ticks_projection (page_spawn i) pstep page_settled (pwf i) phist
              page_origin
              (inner_wf_advance backend cliArgs website i)
              (λ c t w, f_equal2 OPage
                 (proj1 (page_step_ids backend cliArgs website outDir t w))
                 (proj1 (proj2 (page_step_ids backend cliArgs website outDir t w))))
              (page_step_exact i)
              fuel sched p0 w [] Hwf0) as (evs & Htr & Hall).
  { unfold p0, pool_tasks, live, inner_pool, new_pool. simpl.
    rewrite <- list_fmap_compose.
    apply (NoDup_fmap_2_strong _ (indexed (urls sitemap))).
    - intros [j1 u1] [j2 u2] H1 H2 Heq. simpl in Heq. injection Heq as ->.
      unfold indexed in H1, H2.
      apply list_elem_of_lookup in H1 as [k1 H1], H2 as [k2 H2].
      apply list_lookup_imap_Some in H1 as (? & ? & ?), H2 as (? & ? & ?).
      by simplify_eq.
    - apply (NoDup_fmap_1 fst). rewrite indexed_fst. apply NoDup_seq. }
  { unfold p0, pool_tasks, live, inner_pool, new_pool. simpl.
    apply Forall_fmap, Forall_forall. by intros [j url] _. }
  exists evs. split; [done|]. intros j url Hj.
  rewrite (drained_tasks _ _ Hd), Hfin in Hall. simpl in Hall.
  rewrite Forall_fmap, Forall_forall in Hall.
  apply (Hall (j, url)).
  unfold indexed. apply list_elem_of_lookup. exists j.
  rewrite list_lookup_imap, Hj. done.
Qed.

End PageProjection.

(** *** The sitemaps the outer pool starts *)

Lemma imap_shift {A} (i : nat) (l : list A) :
  imap ((λ k x, (i + k, x)) ∘ S) l = imap (λ k x, (S i + k, x)) l.
Proof. apply imap_ext. intros k x _. simpl. f_equal. lia. Qed.

Section StartedFacts.
Context `{Helpers}.
Variable backend : Backend.
Variable cliArgs : ICliArguments.
Variable website : Website.

Local Abbreviation started := (started_sitemaps backend cliArgs website).
Local Abbreviation stops := (sitemap_stops backend cliArgs).

Lemma started_from_valid (i : nat) (l : list WebsiteSitemap) :
  valid_concurrency (processPool cliArgs) = true →
  started_from backend cliArgs i l = l.
Proof.
  intros Hv. revert i. induction l as [|sm l IH]; intros i; simpl; [done|].
  unfold sitemap_stops. rewrite Hv, andb_false_r. by rewrite IH.
Qed.

(** With a valid concurrency the outer pool starts every sitemap. *)
Lemma started_valid :
  valid_concurrency (processPool cliArgs) = true → started = sitemaps website.
Proof. apply started_from_valid. Qed.

Lemma started_from_prefix (i : nat) (l : list WebsiteSitemap) :
  started_from backend cliArgs i l `prefix_of` l.
Proof.
  revert i. induction l as [|sm l IH]; intros i; simpl; [done|].
  apply prefix_cons. destruct (stops i sm); [apply prefix_nil | apply IH].
Qed.

Lemma started_prefix : started `prefix_of` sitemaps website.
Proof. apply started_from_prefix. Qed.

Lemma started_lookup (i : nat) (sitemap : WebsiteSitemap) :
  started !! i = Some sitemap → sitemaps website !! i = Some sitemap.
Proof. intros Hi. by eapply prefix_lookup_Some, started_prefix. Qed.

(** A sitemap is started when no sitemap before it stops the pool. *)
Lemma started_from_length (n i : nat) (l : list WebsiteSitemap) :
  i < length (started_from backend cliArgs n l)
  ↔ i < length l
    ∧ ∀ k sm, k < i → l !! k = Some sm → stops (n + k) sm = false.
Proof.
  revert n i. induction l as [|sm l IH]; intros n i; simpl; [lia|].
  destruct i as [|i].
  - split; [|lia]. intros _. split; [lia|]. intros k sm' Hk. lia.
  - destruct (stops n sm) eqn:Hs; simpl.
    + split; [lia|]. intros [_ Hall].
      specialize (Hall 0 sm ltac:(lia) eq_refl).
      rewrite Nat.add_0_r in Hall. congruence.
    + rewrite <- Nat.succ_lt_mono, (IH (S n) i), <- Nat.succ_lt_mono.
      apply and_iff_compat_l. split.
      * intros Hall [|k] sm' Hk Hl; simpl in Hl.
        -- rewrite Nat.add_0_r. congruence.
        -- rewrite Nat.add_succ_r. apply (Hall k sm'); [lia | done].
      * intros Hall k sm' Hk Hl.
        specialize (Hall (S k) sm' ltac:(lia) Hl).
        by rewrite Nat.add_succ_r in Hall.
Qed.

Lemma started_length (i : nat) :
  i < length started
  ↔ i < length (sitemaps website)
    ∧ ∀ k sm, k < i → sitemaps website !! k = Some sm → stops k sm = false.
Proof. apply (started_from_length 0). Qed.

Lemma started_nonempty :
  length (sitemaps website) ≠ 0 → length started ≠ 0.
Proof.
  unfold started_sitemaps. by destruct (sitemaps website).
Qed.

(** The pool is stopped by the first sitemap whose handler stops it, which
    is the last one it starts. *)
Lemma started_from_stops (i : nat) (l : list WebsiteSitemap) :
  Exists (λ ix, stops ix.1 ix.2 = true)
    (imap (λ k x, (i + k, x)) (started_from backend cliArgs i l))
  ↔ Exists (λ ix, stops ix.1 ix.2 = true) (imap (λ k x, (i + k, x)) l).
Proof.
  revert i. induction l as [|sm l IH]; intros i; [done|].
  cbn [started_from]. rewrite (imap_cons _ sm l), imap_shift.
  destruct (stops i sm) eqn:Hs.
  - rewrite (imap_cons _ sm []). simpl. rewrite Nat.add_0_r, !Exists_cons. simpl.
    rewrite Exists_nil. tauto.
  - rewrite (imap_cons _ sm (started_from _ _ _ _)), imap_shift.
    rewrite !Exists_cons, (IH (S i)). done.
Qed.

Lemma started_stops :
  Exists (λ ix, stops ix.1 ix.2 = true) (indexed started)
  ↔ Exists (λ ix, stops ix.1 ix.2 = true) (indexed (sitemaps website)).
Proof. apply (started_from_stops 0). Qed.

Lemma sitemap_stops_settlement (i : nat) (sitemap : WebsiteSitemap) :
  sitemap_settlement backend cliArgs i sitemap = Rejected ValidationError
  ↔ stops i sitemap = true.
Proof.
  unfold sitemap_settlement, sitemap_stops.
  destruct (bool_decide _), (outputDir_ok backend i),
    (valid_concurrency (processPool cliArgs)); simpl; split; done.
Qed.

Lemma sitemap_runs_invalid (i : nat) (sitemap : WebsiteSitemap) :
  valid_concurrency (processPool cliArgs) = false →
  sitemap_runs backend cliArgs i sitemap = false.
Proof. intros Hv. unfold sitemap_runs. by rewrite Hv, andb_false_r. Qed.

(** The calls of a sitemap do not depend on which sitemaps are started. *)
Lemma run_events_started :
  run_events backend cliArgs (started_website backend cliArgs website)
  = started_events backend cliArgs website.
Proof. reflexivity. Qed.

Lemma started_website_valid :
  valid_concurrency (processPool cliArgs) = true →
  started_website backend cliArgs website = website.
Proof.
  intros Hv. unfold started_website. rewrite started_valid by done.
  by destruct website.
Qed.

Lemma started_events_valid :
  valid_concurrency (processPool cliArgs) = true →
  started_events backend cliArgs website = run_events backend cliArgs website.
Proof. intros Hv. unfold started_events, run_events. by rewrite started_valid. Qed.

(** When the concurrency is refused, a started sitemap makes the one call
    of [processSitemap] itself. *)
Lemma started_events_invalid :
  valid_concurrency (processPool cliArgs) = false →
  started_events backend cliArgs website
  = indexed started ≫= λ ix, sitemap_prologue backend cliArgs website ix.1 ix.2.
Proof.
  intros Hv. unfold started_events. apply list_bind_ext; [|done].
  intros [i sm]. unfold sitemap_events. simpl.
  by rewrite sitemap_runs_invalid, app_nil_r.
Qed.

Lemma stored_started_events :
  stored (started_events backend cliArgs website)
  = run_recorded backend cliArgs website.
Proof.
  destruct (valid_concurrency (processPool cliArgs)) eqn:Hv.
  { rewrite started_events_valid by done. apply stored_run_events. }
  assert (Hnone : ∀ l : list (nat * WebsiteSitemap),
            l ≫= (λ ix, sitemap_recorded backend cliArgs ix.1 ix.2) = []).
  { intros l. induction l as [|[i sm] l IH]; csimpl; [done|].
    rewrite IH. unfold sitemap_recorded. by rewrite sitemap_runs_invalid. }
  unfold started_events, run_recorded. rewrite stored_bind, (Hnone (indexed _)).
  erewrite list_bind_ext; [apply (Hnone (indexed started)) | | done].
  intros [i sm]. apply stored_sitemap_events.
Qed.

(** The handlers of the outer pool settle as their own answers say. *)
Lemma outer_process_settlements (sched : Schedule) (w : World) :
  sitemap_result <$> finished (outer_process backend cliArgs website sched w).1
  ≡ₚ (λ ix, sitemap_settlement backend cliArgs ix.1 ix.2)
       <$> indexed (sitemaps website).
Proof.
  unfold outer_process, process.
  set (p0 := outer_pool website). set (fuel := pool_cost _ _ p0).
  pose proof (outer_pool_wf backend cliArgs website) as Hwf0. fold p0 in Hwf0.
  pose proof (run_ticks_wf sitemap_spawn (sitemap_step backend cliArgs website)
                sitemap_settled (sitemap_wf backend cliArgs)
                (sitemap_step_wf backend cliArgs website)
                fuel sched p0 w Hwf0) as Hwf.
  pose proof (run_ticks_drained sitemap_spawn (sitemap_step backend cliArgs website)
                sitemap_settled sitemap_cost (sitemap_wf backend cliArgs)
                (sitemap_step_wf backend cliArgs website)
                (sitemap_step_cost backend cliArgs website)
                fuel sched p0 w Hwf0 (Nat.le_refl _)) as Hd.
  pose proof (run_ticks_origin sitemap_spawn (sitemap_step backend cliArgs website)
                sitemap_settled (sitemap_wf backend cliArgs)
                (sitemap_step_wf backend cliArgs website)
                sitemap_item (sitemap_step_item backend cliArgs website)
                fuel sched p0 w Hwf0) as Ho.
  destruct (run_ticks sitemap_spawn (sitemap_step backend cliArgs website)
              sitemap_settled fuel sched p0 w) as [p' w']. simpl in *.
  rewrite (drained_tasks _ p' Hd) in Ho.
  unfold p0, outer_pool in Ho.
  rewrite (new_pool_origin sitemap_spawn sitemap_item (λ _ _, eq_refl)) in Ho.
  rewrite <- Ho, <- list_fmap_compose.
  destruct Hwf as (_ & _ & Hfin & _).
  apply reflexive_eq, Forall_fmap_ext_1.
  eapply Forall_impl; [exact Hfin|]. intros [i sm pc] [Hwft Hst].
  unfold sitemap_wf, sitemap_settled, sitemap_result in *. simpl in *.
  destruct pc as [|p|r fin]; simpl in *; [done|done|]. by destruct Hwft.
Qed.

End StartedFacts.

Section PoolRun.
Context `{Helpers}.
Variable backend : Backend.
Variable cliArgs : ICliArguments.
Variable website : Website.

(** [process] of the outer pool rejects exactly when a sitemap stops
    it. *)
Lemma pool_run_settlement (sched : Schedule) (w : World) :
  (pool_run backend cliArgs website sched w).1
  = if pool_stops backend cliArgs website
    then Rejected ValidationError else Fulfilled.
Proof.
  unfold pool_run, pool_settlement, pool_stops. simpl.
  apply (f_equal (λ b : bool, if b then Rejected ValidationError else Fulfilled)).
  apply bool_decide_ext.
  rewrite (outer_process_settlements backend cliArgs
             (started_website backend cliArgs website) sched w).
  rewrite <- (started_stops backend cliArgs website), Exists_exists,
    list_elem_of_fmap.
  simpl. split.
  - intros ([i sm] & Heq & Hin). exists (i, sm). split; [done|].
    by apply sitemap_stops_settlement.
  - intros ([i sm] & Hin & Hs). exists (i, sm). split; [|done].
    symmetry. by apply sitemap_stops_settlement.
Qed.

(** The pool is stopped exactly when the concurrency of the inner pool
    is refused and some sitemap has URLs and a directory to print to. *)
Lemma pool_stops_spec :
  pool_stops backend cliArgs website = true
  ↔ processPool cliArgs < 1
    ∧ ∃ i sitemap, sitemaps website !! i = Some sitemap
                   ∧ length (urls sitemap) ≠ 0
                   ∧ outputDir_ok backend i = true.
Proof.
  unfold pool_stops. rewrite bool_decide_eq_true, Exists_exists. split.
  - intros ([i sm] & Hin & Hstop). simpl in Hstop.
    unfold indexed in Hin. apply list_elem_of_lookup in Hin as [k Hk].
    apply list_lookup_imap_Some in Hk as (sm' & Hk & Heq). simplify_eq.
    unfold sitemap_stops, valid_concurrency in Hstop.
    apply andb_true_iff in Hstop as [Hstop Hv].
    apply andb_true_iff in Hstop as [Hu Hok].
    apply bool_decide_eq_true in Hu. apply negb_true_iff in Hv.
    apply bool_decide_eq_false in Hv.
    split; [lia|]. by exists k, sm'.
  - intros (Hn & i & sm & Hi & Hu & Hok). exists (i, sm). split.
    + unfold indexed. apply list_elem_of_lookup. exists i.
      by rewrite list_lookup_imap, Hi.
    + simpl. unfold sitemap_stops, valid_concurrency.
      rewrite Hok, bool_decide_true, bool_decide_false by (done || lia). done.
Qed.

End PoolRun.

(** ** [main] *)

Section MainFacts.
Context `{Helpers}.
Variable backend : Backend.
Variable cliArgs : ICliArguments.
Variable website : Website.

(** A run: the calls before the pools, those of the pools, sitemap after
    sitemap, and the final report; the outcome collection grows by what
    the pool handlers store. *)
Lemma main_spec (sched : Schedule) (w : World) :
  let w' := (main backend cliArgs website sched w).2 in
  ∃ evs,
    trace w' = trace w ++ run_prologue backend website ++ evs
               ++ run_epilogue backend website (results w')
    ∧ results w' = results w ++ stored evs
    ∧ dirs w' = dirs w ∪ made evs
    ∧ Forall from_pool evs
    ∧ evs ≡ₚ (if pools_run backend website
              then started_events backend cliArgs website else [])
    ∧ StronglySorted le (omap event_sitemap evs).
Proof.
  unfold main, processSitemaps, browser_chain, pool_run, run_prologue,
    run_epilogue, pools_run.
  case_bool_decide as Hs; simpl.
  2:{ exists []. unfold made. simpl. rewrite !app_nil_r.
      split_and!; try done; [set_solver | constructor]. }
  destruct (launch_ok backend); simpl.
  2:{ exists []. unfold made. simpl. rewrite !app_nil_r.
      split_and!; try done; [set_solver | constructor]. }
  destruct (version_ok backend); simpl.
  2:{ exists []. unfold made. simpl. rewrite !app_nil_r, <- !app_assoc.
      split_and!; try done; [set_solver | constructor]. }
  destruct (context_ok backend); simpl.
  2:{ exists []. unfold made. simpl. rewrite !app_nil_r, <- !app_assoc.
      split_and!; try done; [set_solver | constructor]. }
  set (w1 := emit OMain (ANewContext true) _).
  set (site := started_website backend cliArgs website).
  destruct (outer_process_spec backend cliArgs site sched w1)
    as (evs & (Htr & Hr & Hd & Hp) & Hperm).
  destruct (outer_process_serial backend cliArgs site sched w1)
    as (evs' & Htr' & Hsorted).
  assert (evs' = evs) as -> by (rewrite Htr in Htr'; by simplify_list_eq).
  exists evs. rewrite Htr, Hr, Hd. unfold w1. simpl.
  rewrite <- !app_assoc. done.
Qed.

(** How the promise of [main] settles. *)
Lemma main_result (sched : Schedule) (w : World) :
  (main backend cliArgs website sched w).1
  = if bool_decide (length (sitemaps website) ≠ 0)
    then if launch_ok backend
         then if version_ok backend
              then if context_ok backend
                   then if pool_stops backend cliArgs website
                        then Rejected ValidationError
                        else Fulfilled
                   else Rejected ContextError
              else Rejected VersionError
         else Rejected LaunchError
    else Fulfilled.
Proof.
  unfold main, processSitemaps, browser_chain.
  destruct (bool_decide _); [|done].
  destruct (launch_ok backend); [|done].
  destruct (version_ok backend); [|done].
  destruct (context_ok backend); [|done].
  set (w1 := emit OMain (ANewContext true) _).
  rewrite <- (pool_run_settlement backend cliArgs website sched w1).
  by destruct (pool_run backend cliArgs website sched w1).
Qed.

End MainFacts.

(** ** Directories at the end of a run *)

(** The directories made by a sequence of calls are those of its calls of
    [fs.ensureDir] that fulfilled, and the directories above them. *)
Lemma made_spec `{Helpers} (evs : list Event) (dir : string) :
  dir ∈ made evs ↔ ∃ o d, (o, AEnsureDir d true) ∈ evs ∧ dir ∈ ensured d.
Proof.
  unfold made. rewrite elem_of_list_to_set, list_elem_of_bind. split.
  - intros ([o a] & Hin & He). simpl in Hin.
    destruct a as [| | | | d [|] | | | | | | | |];
      try (by apply elem_of_nil in Hin).
    by exists o, d.
  - intros (o & d & Hin & Hd). by exists (o, AEnsureDir d true).
Qed.

Section Directories.
Context `{Helpers}.
Variable backend : Backend.
Variable cliArgs : ICliArguments.
Variable website : Website.

Local Abbreviation outDir := (normalized_outputDir cliArgs).

(** A navigation is among the calls of a URL only after the directory of
    that URL was created. *)
Lemma page_goto_needs_dir (dir : string) (i j : nat) (url url' : URL)
    (o : Origin) (ok : bool) :
  (o, AGoto url' ok) ∈ page_events backend cliArgs website dir i j url →
  (o, AEnsureDir (fileDir dir url') true)
    ∈ page_events backend cliArgs website dir i j url.
Proof.
  unfold page_events, page_final, page_hist, page_settlement. simpl.
  set (b := behaviour backend i j).
  destruct (newPage_ok b), (ensureDir_ok b), (goto_ok b), (meta_elements b),
    (pdf_ok b); simpl;
    rewrite ?elem_of_cons, ?elem_of_nil; intros Hin;
    destruct_or?; simplify_eq; auto 10.
Qed.

Lemma run_goto_needs_dir (o : Origin) (url : URL) (ok : bool) :
  (o, AGoto url ok) ∈ started_events backend cliArgs website →
  (o, AEnsureDir (fileDir outDir url) true)
    ∈ started_events backend cliArgs website.
Proof.
  unfold started_events. rewrite !list_elem_of_bind.
  intros ([i sitemap] & Hin & Hix). exists (i, sitemap). split; [|done].
  revert Hin. unfold sitemap_events. simpl. rewrite !elem_of_app.
  intros [Hin|Hin].
  - unfold sitemap_prologue in Hin. case_bool_decide;
      rewrite ?elem_of_cons, ?elem_of_nil in Hin; destruct_or?; simplify_eq.
  - right. destruct (sitemap_runs _ _ _ _); [|by rewrite elem_of_nil in Hin].
    revert Hin. rewrite !list_elem_of_bind.
    intros ([j url'] & Hin & Hjx). exists (j, url'). split; [|done].
    by apply page_goto_needs_dir in Hin.
Qed.

(** Whenever a run has navigated, or tried to navigate, to a URL, the
    directory of that URL is on disk when the run ends. *)
Lemma run_directory_on_disk (sched : Schedule) (w : World) (o : Origin)
    (url : URL) (ok : bool) :
  let w' := (main backend cliArgs website sched w).2 in
  (o, AGoto url ok) ∈ drop (length (trace w)) (trace w') →
  fileDir outDir url ∈ dirs w'.
Proof.
  intros w'.
  destruct (main_spec backend cliArgs website sched w)
    as (evs & Htr & _ & Hd & _ & Hperm & _).
  fold w' in Htr, Hd. rewrite Htr, Hd, drop_app_length, !elem_of_app.
  intros [Hin|[Hin|Hin]].
  - unfold run_prologue in Hin.
    repeat (case_bool_decide || case_match);
      rewrite ?elem_of_cons, ?elem_of_nil in Hin; destruct_or?; simplify_eq.
  - rewrite elem_of_union, made_spec. right.
    exists o, (fileDir outDir url). split; [|by left].
    rewrite Hperm in Hin |- *.
    destruct (pools_run _ _); [|by rewrite elem_of_nil in Hin].
    exact (run_goto_needs_dir o url ok Hin).
  - unfold run_epilogue in Hin. case_match;
      rewrite ?elem_of_cons, ?elem_of_nil in Hin; destruct_or?; simplify_eq.
Qed.

End Directories.

(** * The claims *)

Lemma set_metas_snoc (elements : list (JsString * JsString))
    (el : JsString * JsString) (m : Metadata) :
  set_metas (eval_metas (elements ++ [el])) m
  = match el.1 with
    | Some n => if truthy el.1
                then <[n := el.2]> (set_metas (eval_metas elements) m)
                else set_metas (eval_metas elements) m
    | None => set_metas (eval_metas elements) m
    end.
Proof.
  unfold set_metas, eval_metas. rewrite map_app, foldl_app. simpl.
  destruct el as [[n|] c]; simpl; [|done].
  unfold truthy. by destruct (negb _).
Qed.

Lemma named_snoc (n : string) (elements : list (JsString * JsString))
    (el : JsString * JsString) :
  named n (elements ++ [el])
  = named n elements ++ (if bool_decide (el.1 = Some n) then [el.2] else []).
Proof.
  unfold named. rewrite omap_app. simpl. by destruct (bool_decide _).
Qed.

Lemma truthy_spec (n : string) : truthy (Some n) = true ↔ n ≠ EmptyString.
Proof.
  unfold truthy. rewrite negb_true_iff. split.
  - intros He ->. by rewrite String.eqb_refl in He.
  - intros Hn. by apply String.eqb_neq.
Qed.

(** After the [forEach] of lines 242-244 a name holds the content of the
    last [meta] element that bears it; a name no element bears keeps what
    the map held, and the empty name is never written. *)
Lemma set_metas_lookup (elements : list (JsString * JsString)) (m : Metadata)
    (n : string) :
  set_metas (eval_metas elements) m !! n
  = if bool_decide (n = EmptyString) then m !! n
    else match last (named n elements) with
         | Some c => Some c
         | None => m !! n
         end.
Proof.
  induction elements as [|el elements IH] using rev_ind.
  { simpl. by case_bool_decide. }
  rewrite set_metas_snoc, named_snoc.
  destruct el as [[n'|] c]; cbn [fst snd].
  - destruct (truthy (Some n')) eqn:Ht.
    + apply truthy_spec in Ht.
      destruct (decide (n' = n)) as [->|Hne].
      * rewrite lookup_insert_eq, bool_decide_false, bool_decide_true by done.
        by rewrite last_snoc.
      * rewrite lookup_insert_ne, IH by done.
        rewrite (bool_decide_false (Some n' = Some n)) by congruence.
        by rewrite app_nil_r.
    + apply not_true_iff_false in Ht. rewrite truthy_spec in Ht.
      apply dec_stable in Ht. subst n'. rewrite IH.
      case_bool_decide as Hn; [done|].
      rewrite (bool_decide_false (Some EmptyString = Some n)) by congruence.
      by rewrite app_nil_r.
  - rewrite IH, (bool_decide_false (None = Some n)) by done.
    by rewrite app_nil_r.
Qed.

Section Claims.
Context `{Helpers}.
Variable backend : Backend.
Variable cliArgs : ICliArguments.
Variable website : Website.

Local Abbreviation outDir := (normalized_outputDir cliArgs).

Lemma page_recorded_length (dir : string) (i j : nat) (url : URL) :
  length (page_recorded backend cliArgs dir i j url)
  = if reaches_render (behaviour backend i j) then 1 else 0.
Proof. unfold page_recorded. by destruct (reaches_render _). Qed.

Lemma page_settlement_fulfilled (b : PageBehaviour) :
  page_settlement b = Fulfilled ↔ reaches_render b && pdf_ok b = true.
Proof.
  unfold page_settlement, reaches_render.
  destruct (newPage_ok b), (ensureDir_ok b), (goto_ok b),
    (meta_elements b), (pdf_ok b); simpl; split; done.
Qed.

(** C1 (amended).  For every URL handed to [pageToPDF]: the promise
    fulfils exactly when the PDF is written, and then an outcome PRINTED
    with the final file path is recorded; when [page.pdf] is called and
    fails, an outcome ERRORED with that same file path is recorded; when
    one of the calls before it fails ([newPage], [fs.ensureDir] of the
    directory of the URL, [page.goto], the [$$eval] query of the [meta]
    elements) no outcome is recorded.  A failure of one of these five
    calls goes to the pool slot of its URL only: the inner pool settles
    every URL of the sitemap the way its own answers say.  The unawaited
    [page.title()] is not one of these calls: nothing is said of a
    rejection of it. *)
Theorem C1_page_outcome (dir : string) (i j : nat) (url : URL) (w : World)
    (sched : Schedule) (sitemap : WebsiteSitemap) (w0 : World) :
  1 ≤ processPool cliArgs →
  let b := behaviour backend i j in
  let rw := pageToPDF backend cliArgs website dir i j url w in
  rw.1 = page_settlement b
  ∧ (rw.1 = Fulfilled ↔ reaches_render b && pdf_ok b = true)
  ∧ results rw.2
    = results w
      ++ (if reaches_render b
          then [{| oc_url := url;
                   oc_filePath := filePath cliArgs dir url (page_metadata b);
                   oc_status := if pdf_ok b then STATUS_PRINTED
                                else STATUS_ERROR |}]
          else [])
  ∧ finished (inner_process backend cliArgs website i sched sitemap w0).1
    ≡ₚ (λ jx, page_final backend i jx.1 jx.2) <$> indexed (urls sitemap).
Proof.
  intros Hn b rw.
  destruct (pageToPDF_spec backend cliArgs website dir i j url w)
    as (Hr & _ & Hres & _).
  fold rw in Hr, Hres. fold b in Hr.
  split_and!.
  - done.
  - rewrite Hr. apply page_settlement_fulfilled.
  - rewrite Hres, stored_page_events. unfold page_recorded. by fold b.
  - by destruct (inner_process_spec backend cliArgs website i sched sitemap w0 Hn)
      as (_ & _ & ? & _).
Qed.

Lemma bind_length_le {A B} (f : A → list B) (l : list A) :
  (∀ x, length (f x) ≤ 1) → length (l ≫= f) ≤ length l.
Proof.
  intros Hf. induction l as [|x l IH]; csimpl; [done|].
  rewrite length_app. specialize (Hf x). lia.
Qed.

Lemma indexed_length {A} (l : list A) : length (indexed l) = length l.
Proof. unfold indexed. apply length_imap. Qed.

Lemma sitemap_recorded_length (i : nat) (sitemap : WebsiteSitemap) :
  length (sitemap_recorded backend cliArgs i sitemap) ≤ length (urls sitemap).
Proof.
  unfold sitemap_recorded. destruct (sitemap_runs _ _ _ _); simpl; [|lia].
  rewrite <- (indexed_length (urls sitemap)). apply bind_length_le.
  intros [j url]. rewrite page_recorded_length. destruct (reaches_render _); lia.
Qed.

Lemma run_recorded_length :
  length (run_recorded backend cliArgs website) ≤ length (run_urls website).
Proof.
  unfold run_recorded, run_urls, indexed.
  assert (Hgen : ∀ (l : list WebsiteSitemap) (f : nat → nat),
             length (imap (λ i x, (f i, x)) l
                       ≫= λ ix, sitemap_recorded backend cliArgs ix.1 ix.2)
             ≤ length (l ≫= urls)).
  { induction l as [|sm l IH]; intros f; [done|].
    rewrite imap_cons, !bind_cons, !length_app. simpl.
    pose proof (sitemap_recorded_length (f 0) sm).
    specialize (IH (λ i, f (S i))). unfold compose. lia. }
  apply (Hgen _ id).
Qed.

(** C2 (amended).  After a run, the outcome collection has grown by the
    outcomes of the URLs handed to [pageToPDF], in some order: at most
    one per URL, exactly one for a URL for which [page.pdf] was called
    and none for a URL that failed at an earlier step.  Its growth is
    therefore the number of URLs that reached the PDF step, which is at
    most the total number of URLs of the sitemaps. *)
Theorem C2_outcome_collection (sched : Schedule) (w : World) :
  ∃ new,
    results (main backend cliArgs website sched w).2 = results w ++ new
    ∧ new ≡ₚ (if pools_run backend website
              then run_recorded backend cliArgs website else [])
    ∧ length new ≤ length (run_urls website)
    ∧ ∀ i sitemap,
        sitemap_recorded backend cliArgs i sitemap
        = if sitemap_runs backend cliArgs i sitemap
          then indexed (urls sitemap) ≫= λ jx,
                 if reaches_render (behaviour backend i jx.1)
                 then [{| oc_url := jx.2;
                          oc_filePath :=
                            filePath cliArgs outDir jx.2
                              (page_metadata (behaviour backend i jx.1));
                          oc_status :=
                            if pdf_ok (behaviour backend i jx.1)
                            then STATUS_PRINTED else STATUS_ERROR |}]
                 else []
          else [].
Proof.
  destruct (main_spec backend cliArgs website sched w)
    as (evs & _ & Hres & _ & _ & Hperm & _).
  exists (stored evs). split_and!.
  - done.
  - unfold stored. rewrite Hperm. destruct (pools_run _ _); [|done].
    apply reflexive_eq, stored_started_events.
  - unfold stored. rewrite Hperm. destruct (pools_run _ _); simpl; [|lia].
    fold (stored (started_events backend cliArgs website)).
    rewrite stored_started_events. apply run_recorded_length.
  - intros i sitemap. unfold sitemap_recorded, page_recorded. done.
Qed.

(** C3.  In every sitemap, whatever fails for one URL, the render of its
    PDF included, the inner pool goes on until it has drained: every URL
    of the sitemap is handled, once (there is no retry), each settles the
    way its own answers say, the calls made for a URL are those of
    [pageToPDF] run on its own, in the same order, and the outcomes
    recorded are those of the URLs, each as its own answers say. *)
Theorem C3_failures_do_not_stop_siblings (i : nat) (sched : Schedule)
    (sitemap : WebsiteSitemap) (w : World) :
  1 ≤ processPool cliArgs →
  let pw := inner_process backend cliArgs website i sched sitemap w in
  drained pw.1 = true
  ∧ page_item <$> finished pw.1 ≡ₚ indexed (urls sitemap)
  ∧ Forall (λ t, pt_pc t
                 = PageSettled (page_settlement (behaviour backend i (pt_index t))))
      (finished pw.1)
  ∧ ∃ evs,
      trace pw.2 = trace w ++ evs
      ∧ evs ≡ₚ indexed (urls sitemap)
               ≫= (λ jx, page_events backend cliArgs website outDir i jx.1 jx.2)
      ∧ (∀ j url, urls sitemap !! j = Some url →
           filter (λ e, e.1 = OPage i j) evs
           = page_events backend cliArgs website outDir i j url)
      ∧ results pw.2 = results w ++ stored evs
      ∧ stored evs
        ≡ₚ indexed (urls sitemap)
           ≫= (λ jx, page_recorded backend cliArgs outDir i jx.1 jx.2).
Proof.
  intros Hn pw.
  destruct (inner_process_spec backend cliArgs website i sched sitemap w Hn)
    as (Hd & _ & Hfin & evs & (Htr & Hres & _) & Hperm).
  destruct (inner_process_projection backend cliArgs website i sched sitemap w Hn)
    as (evs' & Htr' & Hproj).
  assert (evs' = evs) as -> by (rewrite Htr in Htr'; by simplify_list_eq).
  fold pw in Hd, Hfin, Htr, Hres.
  split_and!.
  - done.
  - rewrite Hfin, <- list_fmap_compose.
    rewrite <- (list_fmap_id (indexed (urls sitemap))) at 2.
    apply reflexive_eq, list_fmap_ext. by intros ? [j url] ?.
  - rewrite Hfin. apply Forall_fmap, Forall_forall. by intros [j url] _.
  - exists evs. split_and!; [done | done | done | done |].
    unfold stored. rewrite Hperm. fold (stored (indexed (urls sitemap) ≫=
      λ jx, page_events backend cliArgs website outDir i jx.1 jx.2)).
    rewrite stored_bind. apply reflexive_eq, list_bind_ext; [|done].
    intros [j url]. apply stored_page_events.
Qed.

Lemma main_events_no_sitemap (evs : list Event) :
  Forall (λ e, e.1 = OMain) evs → omap event_sitemap evs = [].
Proof.
  induction 1 as [|e evs He _ IH]; csimpl; [done|].
  unfold event_sitemap at 1. by rewrite He.
Qed.

Lemma run_prologue_main : Forall (λ e, e.1 = OMain) (run_prologue backend website).
Proof.
  unfold run_prologue.
  repeat (case_bool_decide || case_match); by repeat constructor.
Qed.

Lemma run_epilogue_main (store : list ConversionOutcome) :
  Forall (λ e, e.1 = OMain) (run_epilogue backend website store).
Proof. unfold run_epilogue. case_match; by repeat constructor. Qed.

(** C4.  The outer pool has concurrency 1: at no instant is more than one
    sitemap being handled, and in the calls of a run those made for the
    URLs of one sitemap all come before those made for the URLs of any
    later sitemap. *)
Theorem C4_sitemaps_serialized (sched : Schedule) (w : World) :
  concurrency (outer_pool website) = 1
  ∧ (∀ turns,
       length (active (run_ticks sitemap_spawn
                         (sitemap_step backend cliArgs website)
                         sitemap_settled turns sched (outer_pool website) w).1)
       ≤ 1)
  ∧ ∃ evs,
      trace (main backend cliArgs website sched w).2 = trace w ++ evs
      ∧ StronglySorted le (omap event_sitemap evs).
Proof.
  split_and!.
  - done.
  - intros turns.
    pose proof (run_ticks_wf sitemap_spawn (sitemap_step backend cliArgs website)
                  sitemap_settled (sitemap_wf backend cliArgs)
                  (sitemap_step_wf backend cliArgs website)
                  turns sched (outer_pool website) w
                  (outer_pool_wf backend cliArgs website)) as (_ & Hlen & _).
    rewrite (run_ticks_concurrency sitemap_spawn
               (sitemap_step backend cliArgs website)
               sitemap_settled (sitemap_wf backend cliArgs)
               (sitemap_step_wf backend cliArgs website)) in Hlen
      by apply outer_pool_wf.
    done.
  - destruct (main_spec backend cliArgs website sched w)
      as (evs & Htr & _ & _ & _ & _ & Hsorted).
    eexists. split; [exact Htr|].
    rewrite !omap_app.
    rewrite (main_events_no_sitemap _ run_prologue_main).
    rewrite (main_events_no_sitemap _ (run_epilogue_main _)).
    by rewrite app_nil_r.
Qed.

(** The inner pool of a sitemap runs with the configured concurrency,
    whose default is 10.  At every instant the URL conversions in flight
    are at most that many, and so are the page contexts they hold: the
    page contexts open are those of the conversions in flight and those
    left open by conversions that have settled.  When the pool has
    drained, every URL has been handled, once. *)
Lemma inner_pool_bound (i turns : nat) (sched : Schedule)
    (sitemap : WebsiteSitemap) (w : World) :
  1 ≤ processPool cliArgs →
  let pw := inner_run backend cliArgs website i turns sched sitemap w in
  DEFAULT_PROCESS_POOL = 10
  ∧ concurrency (inner_pool cliArgs sitemap) = processPool cliArgs
  ∧ length (active pw.1) ≤ processPool cliArgs
  ∧ pages_in_flight pw.1 ≤ processPool cliArgs
  ∧ (∃ evs, trace pw.2 = trace w ++ evs
            ∧ open_pages evs = pages_in_flight pw.1 + pages_leaked pw.1)
  ∧ page_item
      <$> finished (inner_process backend cliArgs website i sched sitemap w).1
    ≡ₚ indexed (urls sitemap).
Proof.
  intros Hn pw.
  destruct (inner_run_spec backend cliArgs website i turns sched sitemap w Hn)
    as (Hlen & evs & (Htr & _) & Hpages).
  fold pw in Hlen, Htr, Hpages.
  split_and!; try done.
  - unfold pages_in_flight. etrans; [apply length_filter | done].
  - by exists evs.
  - destruct (inner_process_spec backend cliArgs website i sched sitemap w Hn)
      as (_ & _ & Hfin & _).
    rewrite Hfin, <- list_fmap_compose.
    rewrite <- (list_fmap_id (indexed (urls sitemap))) at 2.
    apply reflexive_eq, list_fmap_ext. by intros ? [j url] ?.
Qed.

(** Without a sitemap, or without a browser, a run makes no report. *)
Lemma no_report_without_browser (sched : Schedule) (w : World) :
  length (sitemaps website) = 0 ∨ launch_ok backend = false →
  let w' := (main backend cliArgs website sched w).2 in
  ∃ evs, trace w' = trace w ++ evs ∧ count is_print evs = 0.
Proof.
  intros Hno w'.
  destruct (main_spec backend cliArgs website sched w)
    as (evs & Htr & _ & _ & _ & Hperm & _).
  fold w' in Htr.
  assert (pools_run backend website = false) as Hp.
  { unfold pools_run. destruct Hno as [Hs| ->].
    - by rewrite bool_decide_false by lia.
    - by rewrite andb_false_r. }
  rewrite Hp in Hperm. apply Permutation_nil_r in Hperm. subst evs.
  assert (run_epilogue backend website (results w') = []) as He.
  { unfold run_epilogue. destruct Hno as [Hs| ->].
    - by rewrite bool_decide_false by lia.
    - by rewrite andb_false_r. }
  rewrite He in Htr. simpl in Htr. rewrite app_nil_r in Htr.
  exists (run_prologue backend website). split; [done|].
  unfold run_prologue. destruct Hno as [Hs| ->].
  - by rewrite bool_decide_false by lia.
  - by case_bool_decide.
Qed.

(** C7 (amended).  In a run that has at least one sitemap and whose
    browser launches, [printResults] is invoked exactly once: after every
    call that the two pools made, whether the outer pool drained or was
    stopped by the error of an inner pool, on the outcome collection as
    the pools left it, from the [finally] that also closes the browser;
    this holds whether the chain before it fulfilled or rejected.  The
    calls of the pools are those of the sitemaps that were started.  In a
    run without a sitemap, or whose browser does not launch, no report is
    printed.  The statement is about runs that reach the end of [main]:
    the rejection of the unawaited [page.title()], which no handler
    takes, is left out of it. *)
Theorem C7_report_once_after_pools (sched : Schedule) (w : World) :
  let w' := (main backend cliArgs website sched w).2 in
  (length (sitemaps website) ≠ 0 →
   launch_ok backend = true →
   ∃ evs,
     trace w'
     = trace w ++ run_prologue backend website ++ evs
       ++ [(OMain, APrintResults (printResults (results w')));
           (OMain, ABrowserClose)]
     ∧ count is_print (run_prologue backend website ++ evs) = 0
     ∧ Forall from_pool evs
     ∧ evs ≡ₚ (if version_ok backend && context_ok backend
               then started_events backend cliArgs website else [])
     ∧ results w' = results w ++ stored evs)
  ∧ (length (sitemaps website) = 0 ∨ launch_ok backend = false →
     ∃ evs, trace w' = trace w ++ evs ∧ count is_print evs = 0).
Proof.
  intros w'. split; [|apply no_report_without_browser].
  intros Hs Hl.
  destruct (main_spec backend cliArgs website sched w)
    as (evs & Htr & Hres & _ & Hpool & Hperm & _).
  fold w' in Htr, Hres.
  unfold run_epilogue, pools_run in *.
  rewrite bool_decide_true, Hl in * by done. simpl in *.
  exists evs. split_and!; try done.
  rewrite count_app.
  assert (count is_print evs = 0) as ->.
  { clear -Hpool. unfold count.
    induction Hpool as [|e evs [_ He] _ IH]; [done|].
    rewrite filter_cons. destruct (decide _) as [He'|_]; [congruence | done]. }
  unfold run_prologue. rewrite bool_decide_true, Hl by done.
  by destruct (version_ok backend).
Qed.

(** C9.  A sitemap whose list of URLs is empty is skipped with a warning:
    [processSitemap] settles at once, nothing is added to the outcome
    collection, the count of ERRORED outcomes stays as it was, no directory
    is made and no call is made for any URL. *)
Theorem C9_empty_sitemap_skipped (c i : nat) (root : URL) (w : World) :
  let sitemap := {| rootUrl := root; urls := [] |} in
  let tw := sitemap_step backend cliArgs website c (sitemap_spawn i sitemap) w in
  st_pc tw.1 = SSettled Fulfilled []
  ∧ trace tw.2
    = trace w ++ [(OSitemap i, AWarn (NoUrlsFound root (sitemapURL website)))]
  ∧ results tw.2 = results w
  ∧ sum_errored (printResults (results tw.2))
    = sum_errored (printResults (results w))
  ∧ dirs tw.2 = dirs w
  ∧ sitemap_events backend cliArgs website i sitemap
    = [(OSitemap i, AWarn (NoUrlsFound root (sitemapURL website)))]
  ∧ sitemap_recorded backend cliArgs i sitemap = [].
Proof. done. Qed.

Lemma set_metas_keeps (metas : list (option (string * JsString)))
    (m : Metadata) (n : string) :
  is_Some (m !! n) → is_Some (set_metas metas m !! n).
Proof.
  revert m. unfold set_metas.
  induction metas as [|[[k c]|] metas IH]; intros m Hm; simpl; [done| |by apply IH].
  apply IH. rewrite lookup_insert_is_Some'. by right.
Qed.

Lemma set_metas_stores (elements : list (JsString * JsString))
    (m : Metadata) (n : string) (c : JsString) :
  (Some n, c) ∈ elements → n ≠ EmptyString →
  is_Some (set_metas (eval_metas elements) m !! n).
Proof.
  revert m. induction elements as [|[name content] elements IH];
    intros m Hin Hne.
  { by apply elem_of_nil in Hin. }
  apply elem_of_cons in Hin as [Hhd|Htl].
  - injection Hhd as <- <-. simpl.
    destruct (String.eqb n EmptyString) eqn:Heq.
    { by apply String.eqb_eq in Heq. }
    simpl. apply (set_metas_keeps (eval_metas elements)).
    rewrite lookup_insert_is_Some'. by left.
  - simpl. destruct name as [k|]; simpl; [|by apply IH].
    destruct (negb (String.eqb k EmptyString)); simpl; by apply IH.
Qed.

(** C8 (amended).  For a URL whose navigation and [meta] query succeed,
    [page.pdf] is called once, after the [metadatas] map has been filled;
    the header and the footer it is given are the templates interpolated
    with that map, and the file name is derived from its ["title"]
    entry.  By then the map holds, under every name other than the empty
    one and ["title"], the content of the last [meta] element with that
    name, and nothing under a name no element bears; the empty name is
    never a key.  The entry ["title"] is the answer of [page.title()]
    when it arrived after the [meta] elements were stored; when it
    arrived before, the content of the last [meta] element named
    ["title"] if there is one and the answer otherwise; when it has not
    arrived, the content of that element alone. *)
Theorem C8_metadata_before_pdf (dir : string) (i j : nat) (url : URL) (w : World) :
  let b := behaviour backend i j in
  let md := page_metadata b in
  let elements := default [] (meta_elements b) in
  let o := OPage i j in
  let rw := pageToPDF backend cliArgs website dir i j url w in
  reaches_render b = true →
  trace rw.2
  = trace w
    ++ [(o, ANewPage true); (o, AEnsureDir (fileDir dir url) true);
        (o, AGoto url true); (o, AEvalMetas true);
        (o, APdf (pdf_options cliArgs website dir url md) (pdf_ok b));
        (o, AStoreResult
              {| oc_url := url;
                 oc_filePath := filePath cliArgs dir url md;
                 oc_status := if pdf_ok b then STATUS_PRINTED
                              else STATUS_ERROR |});
        (o, AClosePage)]
  ∧ pdf_headerTemplate (pdf_options cliArgs website dir url md)
    = interpolate (header (pdfTemplate website)) md
  ∧ pdf_footerTemplate (pdf_options cliArgs website dir url md)
    = interpolate (footer (pdfTemplate website)) md
  ∧ pdf_path (pdf_options cliArgs website dir url md)
    = path_join (fileDir dir url)
        (toFilename (get_title md) (safeTitle cliArgs) +:+ ".pdf")
  ∧ md !! EmptyString = None
  ∧ (∀ n, n ≠ EmptyString → n ≠ "title" →
          md !! n = last (named n elements))
  ∧ (∀ n c, (Some n, c) ∈ elements → n ≠ EmptyString → is_Some (md !! n))
  ∧ md !! "title"
    = match title_arrival b with
      | TitleBeforeMetas title =>
          Some (default (Some title) (last (named "title" elements)))
      | TitleAfterMetas title => Some (Some title)
      | TitleLate => last (named "title" elements)
      end.
Proof.
  intros b md elements o rw Hr.
  destruct (pageToPDF_spec backend cliArgs website dir i j url w)
    as (_ & Htr & _).
  fold rw in Htr. split_and!; try done.
  - rewrite Htr. f_equal.
    unfold page_events, page_final, page_hist, page_settlement. simpl.
    fold b. fold md. fold o.
    apply reaches_render_spec in Hr as (-> & -> & -> & [els ->]).
    by destruct (pdf_ok b).
  - unfold md, page_metadata, collect_metadata. fold elements.
    destruct (title_arrival b); rewrite ?lookup_insert_ne by done;
      rewrite set_metas_lookup, bool_decide_true by done;
      rewrite ?lookup_insert_ne by done; done.
  - intros n Hn Ht. unfold md, page_metadata, collect_metadata. fold elements.
    destruct (title_arrival b); rewrite ?lookup_insert_ne by done;
      rewrite set_metas_lookup, bool_decide_false by done;
      rewrite ?lookup_insert_ne by done; rewrite lookup_empty;
      by destruct (last (named n elements)).
  - intros n c Hin Hne. unfold md, page_metadata, collect_metadata.
    destruct (title_arrival b); try by eapply set_metas_stores.
    rewrite lookup_insert_is_Some'. right. by eapply set_metas_stores.
  - unfold md, page_metadata, collect_metadata. fold elements.
    destruct (title_arrival b); rewrite ?lookup_insert_eq; try done;
      rewrite set_metas_lookup, bool_decide_false by done;
      rewrite ?lookup_insert_eq, ?lookup_empty;
      by destruct (last (named "title" elements)).
Qed.

(** C10.  For every URL handed to [pageToPDF], when the navigation to the
    URL is attempted the directory of the URL, [outputDir] joined with
    [toFilePath(url)], has been created just before; it is therefore on
    disk when [pageToPDF] settles, whether the navigation and the render
    succeeded or not. *)
Theorem C10_directory_before_navigation (dir : string) (i j : nat) (url : URL)
    (w : World) (k : nat) (ok : bool) :
  let rw := pageToPDF backend cliArgs website dir i j url w in
  let evs := page_events backend cliArgs website dir i j url in
  evs !! k = Some (OPage i j, AGoto url ok) →
  trace rw.2 = trace w ++ evs
  ∧ (∃ k', k' < k
           ∧ evs !! k' = Some (OPage i j, AEnsureDir (fileDir dir url) true))
  ∧ fileDir dir url ∈ dirs rw.2.
Proof.
  intros rw evs Hk.
  destruct (pageToPDF_spec backend cliArgs website dir i j url w)
    as (_ & Htr & _ & Hd & _).
  fold rw in Htr, Hd. fold evs in Htr, Hd.
  split; [done|]. rewrite Hd. clear Htr Hd rw.
  unfold evs, page_events, page_final, page_hist, page_settlement in *.
  simpl in *. clear evs.
  set (b := behaviour backend i j) in *.
  destruct (newPage_ok b), (ensureDir_ok b), (goto_ok b), (meta_elements b),
    (pdf_ok b); simpl in *;
    repeat (destruct k as [|k]; simpl in Hk; try done);
    (split; [exists 1; split; [lia | done] | unfold made; simpl; set_solver]).
Qed.

(** The page context of a URL is closed exactly when the directory of the
    URL could be created. *)
Lemma pageToPDF_close_calls (dir : string) (i j : nat) (url : URL) (w : World) :
  let b := behaviour backend i j in
  let rw := pageToPDF backend cliArgs website dir i j url w in
  let evs := page_events backend cliArgs website dir i j url in
  trace rw.2 = trace w ++ evs
  ∧ count is_open evs = (if newPage_ok b then 1 else 0)
  ∧ count is_close evs = (if newPage_ok b && ensureDir_ok b then 1 else 0).
Proof.
  intros b rw evs.
  destruct (pageToPDF_spec backend cliArgs website dir i j url w)
    as (_ & Htr & _).
  split; [done|].
  unfold evs, page_events, page_final, page_hist, page_settlement, count.
  simpl. fold b.
  destruct (newPage_ok b), (ensureDir_ok b), (goto_ok b), (meta_elements b),
    (pdf_ok b); done.
Qed.

End Claims.

(** ** The claims on example inputs *)

(** C1, as first stated, fails: when the navigation to a URL fails,
    [pageToPDF] rejects and records no outcome, ERRORED or other. *)
Lemma C1_counterexample :
  let rw := pageToPDF (H := example_helpers)
              (example_backend (λ _ _, page_no_navigation))
              (example_cliArgs 2) (example_website [["a"]])
              "out" 0 0 "a" empty_world in
  rw.1 = Rejected NavigationError
  ∧ results rw.2 = []
  ∧ ¬ ∃ o, o ∈ results rw.2 ∧ oc_status o = STATUS_ERROR.
Proof.
  intros rw. assert (Hres : results rw.2 = []) by reflexivity.
  split_and!; [reflexivity | done |].
  rewrite Hres. intros (o & Ho & _). by apply elem_of_nil in Ho.
Qed.

Lemma C1_witness :
  let backend := example_backend (except 0 page_no_render) in
  let rw := pageToPDF (H := example_helpers) backend
              (example_cliArgs 2) (example_website [["a"; "b"]])
              "out" 0 0 "a" empty_world in
  1 ≤ processPool (example_cliArgs 2)
  ∧ rw.1 = Rejected RenderError
  ∧ results rw.2
    = [{| oc_url := "a"; oc_filePath := "out/a/Home.pdf";
          oc_status := STATUS_ERROR |}].
Proof.
  intros backend rw.
  assert (Hn : 1 ≤ processPool (example_cliArgs 2)) by (simpl; lia).
  destruct (C1_page_outcome (H := example_helpers) backend
              (example_cliArgs 2) (example_website [["a"; "b"]])
              "out" 0 0 "a" empty_world []
              {| rootUrl := "sitemap.xml"; urls := ["a"; "b"] |} empty_world Hn)
    as (Hr & _ & Hres & _).
  split; [exact Hn|]. split; [exact Hr | exact Hres].
Defined.

(** C2, as first stated, fails: a URL whose navigation fails is attempted
    and leaves no outcome, so the collection is smaller than the number of
    URLs. *)
Lemma C2_counterexample :
  let site := example_website [["a"]] in
  let w' := (main (H := example_helpers)
               (example_backend (λ _ _, page_no_navigation))
               (example_cliArgs 2) site [] empty_world).2 in
  length (run_urls site) = 1
  ∧ (OPage 0 0, AGoto "a" false) ∈ trace w'
  ∧ results w' = [].
Proof.
  intros site w'.
  assert (Htr : trace w'
                = [(OMain, ALaunch true); (OMain, AVersion true);
                   (OMain, ANewContext true);
                   (OSitemap 0, AEnsureDir "out" true);
                   (OPage 0 0, ANewPage true);
                   (OPage 0 0, AEnsureDir "out/a" true);
                   (OPage 0 0, AGoto "a" false); (OPage 0 0, AClosePage);
                   (OMain, APrintResults
                             {| sum_total := 0; sum_printed := 0;
                                sum_errored := 0; sum_errors := [] |});
                   (OMain, ABrowserClose)]) by reflexivity.
  split_and!; [reflexivity | | reflexivity].
  rewrite Htr. by apply (list_elem_of_lookup_2 _ 6).
Qed.

Lemma C3_witness :
  let backend := example_backend (except 0 page_no_render) in
  let sitemap := {| rootUrl := "sitemap.xml"; urls := ["a"; "b"; "c"] |} in
  let pw := inner_process (H := example_helpers) backend (example_cliArgs 2)
              (example_website [["a"; "b"; "c"]]) 0 [1; 1; 0] sitemap
              empty_world in
  1 ≤ processPool (example_cliArgs 2)
  ∧ drained pw.1 = true
  ∧ page_item <$> finished pw.1 ≡ₚ [(0, "a"); (1, "b"); (2, "c")].
Proof.
  intros backend sitemap pw.
  assert (Hn : 1 ≤ processPool (example_cliArgs 2)) by (simpl; lia).
  destruct (C3_failures_do_not_stop_siblings (H := example_helpers) backend
              (example_cliArgs 2) (example_website [["a"; "b"; "c"]])
              0 [1; 1; 0] sitemap empty_world Hn)
    as (Hd & Hitems & _).
  split; [exact Hn|]. split; [exact Hd | exact Hitems].
Defined.

Lemma inner_pool_bound_example :
  let backend := example_backend (λ _ _, page_fine) in
  let sitemap := {| rootUrl := "sitemap.xml"; urls := ["a"; "b"; "c"; "d"; "e"] |} in
  let pw := inner_run (H := example_helpers) backend (example_cliArgs 2)
              (example_website [["a"; "b"; "c"; "d"; "e"]]) 0 7 [1; 0; 1] sitemap
              empty_world in
  1 ≤ processPool (example_cliArgs 2)
  ∧ length (active pw.1) ≤ 2
  ∧ pages_in_flight pw.1 ≤ 2.
Proof.
  intros backend sitemap pw.
  assert (Hn : 1 ≤ processPool (example_cliArgs 2)) by (simpl; lia).
  destruct (inner_pool_bound (H := example_helpers) backend
              (example_cliArgs 2) (example_website [["a"; "b"; "c"; "d"; "e"]])
              0 7 [1; 0; 1] sitemap empty_world Hn)
    as (_ & _ & Hact & Hpages & _).
  split; [exact Hn|]. split; [exact Hact | exact Hpages].
Defined.

(** C6: the page context of a URL whose directory cannot be created is
    opened and never closed; [pageToPDF] rejects with one page context
    open. *)
Lemma C6_page_left_open :
  let rw := pageToPDF (H := example_helpers)
              (example_backend (λ _ _, page_no_directory))
              (example_cliArgs 2) (example_website [["a"]])
              "out" 0 0 "a" empty_world in
  rw.1 = Rejected DirectoryError
  ∧ trace rw.2 = [(OPage 0 0, ANewPage true);
                  (OPage 0 0, AEnsureDir "out/a" false)]
  ∧ count is_close (trace rw.2) = 0
  ∧ open_pages (trace rw.2) = 1.
Proof. intros rw. split_and!; reflexivity. Qed.

(** A run whose inner pool refuses its concurrency: the first sitemap
    makes its directory, the error of its pool stops the outer pool, the
    second sitemap is not started, the report is printed and the browser
    closed, and [main] rejects. *)
Lemma stopped_pool_example :
  let rw := main (H := example_helpers) (example_backend (λ _ _, page_fine))
              (example_cliArgs 0) (example_website [["a"]; ["b"]])
              [] empty_world in
  rw.1 = Rejected ValidationError
  ∧ trace rw.2
    = [(OMain, ALaunch true); (OMain, AVersion true);
       (OMain, ANewContext true); (OSitemap 0, AEnsureDir "out" true);
       (OMain, APrintResults (printResults [])); (OMain, ABrowserClose)].
Proof. intros rw. split; reflexivity. Qed.

(** C7, as first stated, fails: a run of a website without sitemaps ends
    with a warning and [printResults] is not invoked. *)
Lemma C7_counterexample :
  let w' := (main (H := example_helpers) (example_backend (λ _ _, page_fine))
               (example_cliArgs 2) (example_website []) [] empty_world).2 in
  trace w' = [(OMain, AWarn (NoSitemapFound "http://localhost:1313/sitemap.xml"))]
  ∧ count is_print (trace w') = 0.
Proof. intros w'. split; reflexivity. Qed.

Lemma C7_witness :
  let backend := example_backend (except 1 page_no_render) in
  let site := example_website [["a"; "b"]; []; ["c"]] in
  let w' := (main (H := example_helpers) backend (example_cliArgs 2) site
               [1; 0] empty_world).2 in
  length (sitemaps site) ≠ 0
  ∧ launch_ok backend = true
  ∧ ∃ evs,
      trace w'
      = trace empty_world ++ run_prologue backend site ++ evs
        ++ [(OMain, APrintResults (printResults (results w')));
            (OMain, ABrowserClose)]
      ∧ count is_print (run_prologue backend site ++ evs) = 0.
Proof.
  intros backend site w'.
  assert (Hs : length (sitemaps site) ≠ 0) by (simpl; lia).
  assert (Hl : launch_ok backend = true) by reflexivity.
  destruct (proj1 (C7_report_once_after_pools (H := example_helpers) backend
                     (example_cliArgs 2) site [1; 0] empty_world) Hs Hl)
    as (evs & Htr & Hcount & _).
  split; [exact Hs|]. split; [exact Hl|].
  exists evs. split; [exact Htr | exact Hcount].
Defined.

(** C8, as first stated, fails: a [meta] element whose name is the empty
    string has a name that is not null, and it is not stored in the map
    the templates are interpolated with. *)
Lemma C8_counterexample :
  let b := page_empty_meta_name in
  let md := page_metadata b in
  let rw := pageToPDF (H := example_helpers) (example_backend (λ _ _, b))
              (example_cliArgs 2) (example_website [["a"]])
              "out" 0 0 "a" empty_world in
  meta_elements b = Some [(Some "", Some "x")]
  ∧ rw.1 = Fulfilled
  ∧ md !! "" = None
  ∧ (OPage 0 0,
     APdf (pdf_options (H := example_helpers) (example_cliArgs 2)
             (example_website [["a"]]) "out" "a" md) true) ∈ trace rw.2.
Proof.
  intros b md rw. split_and!; [reflexivity | reflexivity | reflexivity |].
  assert (Htr : trace rw.2 !! 4
                = Some (OPage 0 0,
                        APdf (pdf_options (H := example_helpers) (example_cliArgs 2)
                                (example_website [["a"]]) "out" "a" md) true))
    by reflexivity.
  by eapply list_elem_of_lookup_2.
Qed.

(** The same for the title: when the answer of [page.title()] arrives too
    late, the map has no ["title"] entry and the file name falls back. *)
Lemma late_title_is_absent :
  let b := page_late_title in
  let rw := pageToPDF (H := example_helpers) (example_backend (λ _ _, b))
              (example_cliArgs 2) (example_website [["a"]])
              "out" 0 0 "a" empty_world in
  page_metadata b !! "title" = None
  ∧ results rw.2 = [{| oc_url := "a"; oc_filePath := "out/a/untitled.pdf";
                       oc_status := STATUS_PRINTED |}].
Proof. intros b rw. split; reflexivity. Qed.

Lemma C8_witness :
  let backend := example_backend (λ _ _, page_fine) in
  let md := page_metadata page_fine in
  reaches_render (behaviour backend 0 0) = true
  ∧ md !! "author" = Some (Some "me")
  ∧ md !! "title" = Some (Some "Home").
Proof.
  intros backend md.
  assert (Hr : reaches_render (behaviour backend 0 0) = true) by reflexivity.
  destruct (C8_metadata_before_pdf (H := example_helpers) backend
              (example_cliArgs 2) (example_website [["a"]])
              "out" 0 0 "a" empty_world Hr)
    as (_ & _ & _ & _ & _ & Hnames & _ & Htitle).
  split; [exact Hr|]. split.
  - assert (Ha : "author" ≠ EmptyString) by discriminate.
    assert (Ht : "author" ≠ "title") by discriminate.
    exact (Hnames "author" Ha Ht).
  - exact Htitle.
Defined.

Lemma C10_witness :
  let backend := example_backend (λ _ _, page_no_navigation) in
  let rw := pageToPDF (H := example_helpers) backend (example_cliArgs 2)
              (example_website [["a"]]) "out" 0 0 "a" empty_world in
  page_events (H := example_helpers) backend (example_cliArgs 2)
    (example_website [["a"]]) "out" 0 0 "a" !! 2
  = Some (OPage 0 0, AGoto "a" false)
  ∧ fileDir (H := example_helpers) "out" "a" ∈ dirs rw.2.
Proof.
  intros backend rw.
  assert (Hk : page_events (H := example_helpers) backend (example_cliArgs 2)
                 (example_website [["a"]]) "out" 0 0 "a" !! 2
               = Some (OPage 0 0, AGoto "a" false)) by reflexivity.
  destruct (C10_directory_before_navigation (H := example_helpers) backend
              (example_cliArgs 2) (example_website [["a"]])
              "out" 0 0 "a" empty_world 2 false Hk)
    as (_ & _ & Hdir).
  split; [exact Hk | exact Hdir].
Defined.

(** * Whole runs and metadata: further properties *)

(** ** Lists *)

Lemma filter_all {A} (P : A → Prop) `{∀ x, Decision (P x)} (l : list A) :
  Forall P l → filter P l = l.
Proof.
  induction 1 as [|x l Hx _ IH]; [done|].
  by rewrite filter_cons_True, IH.
Qed.

Lemma filter_none {A} (P : A → Prop) `{∀ x, Decision (P x)} (l : list A) :
  Forall (λ x, ¬ P x) l → filter P l = [].
Proof.
  induction 1 as [|x l Hx _ IH]; [done|].
  by rewrite filter_cons_False.
Qed.


(** ** What every call of a pool satisfies *)

Section Closed.
Context {Item Task : Type}.
Variable spawn : nat → Item → Task.
Variable advance : nat → Task → World → Task * World.
Variable settled : Task → bool.
Variable wf : Task → Prop.
Variable Q : list Event → Prop.

Hypothesis wf_advance : ∀ c t w,
  wf t → settled t = false → wf (advance c t w).1.
Hypothesis Q_nil : Q [].
Hypothesis Q_app : ∀ evs1 evs2, Q evs1 → Q evs2 → Q (evs1 ++ evs2).
Hypothesis Q_advance : ∀ c t w,
  wf t → settled t = false →
  ∃ evs, trace (advance c t w).2 = trace w ++ evs ∧ Q evs.

Lemma tick_closed (c : nat) (p : Pool Item Task) (w : World) :
  pool_wf spawn settled wf p →
  ∃ evs, trace (tick spawn advance settled c p w).2 = trace w ++ evs ∧ Q evs.
Proof.
  intros Hwf.
  destruct (tick_spec spawn advance settled wf c p w Hwf) as (_ & _ & Hcase).
  destruct Hcase as [[_ ->] | (c' & t & rest & Ht & Hs & _ & -> & _)].
  - exists []. by rewrite app_nil_r.
  - by apply Q_advance.
Qed.

Lemma run_ticks_closed (fuel : nat) (sched : Schedule) (p : Pool Item Task)
    (w : World) :
  pool_wf spawn settled wf p →
  ∃ evs, trace (run_ticks spawn advance settled fuel sched p w).2 = trace w ++ evs
         ∧ Q evs.
Proof.
  revert sched p w. induction fuel as [|fuel IH]; intros sched p w Hwf; simpl.
  - exists []. by rewrite app_nil_r.
  - destruct (tick_closed (choice sched) p w Hwf) as (evs1 & Htr1 & HQ1).
    pose proof (tick_wf spawn advance settled wf wf_advance (choice sched) p w Hwf)
      as Hwf1.
    destruct (tick spawn advance settled (choice sched) p w) as [p1 w1].
    simpl in *.
    destruct (IH (tail sched) p1 w1 Hwf1) as (evs2 & Htr2 & HQ2).
    exists (evs1 ++ evs2). rewrite Htr2, Htr1, <- app_assoc. split; [done|].
    by apply Q_app.
Qed.

End Closed.

(** ** The calls selected by a predicate, followed through one handler *)

Section Owner.
Context {Item Task K : Type} `{EqDecision K}.
Variable spawn : nat → Item → Task.
Variable advance : nat → Task → World → Task * World.
Variable settled : Task → bool.
Variable wf : Task → Prop.
Variable P : Event → Prop.
Context `{∀ e, Decision (P e)}.
Variable key : Task → K.
Variable k : K.
Variable R : Task → list Event → Prop.

Hypothesis wf_advance : ∀ c t w,
  wf t → settled t = false → wf (advance c t w).1.
Hypothesis key_advance : ∀ c t w, key (advance c t w).1 = key t.
Hypothesis R_advance : ∀ c t w l,
  wf t → settled t = false → key t = k → R t l →
  ∃ evs, trace (advance c t w).2 = trace w ++ evs
         ∧ R (advance c t w).1 (l ++ filter P evs).
Hypothesis others_advance : ∀ c t w,
  wf t → settled t = false → key t ≠ k →
  ∃ evs, trace (advance c t w).2 = trace w ++ evs ∧ filter P evs = [].

Lemma tick_owner (c : nat) (p : Pool Item Task) (w : World) (l : list Event) :
  pool_wf spawn settled wf p →
  NoDup (key <$> pool_tasks spawn p) →
  Forall (λ t, key t = k → R t l) (pool_tasks spawn p) →
  ∃ evs, trace (tick spawn advance settled c p w).2 = trace w ++ evs
         ∧ NoDup (key <$> pool_tasks spawn (tick spawn advance settled c p w).1)
         ∧ Forall (λ t, key t = k → R t (l ++ filter P evs))
             (pool_tasks spawn (tick spawn advance settled c p w).1).
Proof.
  intros Hwf Hnd Hall.
  destruct (tick_spec spawn advance settled wf c p w Hwf) as (_ & _ & Hcase).
  destruct Hcase as [[_ ->] | (c' & t & rest & Ht & Hs & Hperm & -> & Hcase)].
  { exists []. by rewrite !app_nil_r. }
  assert (Hold : pool_tasks spawn p ≡ₚ t :: (finished p ++ rest)).
  { unfold pool_tasks. rewrite Hperm. by rewrite Permutation_middle. }
  assert (Hnew : pool_tasks spawn (tick spawn advance settled c p w).1
                 ≡ₚ (advance c' t w).1 :: (finished p ++ rest)).
  { unfold pool_tasks.
    destruct (settled (advance c' t w).1); destruct Hcase as [-> ->].
    - rewrite <- app_assoc. simpl. by rewrite Permutation_middle.
    - by rewrite Permutation_middle. }
  rewrite Hold in Hnd, Hall. clear Hold Hcase Hperm.
  rewrite fmap_cons in Hnd. apply NoDup_cons in Hnd as [Hnotin Hnd].
  apply Forall_cons in Hall as [Hmine Hothers].
  destruct (decide (key t = k)) as [Hk|Hk].
  - destruct (R_advance c' t w l Ht Hs Hk (Hmine Hk)) as (evs & Htr & HR).
    exists evs. rewrite Hnew, fmap_cons, key_advance.
    split_and!; [done | by apply NoDup_cons |].
    apply Forall_cons. split; [done|].
    rewrite Forall_forall. intros u Hu Hku. exfalso. apply Hnotin.
    rewrite Hk, <- Hku. by apply list_elem_of_fmap_2.
  - destruct (others_advance c' t w Ht Hs Hk) as (evs & Htr & Hnone).
    exists evs. rewrite Hnew, fmap_cons, key_advance.
    split_and!; [done | by apply NoDup_cons |].
    rewrite Hnone, app_nil_r. apply Forall_cons. split; [|done].
    rewrite key_advance. done.
Qed.

Lemma run_ticks_owner (fuel : nat) (sched : Schedule) (p : Pool Item Task)
    (w : World) (l : list Event) :
  pool_wf spawn settled wf p →
  NoDup (key <$> pool_tasks spawn p) →
  Forall (λ t, key t = k → R t l) (pool_tasks spawn p) →
  ∃ evs, trace (run_ticks spawn advance settled fuel sched p w).2 = trace w ++ evs
         ∧ Forall (λ t, key t = k → R t (l ++ filter P evs))
             (pool_tasks spawn (run_ticks spawn advance settled fuel sched p w).1).
Proof.
  revert sched p w l.
  induction fuel as [|fuel IH]; intros sched p w l Hwf Hnd Hall; simpl.
  - exists []. by rewrite !app_nil_r.
  - destruct (tick_owner (choice sched) p w l Hwf Hnd Hall)
      as (evs1 & Htr1 & Hnd1 & Hall1).
    pose proof (tick_wf spawn advance settled wf wf_advance (choice sched) p w Hwf)
      as Hwf1.
    destruct (tick spawn advance settled (choice sched) p w) as [p1 w1].
    simpl in *.
    destruct (IH (tail sched) p1 w1 _ Hwf1 Hnd1 Hall1) as (evs2 & Htr2 & Hall2).
    exists (evs1 ++ evs2). rewrite Htr2, Htr1, <- app_assoc. split; [done|].
    by rewrite filter_app, app_assoc.
Qed.

End Owner.

(** ** The calls made for one URL in a whole run *)

Section UrlCalls.
Context `{Helpers}.
Variable backend : Backend.
Variable cliArgs : ICliArguments.
Variable website : Website.
Variables i j : nat.

Local Abbreviation outDir := (normalized_outputDir cliArgs).
Local Abbreviation pstep :=
  (λ _ : nat, page_step backend cliArgs website (normalized_outputDir cliArgs)).
Local Abbreviation phist :=
  (page_hist backend cliArgs website (normalized_outputDir cliArgs)).
Local Abbreviation pwf := (page_wf backend).
Local Abbreviation sstep := (sitemap_step backend cliArgs website).
Local Abbreviation swf := (sitemap_wf backend cliArgs).
Local Abbreviation mine := (λ e : Event, e.1 = OPage i j).

Lemma page_step_mine (c : nat) (t : PageTask) (w : World) (l : list Event) :
  pwf i t → page_settled t = false → pt_index t = j → l = phist t →
  ∃ evs, trace (pstep c t w).2 = trace w ++ evs
         ∧ l ++ filter mine evs = phist (pstep c t w).1.
Proof.
  intros Hwf Hs Hj ->.
  destruct (page_step_exact backend cliArgs website i c t w Hwf Hs)
    as (evs & Htr & Hh & Ho).
  exists evs. split; [done|]. rewrite Hh. f_equal.
  apply filter_all. eapply Forall_impl; [exact Ho|].
  intros e ->. unfold page_origin. destruct Hwf as [-> _]. by rewrite Hj.
Qed.

Lemma page_step_others (c : nat) (t : PageTask) (w : World) :
  pwf i t → page_settled t = false → pt_index t ≠ j →
  ∃ evs, trace (pstep c t w).2 = trace w ++ evs ∧ filter mine evs = [].
Proof.
  intros Hwf Hs Hj.
  destruct (page_step_exact backend cliArgs website i c t w Hwf Hs)
    as (evs & Htr & _ & Ho).
  exists evs. split; [done|].
  apply filter_none. eapply Forall_impl; [exact Ho|].
  intros e -> Heq. unfold page_origin in Heq. by simplify_eq.
Qed.

Lemma pool_indices_NoDup (sitemap : WebsiteSitemap) (tasks : list PageTask) :
  page_item <$> tasks ≡ₚ indexed (urls sitemap) → NoDup (pt_index <$> tasks).
Proof.
  intros Hperm.
  assert (pt_index <$> tasks = (page_item <$> tasks).*1) as ->.
  { by rewrite <- list_fmap_compose. }
  rewrite Hperm, indexed_fst. apply NoDup_seq.
Qed.

Lemma sitemap_step_mine (c : nat) (t : SitemapTask) (w : World) (l : list Event) :
  swf t → sitemap_settled t = false → st_index t = i →
  url_calls_at backend cliArgs website j t l →
  ∃ evs, trace (sstep c t w).2 = trace w ++ evs
         ∧ url_calls_at backend cliArgs website j (sstep c t w).1
             (l ++ filter mine evs).
Proof.
  destruct t as [i' sm pc]. simpl. intros Hwf Hs -> Hl.
  unfold sitemap_wf, sitemap_settled, url_calls_at, sitemap_step in *.
  simpl in *. destruct pc as [|p|r fin]; simpl in *; [| |done].
  - subst l. unfold sitemap_runs.
    case_bool_decide as Hu; simpl.
    + destruct (outputDir_ok backend i) eqn:Hok; simpl.
      * destruct (valid_concurrency (processPool cliArgs)) eqn:Hv; simpl;
          (eexists; split; [done|]); simpl.
        -- rewrite filter_cons_False by done. simpl.
           unfold pool_tasks, live, inner_pool, new_pool. simpl.
           apply Forall_fmap, Forall_forall. by intros [j' url] _ _.
        -- rewrite ?bool_decide_true, ?Hok, ?Hv by done. simpl.
           by rewrite filter_cons_False by done.
      * eexists; split; [done|]. rewrite ?bool_decide_true, ?Hok by done. simpl.
        by rewrite filter_cons_False by done.
    + eexists; split; [done|]. rewrite ?bool_decide_false by lia. simpl.
      by rewrite filter_cons_False by done.
  - destruct Hwf as (Hruns & Hn & Hp & Hitems).
    unfold inner_tick.
    destruct (tick_owner (page_spawn i) pstep page_settled (pwf i) mine
                pt_index j (λ u l, l = phist u)
                (λ c t w, proj1 (proj2 (page_step_ids backend cliArgs website outDir t w)))
                page_step_mine page_step_others
                c p w l Hp (pool_indices_NoDup sm _ Hitems) Hl)
      as (evs & Htr & _ & Hall).
    destruct (tick (page_spawn i) pstep page_settled c p w) as [p' w'].
    simpl in *. exists evs.
    destruct (drained p') eqn:Hd; simpl; (split; [done|]); [|done].
    rewrite Hruns. by rewrite <- (drained_tasks (page_spawn i) p' Hd).
Qed.

Lemma sitemap_step_others (c : nat) (t : SitemapTask) (w : World) :
  swf t → sitemap_settled t = false → st_index t ≠ i →
  ∃ evs, trace (sstep c t w).2 = trace w ++ evs ∧ filter mine evs = [].
Proof.
  intros Hwf Hs Hi.
  destruct (sitemap_step_tag backend cliArgs website c t w Hwf Hs)
    as (evs & Htr & Htag).
  exists evs. split; [done|].
  apply filter_none. eapply Forall_impl; [exact Htag|].
  intros e He Heq. unfold event_sitemap in He. rewrite Heq in He.
  by simplify_eq.
Qed.

(** In the calls of the outer pool, those made for URL [j] of sitemap [i]
    are the calls of [pageToPDF] for that URL, in their order. *)
Lemma outer_process_projection (sched : Schedule) (w : World)
    (sitemap : WebsiteSitemap) (url : URL) :
  sitemaps website !! i = Some sitemap →
  urls sitemap !! j = Some url →
  ∃ evs,
    trace (outer_process backend cliArgs website sched w).2 = trace w ++ evs
    ∧ filter mine evs
      = if sitemap_runs backend cliArgs i sitemap
        then page_events backend cliArgs website outDir i j url
        else [].
Proof.
  intros Hi Hj.
  unfold outer_process, process.
  set (p0 := outer_pool website). set (fuel := pool_cost _ _ p0).
  pose proof (outer_pool_wf backend cliArgs website) as Hwf0. fold p0 in Hwf0.
  pose proof (run_ticks_wf sitemap_spawn sstep sitemap_settled swf
                (sitemap_step_wf backend cliArgs website)
                fuel sched p0 w Hwf0) as Hwf.
  pose proof (run_ticks_drained sitemap_spawn sstep sitemap_settled
                sitemap_cost swf
                (sitemap_step_wf backend cliArgs website)
                (sitemap_step_cost backend cliArgs website)
                fuel sched p0 w Hwf0 (Nat.le_refl _)) as Hd.
  pose proof (run_ticks_origin sitemap_spawn sstep sitemap_settled swf
                (sitemap_step_wf backend cliArgs website)
                sitemap_item (sitemap_step_item backend cliArgs website)
                fuel sched p0 w Hwf0) as Ho.
  assert (Hitems0 : sitemap_item <$> pool_tasks sitemap_spawn p0
                    = indexed (sitemaps website)).
  { unfold p0, outer_pool.
    apply (new_pool_origin sitemap_spawn sitemap_item (λ _ _, eq_refl)). }
  destruct (run_ticks_owner sitemap_spawn sstep sitemap_settled swf mine
              st_index i (url_calls_at backend cliArgs website j)
              (sitemap_step_wf backend cliArgs website)
              (λ c t w, f_equal fst (sitemap_step_item backend cliArgs website c t w))
              sitemap_step_mine sitemap_step_others
              fuel sched p0 w [] Hwf0) as (evs & Htr & Hall).
  { assert (st_index <$> pool_tasks sitemap_spawn p0
            = (sitemap_item <$> pool_tasks sitemap_spawn p0).*1) as ->.
    { by rewrite <- list_fmap_compose. }
    rewrite Hitems0, indexed_fst. apply NoDup_seq. }
  { unfold p0, pool_tasks, live, outer_pool, new_pool. simpl.
    apply Forall_fmap, Forall_forall. by intros [i' sm] _ _. }
  exists evs. split; [done|].
  destruct (run_ticks sitemap_spawn sstep sitemap_settled fuel sched p0 w)
    as [p' w']. simpl in *.
  rewrite (drained_tasks _ p' Hd) in *. rewrite Hitems0 in Ho.
  destruct Hwf as (_ & _ & Hfin & _).
  assert (Hin : (i, sitemap) ∈ sitemap_item <$> finished p').
  { rewrite Ho. unfold indexed. apply list_elem_of_lookup. exists i.
    by rewrite list_lookup_imap, Hi. }
  apply list_elem_of_fmap in Hin as (t & Ht & Hin).
  rewrite Forall_forall in Hall, Hfin.
  destruct (Hfin t Hin) as [Hwft Hst].
  destruct t as [i' sm pc]. unfold sitemap_item in Ht. simpl in Ht.
  injection Ht as <- <-.
  specialize (Hall _ Hin eq_refl).
  unfold url_calls_at, sitemap_wf, sitemap_settled in *. simpl in *.
  destruct pc as [|p|r fin]; simpl in *; [done|done|].
  destruct Hwft as [_ Hdone].
  destruct (sitemap_runs backend cliArgs i sitemap); [|done].
  rewrite Forall_forall in Hall.
  apply (Hall (page_final backend i j url)); [|done].
  rewrite Hdone. apply list_elem_of_fmap. exists (j, url). split; [done|].
  unfold indexed. apply list_elem_of_lookup. exists j.
  by rewrite list_lookup_imap, Hj.
Qed.

End UrlCalls.

(** ** The calls of a whole run *)

Lemma bind_nil_all {A B} (f : A → list B) (l : list A) :
  Forall (λ x, f x = []) l → l ≫= f = [].
Proof. induction 1 as [|x l Hx _ IH]; csimpl; [done|]. by rewrite Hx, IH. Qed.

Lemma bind_app_Permutation {A B} (f g : A → list B) (l : list A) :
  l ≫= (λ x, f x ++ g x) ≡ₚ (l ≫= f) ++ (l ≫= g).
Proof.
  induction l as [|x l IH]; csimpl; [done|].
  rewrite IH, <- !app_assoc. apply Permutation_app_head.
  rewrite !app_assoc. apply Permutation_app_tail, Permutation_app_comm.
Qed.

Lemma bind_bind_list {A B C} (f : A → list B) (g : B → list C) (l : list A) :
  (l ≫= f) ≫= g = l ≫= (λ x, f x ≫= g).
Proof.
  induction l as [|x l IH]; csimpl; [done|]. by rewrite bind_app, IH.
Qed.

Lemma count_bind {A} (f : Event → bool) (g : A → bool) (h : A → list Event)
    (l : list A) :
  (∀ x, x ∈ l → count f (h x) = if g x then 1 else 0) →
  count f (l ≫= h) = length (filter (λ x, g x = true) l).
Proof.
  induction l as [|x l IH]; intros Hx; csimpl; [done|].
  rewrite count_app, filter_cons, IH, Hx by set_solver.
  destruct (g x); simpl; done.
Qed.

Lemma count_none (f : Event → bool) (evs : list Event) :
  Forall (λ e, f e = false) evs → count f evs = 0.
Proof. apply filter_length_none. Qed.

Lemma filter_length_split {A} (f g : A → bool) (l : list A) :
  length (filter (λ x, f x = true) l)
  = length (filter (λ x, f x && g x = true) l)
    + length (filter (λ x, f x && negb (g x) = true) l).
Proof.
  induction l as [|x l IH]; [done|].
  rewrite !filter_cons.
  destruct (f x), (g x); simpl; repeat case_decide; simpl; try done; lia.
Qed.

Section RunCalls.
Context `{Helpers}.
Variable backend : Backend.
Variable cliArgs : ICliArguments.
Variable website : Website.

Local Abbreviation outDir := (normalized_outputDir cliArgs).
Local Abbreviation pages := (run_pages backend cliArgs website).
Local Abbreviation answers := (page_answers backend).
Local Abbreviation calls_of := (page_calls backend cliArgs website).

Lemma run_events_pages :
  (if pools_run backend website
   then started_events backend cliArgs website else [])
  ≡ₚ sitemap_calls backend cliArgs website ++ (pages ≫= calls_of).
Proof.
  unfold sitemap_calls, run_pages.
  destruct (pools_run backend website); [|done].
  destruct (valid_concurrency (processPool cliArgs)) eqn:Hv.
  - rewrite started_events_valid, started_valid by done.
    unfold run_events, sitemap_events. rewrite bind_app_Permutation.
    apply Permutation_app_head. rewrite bind_bind_list.
    apply reflexive_eq, list_bind_ext; [|done]. intros [i sm]. simpl.
    destruct (sitemap_runs backend cliArgs i sm); [|done].
    by rewrite bind_fmap_list.
  - rewrite started_events_invalid by done.
    rewrite (bind_nil_all _ (indexed (sitemaps website))).
    + csimpl. by rewrite app_nil_r.
    + apply Forall_forall. intros [i sm] _. simpl.
      by rewrite sitemap_runs_invalid.
Qed.

(** A run: the calls before the pools, those of the pools, which are the
    calls of the sitemaps and of the URLs handed to [pageToPDF] in some
    order, and the final report. *)
Lemma run_calls_spec (sched : Schedule) (w : World) :
  let w' := (main backend cliArgs website sched w).2 in
  ∃ evs,
    run_calls backend cliArgs website sched w
    = run_prologue backend website ++ evs
      ++ run_epilogue backend website (results w')
    ∧ evs ≡ₚ sitemap_calls backend cliArgs website ++ (pages ≫= calls_of)
    ∧ results w' = results w ++ stored evs
    ∧ dirs w' = dirs w ∪ made evs.
Proof.
  intros w'.
  destruct (main_spec backend cliArgs website sched w)
    as (evs & Htr & Hres & Hd & _ & Hperm & _).
  fold w' in Htr, Hres, Hd.
  exists evs. unfold run_calls. fold w'.
  rewrite Htr, drop_app_length. split_and!; try done.
  by rewrite Hperm, run_events_pages.
Qed.

Lemma run_prologue_outside :
  Forall (λ e, outside_pages e.2 = true) (run_prologue backend website).
Proof.
  unfold run_prologue.
  destruct (bool_decide _), (launch_ok backend), (version_ok backend);
    by repeat constructor.
Qed.

Lemma run_epilogue_outside (store : list ConversionOutcome) :
  Forall (λ e, outside_pages e.2 = true) (run_epilogue backend website store).
Proof.
  unfold run_epilogue.
  destruct (bool_decide _), (launch_ok backend); by repeat constructor.
Qed.

Lemma sitemap_prologue_outside (i : nat) (sitemap : WebsiteSitemap) :
  Forall (λ e, outside_pages e.2 = true)
    (sitemap_prologue backend cliArgs website i sitemap).
Proof.
  unfold sitemap_prologue. destruct (bool_decide _); by repeat constructor.
Qed.

Lemma sitemap_calls_outside :
  Forall (λ e, outside_pages e.2 = true) (sitemap_calls backend cliArgs website).
Proof.
  unfold sitemap_calls. destruct (pools_run backend website); [|constructor].
  apply Forall_bind, Forall_forall. intros [i sm] _.
  apply sitemap_prologue_outside.
Qed.

Lemma outside_pages_count (f : Event → bool) (store : list ConversionOutcome) :
  on_page f →
  count f (run_prologue backend website) = 0
  ∧ count f (run_epilogue backend website store) = 0
  ∧ count f (sitemap_calls backend cliArgs website) = 0.
Proof.
  intros Hf. split_and!; apply count_none.
  - eapply Forall_impl; [apply run_prologue_outside|]. apply Hf.
  - eapply Forall_impl; [apply run_epilogue_outside|]. apply Hf.
  - eapply Forall_impl; [apply sitemap_calls_outside|]. apply Hf.
Qed.

(** How many calls of a kind a run makes, from how many each URL gets. *)
Lemma run_count (f : Event → bool) (g : nat * nat * URL → bool)
    (sched : Schedule) (w : World) :
  on_page f →
  (∀ p, count f (calls_of p) = if g p then 1 else 0) →
  count f (run_calls backend cliArgs website sched w)
  = length (filter (λ p, g p = true) pages).
Proof.
  intros Hf Hg.
  destruct (run_calls_spec sched w) as (evs & -> & Hperm & _).
  destruct (outside_pages_count f
              (results (main backend cliArgs website sched w).2) Hf)
    as (Hpro & Hepi & Hsm).
  rewrite !count_app, Hpro, Hepi, (count_Permutation _ _ _ Hperm), count_app, Hsm.
  rewrite (count_bind f g) by done. lia.
Qed.

(** X5.  Page contexts in a whole run: [newPage] is called once for every URL
    handed to [pageToPDF]; [page.close] is called once for every URL whose
    page context was opened and whose directory could be created; the page
    contexts still open when the run ends are those of the URLs whose
    directory could not be created. *)
Theorem run_page_contexts (sched : Schedule) (w : World) :
  let calls := run_calls backend cliArgs website sched w in
  count is_new_page calls = length pages
  ∧ count is_open calls
    = length (filter (λ p, newPage_ok (answers p) = true) pages)
  ∧ count is_close calls
    = length (filter (λ p, newPage_ok (answers p) && ensureDir_ok (answers p) = true)
                pages)
  ∧ open_pages calls = length (filter (λ p, page_leaks backend p = true) pages).
Proof.
  intros calls.
  assert (Hcalls : ∀ p,
    count is_new_page (calls_of p) = 1
    ∧ count is_open (calls_of p) = (if newPage_ok (answers p) then 1 else 0)
    ∧ count is_close (calls_of p)
      = (if newPage_ok (answers p) && ensureDir_ok (answers p) then 1 else 0)).
  { intros [[i j] url].
    unfold page_calls, page_events, page_final, page_hist, page_settlement,
      page_answers, behaviour, count. simpl.
    destruct (page_backend backend i j) as [[] [] [] ? [?|] []]; simpl; done. }
  assert (Hnew : count is_new_page calls = length pages).
  { unfold calls. rewrite (run_count is_new_page (λ _, true)).
    - f_equal. apply filter_all. by apply Forall_forall.
    - by intros [o []].
    - intros p. apply Hcalls. }
  assert (Hopen : count is_open calls
                  = length (filter (λ p, newPage_ok (answers p) = true) pages)).
  { unfold calls. apply (run_count is_open (λ p, newPage_ok (answers p))).
    - by intros [o []].
    - intros p. apply Hcalls. }
  assert (Hclose : count is_close calls
    = length (filter (λ p, newPage_ok (answers p) && ensureDir_ok (answers p) = true)
                pages)).
  { unfold calls.
    apply (run_count is_close
             (λ p, newPage_ok (answers p) && ensureDir_ok (answers p))).
    - by intros [o []].
    - intros p. apply Hcalls. }
  split_and!; try done.
  unfold open_pages. rewrite Hopen, Hclose. unfold page_leaks.
  rewrite (filter_length_split (λ p, newPage_ok (answers p))
             (λ p, ensureDir_ok (answers p))).
  lia.
Qed.

End RunCalls.

Section OpenPages.
Context `{Helpers}.
Variable backend : Backend.
Variable cliArgs : ICliArguments.
Variable website : Website.

(** C5.  The inner pool bounds the conversions in flight, not the page
    contexts that are open: a conversion whose [fs.ensureDir(fileDir)]
    rejects settles with its page context open, the [finally] of lines
    281-283 being chained below that call (the defect of C6).  When the
    pool of a sitemap has drained, no conversion is in flight and the page
    contexts still open are as many as the URLs whose page context opened
    and whose directory could not be made, however small the
    concurrency. *)
Theorem C5_pages_open_beyond_bound (i : nat) (sched : Schedule)
    (sitemap : WebsiteSitemap) (w : World) :
  1 ≤ processPool cliArgs →
  let pw := inner_process backend cliArgs website i sched sitemap w in
  ∃ evs,
    trace pw.2 = trace w ++ evs
    ∧ drained pw.1 = true
    ∧ active pw.1 = []
    ∧ open_pages evs
      = length (filter (λ jx, newPage_ok (behaviour backend i jx.1)
                              && negb (ensureDir_ok (behaviour backend i jx.1))
                              = true)
                  (indexed (urls sitemap))).
Proof.
  intros Hn pw.
  destruct (inner_process_spec backend cliArgs website i sched sitemap w Hn)
    as (Hd & Hact & _ & evs & (Htr & _) & Hperm).
  exists evs. split_and!; try done.
  assert (Hcalls : ∀ jx : nat * URL,
    count is_open (page_events backend cliArgs website
                     (normalized_outputDir cliArgs) i jx.1 jx.2)
    = (if newPage_ok (behaviour backend i jx.1) then 1 else 0)
    ∧ count is_close (page_events backend cliArgs website
                        (normalized_outputDir cliArgs) i jx.1 jx.2)
      = (if newPage_ok (behaviour backend i jx.1)
            && ensureDir_ok (behaviour backend i jx.1) then 1 else 0)).
  { intros [j url].
    unfold page_events, page_final, page_hist, page_settlement, behaviour,
      count. simpl.
    destruct (page_backend backend i j) as [[] [] [] ? [?|] []]; simpl; done. }
  unfold open_pages. rewrite !(count_Permutation _ _ _ Hperm).
  rewrite (count_bind is_open (λ jx, newPage_ok (behaviour backend i jx.1)))
    by (intros jx _; apply Hcalls).
  rewrite (count_bind is_close
             (λ jx, newPage_ok (behaviour backend i jx.1)
                    && ensureDir_ok (behaviour backend i jx.1)))
    by (intros jx _; apply Hcalls).
  rewrite (filter_length_split (λ jx, newPage_ok (behaviour backend i jx.1))
             (λ jx, ensureDir_ok (behaviour backend i jx.1))).
  lia.
Qed.

End OpenPages.

(** ** The calls of one URL and of one sitemap in a whole run *)

Section RunOrder.
Context `{Helpers}.
Variable backend : Backend.
Variable cliArgs : ICliArguments.
Variable website : Website.

Local Abbreviation outDir := (normalized_outputDir cliArgs).
Local Abbreviation sstep := (sitemap_step backend cliArgs website).
Local Abbreviation swf := (sitemap_wf backend cliArgs).

(** The calls of a run are those before the pools, those the outer pool
    makes when it is run, and the final report. *)
Lemma run_calls_pools (sched : Schedule) (w : World) :
  let w' := (main backend cliArgs website sched w).2 in
  ∃ w1 evs,
    run_calls backend cliArgs website sched w
    = run_prologue backend website ++ evs
      ++ run_epilogue backend website (results w')
    ∧ if pools_run backend website
      then trace (outer_process backend cliArgs
                    (started_website backend cliArgs website) sched w1).2
           = trace w1 ++ evs
      else evs = [].
Proof.
  intros w'. unfold run_calls. fold w'. unfold w'.
  unfold main, processSitemaps, browser_chain, pool_run, run_prologue,
    run_epilogue, pools_run.
  case_bool_decide as Hs; simpl.
  2:{ exists w, []. by rewrite drop_app_length. }
  destruct (launch_ok backend); simpl.
  2:{ exists w, []. by rewrite drop_app_length. }
  destruct (version_ok backend); simpl.
  2:{ exists w, []. by rewrite <- !app_assoc, drop_app_length. }
  destruct (context_ok backend); simpl.
  2:{ exists w, []. by rewrite <- !app_assoc, drop_app_length. }
  set (w1 := emit OMain (ANewContext true) _).
  destruct (outer_process_spec backend cliArgs
              (started_website backend cliArgs website) sched w1)
    as (evs & (Htr & _) & _).
  exists w1, evs. split; [|done].
  rewrite Htr. unfold w1. simpl. by rewrite <- !app_assoc, drop_app_length.
Qed.

Lemma outside_pools_none (P : Event → Prop) (store : list ConversionOutcome) :
  (∀ e, P e → e.1 ≠ OMain) →
  Forall (λ e, ¬ P e) (run_prologue backend website)
  ∧ Forall (λ e, ¬ P e) (run_epilogue backend website store).
Proof.
  intros HP. split.
  - eapply Forall_impl; [apply run_prologue_main|]. intros e He HPe.
    by apply (HP e).
  - eapply Forall_impl; [apply run_epilogue_main|]. intros e He HPe.
    by apply (HP e).
Qed.

(** X2.  In a whole run, whatever the schedule, the calls made for a URL of the
    site are those of [pageToPDF] run on its own for that URL, in the same
    order; there are none when the pools are not run or the pool of its
    sitemap is not. *)
Theorem run_calls_of_url (sched : Schedule) (w : World) (i j : nat)
    (sitemap : WebsiteSitemap) (url : URL) :
  sitemaps website !! i = Some sitemap →
  urls sitemap !! j = Some url →
  filter (λ e, e.1 = OPage i j) (run_calls backend cliArgs website sched w)
  = if pools_run backend website && sitemap_runs backend cliArgs i sitemap
    then page_events backend cliArgs website outDir i j url
    else [].
Proof.
  intros Hi Hj.
  destruct (run_calls_pools sched w) as (w1 & evs & -> & Hpools).
  destruct (outside_pools_none (λ e, e.1 = OPage i j)
              (results (main backend cliArgs website sched w).2))
    as [Hpro Hepi].
  { by intros e ->. }
  rewrite !filter_app, (filter_none _ _ Hpro), (filter_none _ _ Hepi), app_nil_r.
  simpl.
  destruct (pools_run backend website); simpl; [|by subst evs].
  destruct (valid_concurrency (processPool cliArgs)) eqn:Hv.
  - rewrite (started_website_valid backend cliArgs website Hv) in Hpools.
    destruct (outer_process_projection backend cliArgs website i j sched w1
                sitemap url Hi Hj) as (evs' & Htr & Hf).
    assert (evs' = evs) as -> by (rewrite Htr in Hpools; by simplify_list_eq).
    done.
  - rewrite sitemap_runs_invalid by done.
    destruct (outer_process_spec backend cliArgs
                (started_website backend cliArgs website) sched w1)
      as (evs' & (Htr & _) & Hperm).
    assert (evs' = evs) as -> by (rewrite Htr in Hpools; by simplify_list_eq).
    apply filter_none. rewrite Hperm, run_events_started.
    rewrite started_events_invalid by done.
    apply Forall_bind, Forall_forall. intros [i' sm] _. simpl.
    unfold sitemap_prologue. case_bool_decide; by repeat constructor.
Qed.

Lemma sitemap_step_segment (i c : nat) (t : SitemapTask) (w : World)
    (l : list Event) :
  swf t → sitemap_settled t = false → st_index t = i →
  sitemap_calls_at backend cliArgs website t l →
  ∃ evs, trace (sstep c t w).2 = trace w ++ evs
         ∧ sitemap_calls_at backend cliArgs website (sstep c t w).1
             (l ++ filter (λ e, event_sitemap e = Some i) evs).
Proof.
  intros Hwf Hs Hi Hl.
  destruct (sitemap_step_tag backend cliArgs website c t w Hwf Hs)
    as (evs & Htr & Htag).
  exists evs. split; [done|]. rewrite Hi in Htag.
  rewrite (filter_all _ _ Htag).
  pose proof (sitemap_step_item backend cliArgs website c t w) as Hitem.
  injection Hitem as Hi' Hsm.
  unfold sitemap_calls_at in *. rewrite Hi', Hsm.
  destruct t as [i' sm pc]. unfold sitemap_settled in Hs. simpl in *. subst i'.
  destruct pc as [|p|r fin]; simpl in *; [| |done].
  - subst l. revert Htr. unfold sitemap_step, sitemap_prologue. simpl.
    case_bool_decide as Hu; simpl.
    + destruct (outputDir_ok backend i) eqn:Hok; simpl.
      * destruct (valid_concurrency (processPool cliArgs)); simpl;
          intros Htr; apply app_inv_head in Htr as <-; by exists [].
      * intros Htr; apply app_inv_head in Htr as <-; by exists [].
    + intros Htr; apply app_inv_head in Htr as <-; by exists [].
  - destruct Hl as [rest ->].
    revert Htr. unfold sitemap_step. simpl.
    destruct (inner_tick backend cliArgs website i c p w) as [p' w'].
    destruct (drained p'); simpl; intros _; exists (rest ++ evs);
      by rewrite app_assoc.
Qed.

Lemma sitemap_step_elsewhere (i c : nat) (t : SitemapTask) (w : World) :
  swf t → sitemap_settled t = false → st_index t ≠ i →
  ∃ evs, trace (sstep c t w).2 = trace w ++ evs
         ∧ filter (λ e, event_sitemap e = Some i) evs = [].
Proof.
  intros Hwf Hs Hi.
  destruct (sitemap_step_tag backend cliArgs website c t w Hwf Hs)
    as (evs & Htr & Htag).
  exists evs. split; [done|].
  apply filter_none. eapply Forall_impl; [exact Htag|].
  intros e He Heq. rewrite He in Heq. by simplify_eq.
Qed.

Lemma sitemap_events_tag (i : nat) (sitemap : WebsiteSitemap) :
  Forall (λ e, event_sitemap e = Some i)
    (sitemap_events backend cliArgs website i sitemap).
Proof.
  unfold sitemap_events. apply Forall_app. split.
  - unfold sitemap_prologue. case_bool_decide; by repeat constructor.
  - destruct (sitemap_runs backend cliArgs i sitemap); [|constructor].
    apply Forall_bind, Forall_forall. intros [j url] _. simpl.
    eapply Forall_impl; [apply page_hist_origin|].
    intros e He. unfold event_sitemap. by rewrite He.
Qed.

Lemma run_events_of_sitemap (i : nat) (sitemap : WebsiteSitemap) :
  sitemaps website !! i = Some sitemap →
  filter (λ e, event_sitemap e = Some i) (run_events backend cliArgs website)
  ≡ₚ sitemap_events backend cliArgs website i sitemap.
Proof.
  intros Hi. unfold run_events.
  assert (Hlook : indexed (sitemaps website) !! i = Some (i, sitemap)).
  { unfold indexed. by rewrite list_lookup_imap, Hi. }
  assert (Hnd : NoDup (indexed (sitemaps website)).*1).
  { rewrite indexed_fst. apply NoDup_seq. }
  rewrite (delete_Permutation _ _ _ Hlook) in Hnd |- *.
  csimpl in *. apply NoDup_cons in Hnd as [Hnotin _].
  rewrite filter_app, (filter_all _ _ (sitemap_events_tag i sitemap)).
  rewrite (filter_none _ (_ ≫= _)); [by rewrite app_nil_r|].
  apply Forall_bind, Forall_forall. intros [i' sm'] Hin. simpl.
  eapply Forall_impl; [apply sitemap_events_tag|].
  intros e He Heq. rewrite He in Heq. injection Heq as ->.
  apply Hnotin. by apply (list_elem_of_fmap_2 fst) in Hin.
Qed.

(** Among the calls of the outer pool, those made on behalf of a sitemap
    start with the call [processSitemap] makes itself; the calls for its
    URLs come after. *)
Lemma outer_process_segment (sched : Schedule) (w : World) (evs : list Event)
    (i : nat) (sitemap : WebsiteSitemap) :
  trace (outer_process backend cliArgs website sched w).2 = trace w ++ evs →
  sitemaps website !! i = Some sitemap →
  ∃ rest,
    filter (λ e, event_sitemap e = Some i) evs
    = sitemap_prologue backend cliArgs website i sitemap ++ rest
    ∧ rest ≡ₚ (if sitemap_runs backend cliArgs i sitemap
               then indexed (urls sitemap)
                      ≫= λ jx, page_events backend cliArgs website outDir i jx.1 jx.2
               else []).
Proof.
  intros Hpools Hi.
  destruct (outer_process_spec backend cliArgs website sched w)
    as (evs' & (Htr' & _) & Hperm).
  assert (evs' = evs) as -> by (rewrite Htr' in Hpools; by simplify_list_eq).
  clear Htr'. revert Hpools.
  unfold outer_process, process.
  set (p0 := outer_pool website). set (fuel := pool_cost _ _ p0).
  intros Htr.
  pose proof (outer_pool_wf backend cliArgs website) as Hwf0. fold p0 in Hwf0.
  pose proof (run_ticks_wf sitemap_spawn sstep sitemap_settled swf
                (sitemap_step_wf backend cliArgs website)
                fuel sched p0 w Hwf0) as Hwf.
  pose proof (run_ticks_drained sitemap_spawn sstep sitemap_settled
                sitemap_cost swf
                (sitemap_step_wf backend cliArgs website)
                (sitemap_step_cost backend cliArgs website)
                fuel sched p0 w Hwf0 (Nat.le_refl _)) as Hd.
  pose proof (run_ticks_origin sitemap_spawn sstep sitemap_settled swf
                (sitemap_step_wf backend cliArgs website)
                sitemap_item (sitemap_step_item backend cliArgs website)
                fuel sched p0 w Hwf0) as Ho.
  assert (Hitems0 : sitemap_item <$> pool_tasks sitemap_spawn p0
                    = indexed (sitemaps website)).
  { unfold p0, outer_pool.
    apply (new_pool_origin sitemap_spawn sitemap_item (λ _ _, eq_refl)). }
  destruct (run_ticks_owner sitemap_spawn sstep sitemap_settled swf
              (λ e, event_sitemap e = Some i)
              st_index i (sitemap_calls_at backend cliArgs website)
              (sitemap_step_wf backend cliArgs website)
              (λ c t w, f_equal fst (sitemap_step_item backend cliArgs website c t w))
              (sitemap_step_segment i) (sitemap_step_elsewhere i)
              fuel sched p0 w [] Hwf0) as (evs' & Htr' & Hall).
  { assert (st_index <$> pool_tasks sitemap_spawn p0
            = (sitemap_item <$> pool_tasks sitemap_spawn p0).*1) as ->.
    { by rewrite <- list_fmap_compose. }
    rewrite Hitems0, indexed_fst. apply NoDup_seq. }
  { unfold p0, pool_tasks, live, outer_pool, new_pool. simpl.
    apply Forall_fmap, Forall_forall. by intros [i' sm] _ _. }
  assert (evs' = evs) as -> by (rewrite Htr' in Htr; by simplify_list_eq).
  destruct (run_ticks sitemap_spawn sstep sitemap_settled fuel sched p0 w)
    as [p' w']. simpl in *.
  rewrite (drained_tasks _ p' Hd) in *. rewrite Hitems0 in Ho.
  destruct Hwf as (_ & _ & Hfin & _).
  assert (Hin : (i, sitemap) ∈ sitemap_item <$> finished p').
  { rewrite Ho. unfold indexed. apply list_elem_of_lookup. exists i.
    by rewrite list_lookup_imap, Hi. }
  apply list_elem_of_fmap in Hin as (t & Ht & Hin).
  rewrite Forall_forall in Hall, Hfin.
  destruct (Hfin t Hin) as [Hwft Hst].
  destruct t as [i' sm pc]. unfold sitemap_item in Ht. simpl in Ht.
  injection Ht as <- <-.
  specialize (Hall _ Hin eq_refl).
  unfold sitemap_calls_at, sitemap_settled in *. simpl in *.
  destruct pc as [|p|r fin]; simpl in *; [done|done|].
  destruct Hall as [rest Hrest]. exists rest. split; [done|].
  pose proof (run_events_of_sitemap i sitemap Hi) as Hsel.
  rewrite <- Hperm, Hrest in Hsel. unfold sitemap_events in Hsel.
  by apply Permutation_app_inv_l in Hsel.
Qed.

End RunOrder.

(** ** Outcomes and calls of [page.pdf] *)

Lemma pdf_calls_recorded_app (evs1 evs2 : list Event) :
  pdf_calls_recorded evs1 → pdf_calls_recorded evs2 →
  pdf_calls_recorded (evs1 ++ evs2).
Proof.
  unfold pdf_calls_recorded. intros H1 H2.
  by rewrite omap_app, stored_app, fmap_app, H1, H2.
Qed.

Lemma pdf_calls_recorded_cancel (evs1 evs2 : list Event) :
  pdf_calls_recorded (evs1 ++ evs2) → pdf_calls_recorded evs1 →
  pdf_calls_recorded evs2.
Proof.
  unfold pdf_calls_recorded. rewrite omap_app, stored_app, fmap_app.
  intros H12 H1. rewrite H1 in H12. by apply app_inv_head in H12.
Qed.

Lemma pdf_calls_recorded_outside (evs : list Event) :
  Forall (λ e, outside_pages e.2 = true) evs → pdf_calls_recorded evs.
Proof.
  unfold pdf_calls_recorded, stored.
  induction 1 as [|[o a] evs Ha _ IH]; csimpl; [done|].
  unfold pdf_call at 1. simpl in *. by destruct a.
Qed.

Section PdfCalls.
Context `{Helpers}.
Variable backend : Backend.
Variable cliArgs : ICliArguments.
Variable website : Website.

Local Abbreviation outDir := (normalized_outputDir cliArgs).
Local Abbreviation pstep :=
  (λ _ : nat, page_step backend cliArgs website (normalized_outputDir cliArgs)).
Local Abbreviation phist :=
  (page_hist backend cliArgs website (normalized_outputDir cliArgs)).
Local Abbreviation pwf := (page_wf backend).
Local Abbreviation sstep := (sitemap_step backend cliArgs website).
Local Abbreviation swf := (sitemap_wf backend cliArgs).

Lemma page_hist_recorded (t : PageTask) : pdf_calls_recorded (phist t).
Proof.
  destruct t as [i j url pc]. unfold pdf_calls_recorded, page_hist. simpl.
  destruct pc as [| | | | md | [|[]] | [|[]]]; reflexivity.
Qed.

Lemma page_step_recorded (i c : nat) (t : PageTask) (w : World) :
  pwf i t → page_settled t = false →
  ∃ evs, trace (pstep c t w).2 = trace w ++ evs ∧ pdf_calls_recorded evs.
Proof.
  intros Hwf Hs.
  destruct (page_step_exact backend cliArgs website i c t w Hwf Hs)
    as (evs & Htr & Hh & _).
  exists evs. split; [done|].
  apply (pdf_calls_recorded_cancel (phist t)); [|apply page_hist_recorded].
  rewrite <- Hh. apply page_hist_recorded.
Qed.

Lemma sitemap_step_recorded (c : nat) (t : SitemapTask) (w : World) :
  swf t → sitemap_settled t = false →
  ∃ evs, trace (sstep c t w).2 = trace w ++ evs ∧ pdf_calls_recorded evs.
Proof.
  destruct t as [i sm pc]. unfold sitemap_wf, sitemap_settled, sitemap_step.
  simpl. destruct pc as [|p|r fin]; simpl; intros Hwf Hs; [| |done].
  - destruct (bool_decide _), (outputDir_ok backend i),
      (valid_concurrency (processPool cliArgs)); simpl;
      (eexists; split; [done|]);
      apply pdf_calls_recorded_outside; by repeat constructor.
  - destruct Hwf as (_ & _ & Hp & _). unfold inner_tick.
    destruct (tick_closed (page_spawn i) pstep page_settled (pwf i)
                pdf_calls_recorded eq_refl (page_step_recorded i) c p w Hp)
      as (evs & Htr & HQ).
    destruct (tick (page_spawn i) pstep page_settled c p w) as [p' w'].
    exists evs. by destruct (drained p').
Qed.

(** X6.  In a whole run, the outcomes recorded are those of the calls of
    [page.pdf], one for one and in the order in which these calls settle
    (with several conversions in flight this need not be the order in
    which they were made): the path recorded is the path the PDF was to
    be written to, and the status is PRINTED when the call succeeded and
    ERRORED when it failed. *)
Theorem run_outcomes_of_pdf_calls (sched : Schedule) (w : World) :
  let w' := (main backend cliArgs website sched w).2 in
  ∃ new,
    results w' = results w ++ new
    ∧ outcome_key <$> new
      = omap pdf_call (run_calls backend cliArgs website sched w).
Proof.
  intros w'.
  destruct (run_calls_spec backend cliArgs website sched w)
    as (evs & Hcalls & _ & Hres & _).
  fold w' in Hcalls, Hres.
  destruct (run_calls_pools backend cliArgs website sched w)
    as (w1 & evs' & Hcalls' & Hpools).
  fold w' in Hcalls'.
  assert (evs' = evs) as ->.
  { rewrite Hcalls in Hcalls'. by simplify_list_eq. }
  exists (stored evs). split; [done|]. rewrite Hcalls.
  assert (Hout : ∀ l, Forall (λ e, outside_pages e.2 = true) l →
                      omap pdf_call l = []).
  { induction 1 as [|[o a] l Ha _ IH]; csimpl; [done|].
    unfold pdf_call at 1. simpl in *. by destruct a. }
  rewrite !omap_app.
  rewrite (Hout _ (run_prologue_outside backend website)).
  rewrite (Hout _ (run_epilogue_outside backend website _)).
  rewrite app_nil_r. simpl.
  destruct (pools_run backend website); [|by subst evs].
  symmetry. revert Hpools. unfold outer_process, process. intros Htr.
  set (site := started_website backend cliArgs website) in *.
  destruct (run_ticks_closed sitemap_spawn sstep sitemap_settled swf
              pdf_calls_recorded
              (sitemap_step_wf backend cliArgs website)
              eq_refl pdf_calls_recorded_app sitemap_step_recorded
              (pool_cost sitemap_spawn sitemap_cost (outer_pool site))
              sched (outer_pool site) w1
              (outer_pool_wf backend cliArgs site)) as (evs' & Htr' & HQ).
  assert (trace w1 ++ evs' = trace w1 ++ evs) as Heq.
  { etrans; [symmetry; exact Htr' | exact Htr]. }
  apply app_inv_head in Heq as <-. done.
Qed.

End PdfCalls.

(** ** Directories and PDF options of a whole run *)

Section RunContents.
Context `{Helpers}.
Variable backend : Backend.
Variable cliArgs : ICliArguments.
Variable website : Website.

Local Abbreviation outDir := (normalized_outputDir cliArgs).
Local Abbreviation pages := (run_pages backend cliArgs website).
Local Abbreviation answers := (page_answers backend).
Local Abbreviation calls_of := (page_calls backend cliArgs website).

(** Every call of a run is a call of [main] or [processSitemaps], of
    [processSitemap], or of [pageToPDF] for a URL handed to it. *)
Lemma run_calls_elem (sched : Schedule) (w : World) (e : Event) :
  let w' := (main backend cliArgs website sched w).2 in
  e ∈ run_calls backend cliArgs website sched w
  ↔ e ∈ run_prologue backend website
    ∨ e ∈ sitemap_calls backend cliArgs website
    ∨ (∃ p, p ∈ pages ∧ e ∈ calls_of p)
    ∨ e ∈ run_epilogue backend website (results w').
Proof.
  intros w'.
  destruct (run_calls_spec backend cliArgs website sched w)
    as (evs & -> & Hperm & _).
  fold w'. rewrite !elem_of_app, Hperm, elem_of_app, list_elem_of_bind.
  naive_solver.
Qed.


Lemma page_events_pdf (dir : string) (i j : nat) (url : URL) (e : Event)
    (options : PdfOptions) (ok : bool) :
  e ∈ page_events backend cliArgs website dir i j url →
  e.2 = APdf options ok →
  let b := page_backend backend i j in
  e.1 = OPage i j
  ∧ reaches_render b = true
  ∧ options = pdf_options cliArgs website dir url (page_metadata b)
  ∧ ok = pdf_ok b.
Proof.
  unfold page_events, page_final, page_hist, page_settlement, behaviour,
    reaches_render. simpl.
  destruct (page_backend backend i j) as [[] [] [] ? [?|] []]; simpl;
    rewrite ?elem_of_cons, ?elem_of_nil; intros Hin Heq;
    destruct_or?; subst e; simpl in Heq; simplify_eq; try done.
Qed.


(** X7.  Every call of [page.pdf] in a run is made for a URL handed to
    [pageToPDF], whose navigation and [meta] query succeeded, with the
    options of that URL: its own path, the templates interpolated with its
    own metadata, the margins and the header switch of the command line,
    format a4, no timeout, and backgrounds printed. *)
Theorem run_pdf_options (sched : Schedule) (w : World) (e : Event)
    (options : PdfOptions) (ok : bool) :
  e ∈ run_calls backend cliArgs website sched w →
  e.2 = APdf options ok →
  (∃ p, p ∈ pages
        ∧ e.1 = OPage p.1.1 p.1.2
        ∧ reaches_render (answers p) = true
        ∧ options = pdf_options cliArgs website outDir p.2
                      (page_metadata (answers p))
        ∧ ok = pdf_ok (answers p))
  ∧ pdf_timeout options = 0
  ∧ pdf_format options = "a4"
  ∧ pdf_printBackground options = true
  ∧ pdf_displayHeaderFooter options = displayHeaderFooter cliArgs
  ∧ pdf_margin options
    = {| top := marginTop cliArgs; bottom := marginBottom cliArgs;
         left := marginLeft cliArgs; right := marginRight cliArgs |}.
Proof.
  intros Hin Heq.
  assert (Hp : ∃ p, p ∈ pages ∧ e ∈ calls_of p).
  { apply run_calls_elem in Hin as [Hin | [Hin | [Hin | Hin]]]; [| |done|].
    - pose proof (run_prologue_outside backend website) as Hout.
      rewrite Forall_forall in Hout. specialize (Hout e Hin).
      by rewrite Heq in Hout.
    - pose proof (sitemap_calls_outside backend cliArgs website) as Hout.
      rewrite Forall_forall in Hout. specialize (Hout e Hin).
      by rewrite Heq in Hout.
    - pose proof (run_epilogue_outside backend website
                    (results (main backend cliArgs website sched w).2)) as Hout.
      rewrite Forall_forall in Hout. specialize (Hout e Hin).
      by rewrite Heq in Hout. }
  destruct Hp as ([[i j] url] & Hp & Hcall).
  destruct (page_events_pdf outDir i j url e options ok Hcall Heq)
    as (Ho & Hr & Hopt & Hok).
  split; [by exists (i, j, url)|]. by rewrite Hopt.
Qed.

End RunContents.

(** ** The metadata of a page (lines 224-247) *)

(** X10.  The metadata map handed to the continuation of line 248 never
    holds the empty name, and under any other name than ["title"] it
    holds the content of the last [meta] element of that name, [null]
    when that element has no [content] attribute; a name no element bears
    is absent. *)
Theorem metadata_of_names (ta : TitleArrival)
    (elements : list (JsString * JsString)) :
  let md := collect_metadata ta elements in
  md !! EmptyString = None
  ∧ ∀ n, n ≠ EmptyString → n ≠ "title" → md !! n = last (named n elements).
Proof.
  intros md. unfold md, collect_metadata. split.
  - destruct ta; rewrite ?lookup_insert_ne by done;
      rewrite set_metas_lookup, bool_decide_true by done;
      rewrite ?lookup_insert_ne by done; done.
  - intros n Hn Ht.
    destruct ta; rewrite ?lookup_insert_ne by done;
      rewrite set_metas_lookup, bool_decide_false by done;
      rewrite ?lookup_insert_ne by done; rewrite lookup_empty;
      by destruct (last (named n elements)).
Qed.

(** X11.  The entry ["title"] of the metadata, from which the file name
    is derived: the answer of [page.title()] when it arrived after the
    [meta] elements were stored; when it arrived before, the content of
    the last [meta] element named ["title"] if there is one, and the
    answer of [page.title()] otherwise; when it arrived too late, the
    content of that element alone.  A [meta] element named ["title"]
    without [content] leaves no title for the file name. *)
Theorem metadata_title (ta : TitleArrival)
    (elements : list (JsString * JsString)) :
  let md := collect_metadata ta elements in
  md !! "title"
  = match ta with
    | TitleBeforeMetas title =>
        Some (default (Some title) (last (named "title" elements)))
    | TitleAfterMetas title => Some (Some title)
    | TitleLate => last (named "title" elements)
    end
  ∧ get_title md
    = match ta with
      | TitleBeforeMetas title =>
          default (Some title) (last (named "title" elements))
      | TitleAfterMetas title => Some title
      | TitleLate => default None (last (named "title" elements))
      end.
Proof.
  intros md.
  assert (Hl : md !! "title"
    = match ta with
      | TitleBeforeMetas title =>
          Some (default (Some title) (last (named "title" elements)))
      | TitleAfterMetas title => Some (Some title)
      | TitleLate => last (named "title" elements)
      end).
  { unfold md, collect_metadata.
    destruct ta; rewrite ?lookup_insert_eq; try done;
      rewrite set_metas_lookup, bool_decide_false by done;
      rewrite ?lookup_insert_eq, ?lookup_empty;
      by destruct (last (named "title" elements)). }
  split; [done|]. unfold get_title. rewrite Hl.
  destruct ta; simpl; try done.
  - by destruct (last (named "title" elements)) as [[?|]|].
  - by destruct (last (named "title" elements)) as [[?|]|].
Qed.

(** ** How a run ends *)

Lemma indexed_snd {A} (l : list A) : (indexed l).*2 = l.
Proof.
  unfold indexed. apply list_eq. intros k.
  rewrite list_lookup_fmap, list_lookup_imap. by destruct (l !! k).
Qed.

Lemma fmap_bind_list {A B C} (f : B → C) (g : A → list B) (l : list A) :
  f <$> (l ≫= g) = l ≫= (λ x, f <$> g x).
Proof.
  induction l as [|x l IH]; csimpl; [done|]. by rewrite fmap_app, IH.
Qed.

Section RunEnd.
Context `{Helpers}.
Variable backend : Backend.
Variable cliArgs : ICliArguments.
Variable website : Website.

Local Abbreviation outDir := (normalized_outputDir cliArgs).
Local Abbreviation pages := (run_pages backend cliArgs website).
Local Abbreviation answers := (page_answers backend).
Local Abbreviation calls_of := (page_calls backend cliArgs website).

(** X1.  The promise of [main] rejects when the browser cannot be
    launched, when its version cannot be read, when the incognito context
    cannot be created, and when the concurrency given to the inner pool
    is refused (it is below 1) for a sitemap that has URLs and whose
    output directory could be made: the error of the inner pool stops
    the outer pool, which throws it again.  Whatever else fails for a
    sitemap or a URL, under whatever schedule, [main] fulfils.  The
    statement is about runs that reach the end of [main]; [browser.close]
    is taken to succeed. *)
Theorem main_settlement (sched : Schedule) (w : World) :
  (main backend cliArgs website sched w).1
  = (if bool_decide (length (sitemaps website) ≠ 0)
     then if launch_ok backend
          then if version_ok backend
               then if context_ok backend
                    then if pool_stops backend cliArgs website
                         then Rejected ValidationError
                         else Fulfilled
                    else Rejected ContextError
               else Rejected VersionError
          else Rejected LaunchError
     else Fulfilled)
  ∧ (pool_stops backend cliArgs website = true
     ↔ processPool cliArgs < 1
       ∧ ∃ i sitemap, sitemaps website !! i = Some sitemap
                      ∧ length (urls sitemap) ≠ 0
                      ∧ outputDir_ok backend i = true).
Proof.
  split; [|apply pool_stops_spec].
  unfold main, processSitemaps, browser_chain.
  destruct (bool_decide _); [|done].
  destruct (launch_ok backend); [|done].
  destruct (version_ok backend); [|done].
  destruct (context_ok backend); [|done].
  set (w1 := emit OMain (ANewContext true) _).
  rewrite <- (pool_run_settlement backend cliArgs website sched w1).
  by destruct (pool_run backend cliArgs website sched w1).
Qed.

Lemma stored_outside (evs : list Event) :
  Forall (λ e, outside_pages e.2 = true) evs → stored evs = [].
Proof.
  unfold stored. induction 1 as [|[o a] evs Ha _ IH]; csimpl; [done|].
  simpl in *. by destruct a.
Qed.

(** The outcomes of a run are those of the URLs handed to [pageToPDF],
    in some order. *)
Lemma run_results (sched : Schedule) (w : World) :
  let w' := (main backend cliArgs website sched w).2 in
  ∃ new,
    results w' = results w ++ new
    ∧ new ≡ₚ pages ≫= λ p, page_recorded backend cliArgs outDir p.1.1 p.1.2 p.2.
Proof.
  intros w'.
  destruct (run_calls_spec backend cliArgs website sched w)
    as (evs & _ & Hperm & Hres & _).
  exists (stored evs). split; [done|].
  unfold stored at 1. rewrite Hperm. fold (stored (sitemap_calls backend cliArgs website
                                    ++ (pages ≫= calls_of))).
  rewrite stored_app, (stored_outside _ (sitemap_calls_outside backend cliArgs website)).
  simpl. rewrite stored_bind. apply reflexive_eq, list_bind_ext; [|done].
  intros [[i j] url]. apply stored_page_events.
Qed.

Lemma all_fine_pages :
  all_fine backend → 1 ≤ processPool cliArgs →
  pages.*2 = run_urls website.
Proof.
  intros (Hl & Hv & Hc & Hod & _) Hn.
  unfold run_pages, run_urls, pools_run. rewrite Hl, Hv, Hc.
  rewrite !andb_true_r.
  case_bool_decide as Hs.
  2:{ destruct (sitemaps website); [done | simpl in Hs; lia]. }
  rewrite fmap_bind_list.
  rewrite <- (indexed_snd (sitemaps website)) at 2.
  rewrite bind_fmap_list. apply list_bind_ext; [|done].
  intros [i sm]. simpl. unfold sitemap_runs.
  rewrite Hod, (proj2 (valid_concurrency_spec _) Hn), !andb_true_r.
  case_bool_decide as Hu.
  - rewrite <- list_fmap_compose. apply (indexed_snd (urls sm)).
  - destruct (urls sm); [done | simpl in Hu; lia].
Qed.

(** X9.  When nothing fails, and the concurrency is valid, a run records one
    PRINTED outcome for every URL of every sitemap and no other outcome,
    opens one page context per URL, leaves none open, and [main]
    fulfils. *)
Theorem run_all_fine (sched : Schedule) (w : World) :
  all_fine backend →
  1 ≤ processPool cliArgs →
  let w' := (main backend cliArgs website sched w).2 in
  let calls := run_calls backend cliArgs website sched w in
  (main backend cliArgs website sched w).1 = Fulfilled
  ∧ (∃ new, results w' = results w ++ new
            ∧ oc_url <$> new ≡ₚ run_urls website
            ∧ Forall (λ o, oc_status o = STATUS_PRINTED) new)
  ∧ count is_open calls = length (run_urls website)
  ∧ count is_close calls = length (run_urls website).
Proof.
  intros Hfine Hn w' calls.
  pose proof (all_fine_pages Hfine Hn) as Hpages.
  destruct Hfine as (Hl & Hv & Hc & Hod & Hpage).
  assert (Hrec : ∀ p, page_recorded backend cliArgs outDir p.1.1 p.1.2 p.2
    = [{| oc_url := p.2;
          oc_filePath := filePath cliArgs outDir p.2 (page_metadata (answers p));
          oc_status := STATUS_PRINTED |}]).
  { intros [[i j] url]. unfold page_recorded, reaches_render, behaviour,
      page_answers. simpl.
    destruct (Hpage i j) as (-> & -> & -> & Hm & ->).
    by rewrite bool_decide_true by done. }
  split_and!.
  - rewrite main_result, Hl, Hv, Hc.
    destruct (pool_stops backend cliArgs website) eqn:Hstop;
      [|by destruct (bool_decide _)].
    apply pool_stops_spec in Hstop as [Hstop _]. lia.
  - destruct (run_results sched w) as (new & Hres & Hperm).
    exists new. split; [done|].
    erewrite list_bind_ext in Hperm; [| intros p; apply Hrec | done].
    split.
    + rewrite Hperm, fmap_bind_list. simpl. rewrite <- Hpages.
      clear. induction pages as [|p l IH]; csimpl; [done | by rewrite IH].
    + rewrite Hperm. apply Forall_bind, Forall_forall. intros p _.
      by repeat constructor.
  - unfold calls. rewrite (run_count backend cliArgs website is_open (λ _, true)).
    + rewrite <- Hpages, length_fmap. f_equal. apply filter_all.
      by apply Forall_forall.
    + by intros [o []].
    + intros [[i j] url].
      unfold page_calls, page_events, page_final, page_hist, page_settlement,
        behaviour, count. simpl.
      destruct (Hpage i j) as (-> & -> & -> & [m ->] & ->). done.
  - unfold calls. rewrite (run_count backend cliArgs website is_close (λ _, true)).
    + rewrite <- Hpages, length_fmap. f_equal. apply filter_all.
      by apply Forall_forall.
    + by intros [o []].
    + intros [[i j] url].
      unfold page_calls, page_events, page_final, page_hist, page_settlement,
        behaviour, count. simpl.
      destruct (Hpage i j) as (-> & -> & -> & [m ->] & ->). done.
Qed.

End RunEnd.

(** ** Lists sorted by a tag *)

Lemma bind_ext_in {A B} (f g : A → list B) (l : list A) :
  (∀ x, x ∈ l → f x = g x) → l ≫= f = l ≫= g.
Proof.
  induction l as [|x l IH]; intros Hfg; csimpl; [done|].
  rewrite Hfg, IH; [done | | left]. intros y Hy. apply Hfg. by right.
Qed.

(** A list sorted by the tags of its elements is made of the elements of
    tag 0, then those of tag 1, and so on. *)
Lemma sorted_segments {A} (tag : A → option nat) (l : list A) (n : nat) :
  StronglySorted le (omap tag l) →
  Forall (λ x, ∃ k, tag x = Some k ∧ k < n) l →
  l = seq 0 n ≫= (λ k, filter (λ x, tag x = Some k) l).
Proof.
  induction l as [|x l IH]; intros Hsorted Hall.
  { symmetry. apply bind_nil_all, Forall_forall. by intros k _. }
  apply Forall_cons in Hall as [(k0 & Hx & Hk0) Hall].
  csimpl in Hsorted. rewrite Hx in Hsorted. simpl in Hsorted.
  apply StronglySorted_cons in Hsorted as [Hle Hsorted].
  specialize (IH Hsorted Hall).
  assert (Hseq : seq 0 n = seq 0 k0 ++ k0 :: seq (S k0) (n - S k0)).
  { replace n with (k0 + S (n - S k0)) at 1 by lia.
    by rewrite seq_app. }
  assert (Hlow : ∀ k, k < k0 → filter (λ y, tag y = Some k) l = []).
  { intros k Hk. apply filter_none, Forall_forall. intros y Hy Hty.
    rewrite Forall_forall in Hle. specialize (Hle k).
    assert (k0 ≤ k); [|lia].
    apply Hle, list_elem_of_omap. by exists y. }
  rewrite Hseq in IH |- *. rewrite !bind_app in IH |- *. csimpl in *.
  rewrite (bind_nil_all _ (seq 0 k0)) in IH.
  2:{ apply Forall_forall. intros k Hk. apply elem_of_seq in Hk.
      apply Hlow. lia. }
  rewrite (bind_nil_all _ (seq 0 k0)).
  2:{ apply Forall_forall. intros k Hk. apply elem_of_seq in Hk.
      rewrite filter_cons_False by (rewrite Hx; intros ?; simplify_eq; lia).
      apply Hlow. lia. }
  simpl in *. rewrite filter_cons_True by done. simpl. f_equal.
  rewrite IH at 1. f_equal.
  apply bind_ext_in. intros k Hk. apply elem_of_seq in Hk.
  rewrite filter_cons_False; [done|]. rewrite Hx. intros ?. simplify_eq. lia.
Qed.

(** ** The shape of a whole run *)

Lemma concat_fmap_bind {A B} (f : A → list B) (l : list A) :
  concat (f <$> l) = l ≫= f.
Proof. induction l as [|x l IH]; csimpl; [done | by rewrite IH]. Qed.

Section RunShape.
Context `{Helpers}.
Variable backend : Backend.
Variable cliArgs : ICliArguments.
Variable website : Website.

Local Abbreviation outDir := (normalized_outputDir cliArgs).

Lemma run_events_tags :
  Forall (λ e, ∃ i, event_sitemap e = Some i ∧ i < length (sitemaps website))
    (run_events backend cliArgs website).
Proof.
  unfold run_events. apply Forall_bind, Forall_forall. intros [i sm] Hin.
  unfold indexed in Hin. apply list_elem_of_lookup in Hin as [k Hk].
  apply list_lookup_imap_Some in Hk as (sm' & Hk & Heq). simplify_eq.
  apply lookup_lt_Some in Hk.
  eapply Forall_impl; [apply sitemap_events_tag|]. intros e He. by exists k.
Qed.

(** The calls of the outer pool come sitemap after sitemap: first all the
    calls made on behalf of the first sitemap, then those of the second,
    and so on. *)
Lemma outer_process_segments (sched : Schedule) (w : World) (evs : list Event) :
  trace (outer_process backend cliArgs website sched w).2 = trace w ++ evs →
  evs = seq 0 (length (sitemaps website))
          ≫= λ i, filter (λ e, event_sitemap e = Some i) evs.
Proof.
  intros Htr.
  destruct (outer_process_serial backend cliArgs website sched w)
    as (evs1 & Htr1 & Hsorted).
  assert (evs1 = evs) as -> by (rewrite Htr1 in Htr; by simplify_list_eq).
  destruct (outer_process_spec backend cliArgs website sched w)
    as (evs2 & (Htr2 & _) & Hperm).
  assert (evs2 = evs) as -> by (rewrite Htr2 in Htr; by simplify_list_eq).
  apply sorted_segments; [done|]. rewrite Hperm. apply run_events_tags.
Qed.

End RunShape.

Section StartedShape.
Context `{Helpers}.
Variable backend : Backend.
Variable cliArgs : ICliArguments.
Variable website : Website.

Local Abbreviation outDir := (normalized_outputDir cliArgs).
Local Abbreviation started := (started_sitemaps backend cliArgs website).

(** X3.  In a run whose pools are run, the calls between those of
    [processSitemaps] before the pools and the final report come sitemap
    after sitemap, in the order of the sitemaps, for the sitemaps that
    are started; those of a sitemap start with the call [processSitemap]
    makes itself, the creation of the output directory or the warning
    that the sitemap has no URL, and go on, when the pool of the sitemap
    is run, with the calls of its URLs, interleaved in some way.  The
    sitemaps that are started are the first ones of the site: a sitemap
    is started when no sitemap before it stopped the outer pool, which a
    sitemap does when it has URLs, its output directory could be made
    and the concurrency of the inner pool is refused; with a concurrency
    of at least 1 every sitemap is started. *)
Theorem run_shape (sched : Schedule) (w : World) :
  pools_run backend website = true →
  let w' := (main backend cliArgs website sched w).2 in
  (∃ segments,
     run_calls backend cliArgs website sched w
     = run_prologue backend website ++ concat segments
       ++ run_epilogue backend website (results w')
     ∧ Forall2
         (λ ix segment, ∃ rest,
            segment = sitemap_prologue backend cliArgs website ix.1 ix.2 ++ rest
            ∧ rest ≡ₚ (if sitemap_runs backend cliArgs ix.1 ix.2
                       then indexed (urls ix.2)
                              ≫= λ jx, page_events backend cliArgs website
                                         outDir ix.1 jx.1 jx.2
                       else []))
         (indexed started) segments)
  ∧ started `prefix_of` sitemaps website
  ∧ (∀ i, i < length started
          ↔ i < length (sitemaps website)
            ∧ ∀ k sitemap, k < i → sitemaps website !! k = Some sitemap →
                           sitemap_stops backend cliArgs k sitemap = false)
  ∧ (1 ≤ processPool cliArgs → started = sitemaps website).
Proof.
  intros Hrun w'. split_and!.
  2:{ apply started_prefix. }
  2:{ apply started_length. }
  2:{ intros Hn. apply started_valid. by apply valid_concurrency_spec. }
  destruct (run_calls_pools backend cliArgs website sched w)
    as (w1 & evs & Hcalls & Hpools).
  rewrite Hrun in Hpools. fold w' in Hcalls.
  set (site := started_website backend cliArgs website) in *.
  exists ((λ i, filter (λ e, event_sitemap e = Some i) evs)
            <$> seq 0 (length started)).
  split.
  - pose proof (outer_process_segments backend cliArgs site sched w1 evs Hpools)
      as Hsegs.
    change (sitemaps site) with started in Hsegs.
    by rewrite concat_fmap_bind, <- Hsegs.
  - apply Forall2_same_length_lookup_2.
    + unfold indexed. by rewrite length_imap, length_fmap, length_seq.
    + intros k [i sm] seg Hix Hseg.
      unfold indexed in Hix.
      apply list_lookup_imap_Some in Hix as (sm' & Hk & Heq). simplify_eq.
      rewrite list_lookup_fmap in Hseg.
      rewrite lookup_seq_lt in Hseg by (by eapply lookup_lt_Some).
      simpl in Hseg. injection Hseg as <-. simpl.
      exact (outer_process_segment backend cliArgs site sched w1 evs k sm'
               Hpools Hk).
Qed.

End StartedShape.

(** ** A run with a pool of one page at a time *)

Lemma filter_ext_in {A} (P Q : A → Prop) `{∀ x, Decision (P x)}
    `{∀ x, Decision (Q x)} (l : list A) :
  (∀ x, x ∈ l → P x ↔ Q x) → filter P l = filter Q l.
Proof.
  induction l as [|x l IH]; intros HPQ; [done|].
  rewrite !filter_cons, IH by (intros y Hy; apply HPQ; by right).
  destruct (decide (P x)) as [HP|HP], (decide (Q x)) as [HQ|HQ]; try done.
  - exfalso. apply HQ, HPQ; [left | done].
  - exfalso. apply HP, HPQ; [left | done].
Qed.

Section SequentialRun.
Context `{Helpers}.
Variable backend : Backend.
Variable cliArgs : ICliArguments.
Variable website : Website.

Hypothesis one_at_a_time : processPool cliArgs = 1.

Local Abbreviation outDir := (normalized_outputDir cliArgs).
Local Abbreviation pstep :=
  (λ _ : nat, page_step backend cliArgs website (normalized_outputDir cliArgs)).
Local Abbreviation pwf := (page_wf backend).
Local Abbreviation sstep := (sitemap_step backend cliArgs website).
Local Abbreviation swf := (sitemap_wf backend cliArgs).

Lemma page_step_tag (i c : nat) (t : PageTask) (w : World) :
  pwf i t → page_settled t = false →
  ∃ evs, trace (pstep c t w).2 = trace w ++ evs
         ∧ Forall (λ e, page_tag e = Some (pt_index t)) evs.
Proof.
  intros Hwf Hs.
  destruct (page_step_exact backend cliArgs website i c t w Hwf Hs)
    as (evs & Htr & _ & Ho).
  exists evs. split; [done|].
  eapply Forall_impl; [exact Ho|]. intros e He. unfold page_tag. by rewrite He.
Qed.

Lemma inner_pool_in_order (i : nat) (sitemap : WebsiteSitemap) :
  in_order (page_spawn i) pt_index page_tag (inner_pool cliArgs sitemap) [].
Proof.
  unfold in_order, live, inner_pool, new_pool. simpl. split_and!.
  - rewrite <- list_fmap_compose.
    erewrite list_fmap_ext; [rewrite indexed_fst; apply seq_sorted|].
    by intros ? [] ?.
  - constructor.
  - intros a t Ha. by apply elem_of_nil in Ha.
Qed.

Lemma sitemap_step_serial (i c : nat) (t : SitemapTask) (w : World)
    (l : list Event) :
  swf t → sitemap_settled t = false → st_index t = i →
  sitemap_serial_at backend cliArgs website t l →
  ∃ evs, trace (sstep c t w).2 = trace w ++ evs
         ∧ sitemap_serial_at backend cliArgs website (sstep c t w).1
             (l ++ filter (λ e, event_sitemap e = Some i) evs).
Proof.
  intros Hwf Hs Hi Hl.
  destruct (sitemap_step_tag backend cliArgs website c t w Hwf Hs)
    as (evs & Htr & Htag).
  exists evs. split; [done|]. rewrite Hi in Htag.
  rewrite (filter_all _ _ Htag).
  pose proof (sitemap_step_item backend cliArgs website c t w) as Hitem.
  injection Hitem as Hi' Hsm.
  unfold sitemap_serial_at in *. rewrite Hi', Hsm.
  destruct t as [i' sm pc]. unfold sitemap_settled, sitemap_wf in *.
  simpl in *. subst i'.
  destruct pc as [|p|r fin]; simpl in *; [| |done].
  - subst l. revert Htr. unfold sitemap_step, sitemap_prologue. simpl.
    case_bool_decide as Hu; simpl.
    + destruct (outputDir_ok backend i) eqn:Hok; simpl.
      * destruct (valid_concurrency (processPool cliArgs)); simpl;
          intros Htr; apply app_inv_head in Htr as <-; exists [];
          (split; [done|]); [apply inner_pool_in_order | constructor].
      * intros Htr; apply app_inv_head in Htr as <-. exists [].
        split; [done | constructor].
    + intros Htr; apply app_inv_head in Htr as <-. exists [].
      split; [done | constructor].
  - destruct Hl as (rest & -> & Hord).
    destruct Hwf as (_ & Hn & Hp & _).
    revert Htr. unfold sitemap_step, inner_tick. simpl.
    destruct (tick_in_order (page_spawn i) pstep page_settled (pwf i)
                pt_index page_tag
                (λ c t w, proj1 (proj2 (page_step_ids backend cliArgs website outDir t w)))
                (page_step_tag i) c p w rest) as (evs' & Htr' & Hord');
      [congruence | done | done |].
    destruct (tick (page_spawn i) pstep page_settled c p w) as [p' w'].
    simpl in *.
    destruct (drained p'); simpl; intros Htr; rewrite Htr' in Htr;
      apply app_inv_head in Htr as <-; exists (rest ++ evs');
      (split; [by rewrite app_assoc|]); [|done].
    apply Hord'.
Qed.

Lemma page_events_tag (i j : nat) (url : URL) :
  Forall (λ e, e.1 = OPage i j) (page_events backend cliArgs website outDir i j url).
Proof. apply (page_hist_origin backend cliArgs website outDir (page_final backend i j url)). Qed.

(** With one page at a time, the calls made on behalf of a sitemap are
    the call of [processSitemap] itself and then the calls of its URLs,
    URL after URL. *)
Lemma outer_process_sitemap_serial (sched : Schedule) (w : World)
    (evs : list Event) (i : nat) (sitemap : WebsiteSitemap) :
  trace (outer_process backend cliArgs website sched w).2 = trace w ++ evs →
  sitemaps website !! i = Some sitemap →
  filter (λ e, event_sitemap e = Some i) evs
  = sitemap_events backend cliArgs website i sitemap.
Proof.
  intros Htr Hi.
  destruct (outer_process_segment backend cliArgs website sched w evs i sitemap
              Htr Hi) as (rest & Hseg & Hperm).
  assert (Hsorted : StronglySorted le (omap page_tag rest)).
  { revert Htr. unfold outer_process, process.
    set (p0 := outer_pool website). set (fuel := pool_cost _ _ p0).
    intros Htr.
    pose proof (outer_pool_wf backend cliArgs website) as Hwf0. fold p0 in Hwf0.
    pose proof (run_ticks_wf sitemap_spawn sstep sitemap_settled swf
                  (sitemap_step_wf backend cliArgs website)
                  fuel sched p0 w Hwf0) as Hwf.
    pose proof (run_ticks_drained sitemap_spawn sstep sitemap_settled
                  sitemap_cost swf
                  (sitemap_step_wf backend cliArgs website)
                  (sitemap_step_cost backend cliArgs website)
                  fuel sched p0 w Hwf0 (Nat.le_refl _)) as Hd.
    pose proof (run_ticks_origin sitemap_spawn sstep sitemap_settled swf
                  (sitemap_step_wf backend cliArgs website)
                  sitemap_item (sitemap_step_item backend cliArgs website)
                  fuel sched p0 w Hwf0) as Ho.
    assert (Hitems0 : sitemap_item <$> pool_tasks sitemap_spawn p0
                      = indexed (sitemaps website)).
    { unfold p0, outer_pool.
      apply (new_pool_origin sitemap_spawn sitemap_item (λ _ _, eq_refl)). }
    destruct (run_ticks_owner sitemap_spawn sstep sitemap_settled swf
                (λ e, event_sitemap e = Some i)
                st_index i (sitemap_serial_at backend cliArgs website)
                (sitemap_step_wf backend cliArgs website)
                (λ c t w, f_equal fst (sitemap_step_item backend cliArgs website c t w))
                (sitemap_step_serial i)
                (sitemap_step_elsewhere backend cliArgs website i)
                fuel sched p0 w [] Hwf0) as (evs' & Htr' & Hall).
    { assert (st_index <$> pool_tasks sitemap_spawn p0
              = (sitemap_item <$> pool_tasks sitemap_spawn p0).*1) as ->.
      { by rewrite <- list_fmap_compose. }
      rewrite Hitems0, indexed_fst. apply NoDup_seq. }
    { unfold p0, pool_tasks, live, outer_pool, new_pool. simpl.
      apply Forall_fmap, Forall_forall. by intros [i' sm] _ _. }
    assert (evs' = evs) as -> by (rewrite Htr' in Htr; by simplify_list_eq).
    destruct (run_ticks sitemap_spawn sstep sitemap_settled fuel sched p0 w)
      as [p' w']. simpl in *.
    rewrite (drained_tasks _ p' Hd) in *. rewrite Hitems0 in Ho.
    destruct Hwf as (_ & _ & Hfin & _).
    assert (Hin : (i, sitemap) ∈ sitemap_item <$> finished p').
    { rewrite Ho. unfold indexed. apply list_elem_of_lookup. exists i.
      by rewrite list_lookup_imap, Hi. }
    apply list_elem_of_fmap in Hin as (t & Ht & Hin).
    rewrite Forall_forall in Hall, Hfin.
    destruct (Hfin t Hin) as [Hwft Hst].
    destruct t as [i' sm pc]. unfold sitemap_item in Ht. simpl in Ht.
    injection Ht as <- <-.
    specialize (Hall _ Hin eq_refl).
    unfold sitemap_serial_at, sitemap_settled in *. simpl in *.
    destruct pc as [|p|r fin]; simpl in *; [done|done|].
    destruct Hall as (rest' & Hrest' & Hs').
    rewrite Hseg in Hrest'. by apply app_inv_head in Hrest' as <-. }
  rewrite Hseg. unfold sitemap_events. f_equal.
  destruct (sitemap_runs backend cliArgs i sitemap) eqn:Hruns.
  2:{ by apply Permutation_nil_r in Hperm. }
  set (m := length (urls sitemap)).
  assert (Hin : ∀ e, e ∈ rest →
            ∃ j url, urls sitemap !! j = Some url ∧ e.1 = OPage i j).
  { intros e He. rewrite Hperm in He.
    apply list_elem_of_bind in He as ([j url] & He & Hjx).
    unfold indexed in Hjx. apply list_elem_of_lookup in Hjx as [k Hk].
    apply list_lookup_imap_Some in Hk as (url' & Hk & Heq). simplify_eq.
    exists k, url'. split; [done|].
    pose proof (page_events_tag i k url') as Ho.
    rewrite Forall_forall in Ho. by apply Ho. }
  assert (Hrange : Forall (λ e, ∃ j, page_tag e = Some j ∧ j < m) rest).
  { apply Forall_forall. intros e He.
    destruct (Hin e He) as (j & url & Hj & Ho). exists j. split.
    - unfold page_tag. by rewrite Ho.
    - by eapply lookup_lt_Some. }
  rewrite (sorted_segments page_tag rest m Hsorted Hrange) at 1.
  unfold m. rewrite <- (indexed_fst (urls sitemap)), bind_fmap_list.
  apply bind_ext_in. intros [j url] Hjx. simpl.
  unfold indexed in Hjx. apply list_elem_of_lookup in Hjx as [k Hk].
  apply list_lookup_imap_Some in Hk as (url' & Hk & Heq). simplify_eq.
  destruct (outer_process_projection backend cliArgs website i k sched w
              sitemap url' Hi Hk) as (evs' & Htr' & Hproj).
  assert (evs' = evs) as -> by (rewrite Htr' in Htr; by simplify_list_eq).
  rewrite Hruns in Hproj. rewrite <- Hproj.
  rewrite <- (list_filter_filter_l (A := Event) (λ e, e.1 = OPage i k)
                (λ e, event_sitemap e = Some i) evs).
  2:{ intros e He. unfold event_sitemap. by rewrite He. }
  rewrite Hseg, filter_app.
  rewrite (filter_none _ (sitemap_prologue _ _ _ _ _)).
  2:{ unfold sitemap_prologue. case_bool_decide; by repeat constructor. }
  simpl. apply filter_ext_in. intros e He.
  destruct (Hin e He) as (j & url & Hj & Ho).
  unfold page_tag. rewrite Ho. split; intros ?; by simplify_eq.
Qed.

(** With one page at a time, the calls of the outer pool are those of
    [run_events], in that very order. *)
Lemma outer_process_sequential (sched : Schedule) (w : World) (evs : list Event) :
  trace (outer_process backend cliArgs website sched w).2 = trace w ++ evs →
  evs = run_events backend cliArgs website.
Proof.
  intros Htr.
  rewrite (outer_process_segments backend cliArgs website sched w evs Htr).
  unfold run_events.
  rewrite <- (indexed_fst (sitemaps website)), bind_fmap_list.
  apply bind_ext_in. intros [i sm] Hix. simpl.
  unfold indexed in Hix. apply list_elem_of_lookup in Hix as [k Hk].
  apply list_lookup_imap_Some in Hk as (sm' & Hk & Heq). simplify_eq.
  by apply (outer_process_sitemap_serial sched w).
Qed.

(** X4.  With [processPool] set to 1 a run is sequential: whatever the
    schedule, its calls are those of [processSitemaps] before the pools,
    then sitemap after sitemap the call of [processSitemap] and the calls
    of [pageToPDF] URL after URL, each URL from its first call to its
    last, and then the final report; the outcomes are recorded in the
    order of the URLs. *)
Theorem run_sequential (sched : Schedule) (w : World) :
  let w' := (main backend cliArgs website sched w).2 in
  run_calls backend cliArgs website sched w
  = run_prologue backend website
    ++ (if pools_run backend website
        then run_events backend cliArgs website else [])
    ++ run_epilogue backend website (results w')
  ∧ results w'
    = results w ++ (if pools_run backend website
                    then run_recorded backend cliArgs website else []).
Proof.
  intros w'.
  destruct (run_calls_pools backend cliArgs website sched w)
    as (w1 & evs & Hcalls & Hpools).
  destruct (run_calls_spec backend cliArgs website sched w)
    as (evs' & Hcalls' & _ & Hres & _).
  fold w' in Hcalls, Hcalls', Hres.
  assert (evs' = evs) as ->.
  { rewrite Hcalls in Hcalls'. by simplify_list_eq. }
  rewrite Hcalls, Hres.
  destruct (pools_run backend website).
  - rewrite started_website_valid in Hpools
      by (apply valid_concurrency_spec; lia).
    rewrite (outer_process_sequential sched w1 evs Hpools).
    by rewrite stored_run_events.
  - by subst evs.
Qed.

End SequentialRun.

(** ** Whole runs on example inputs *)

(** With a concurrency of 1, three page contexts are open when the pool
    of a sitemap of three URLs, whose directories cannot be made, has
    drained. *)
Lemma C5_witness :
  let backend := example_backend (λ _ _, page_no_directory) in
  let sitemap := {| rootUrl := "sitemap.xml"; urls := ["a"; "b"; "c"] |} in
  let pw := inner_process (H := example_helpers) backend (example_cliArgs 1)
              (example_website [["a"; "b"; "c"]]) 0 [] sitemap empty_world in
  processPool (example_cliArgs 1) = 1
  ∧ ∃ evs, trace pw.2 = trace empty_world ++ evs ∧ open_pages evs = 3.
Proof.
  intros backend sitemap pw.
  assert (Hn : 1 ≤ processPool (example_cliArgs 1)) by (simpl; lia).
  destruct (C5_pages_open_beyond_bound (H := example_helpers) backend
              (example_cliArgs 1) (example_website [["a"; "b"; "c"]])
              0 [] sitemap empty_world Hn)
    as (evs & Htr & _ & _ & Hopen).
  split; [reflexivity|].
  exists evs. split; [exact Htr | exact Hopen].
Defined.

Lemma run_calls_of_url_witness :
  let backend := example_backend (except 1 page_no_render) in
  let site := example_website [["a"; "b"]] in
  let sitemap := {| rootUrl := "sitemap.xml"; urls := ["a"; "b"] |} in
  sitemaps site !! 0 = Some sitemap
  ∧ urls sitemap !! 1 = Some "b"
  ∧ filter (λ e, e.1 = OPage 0 1)
      (run_calls (H := example_helpers) backend (example_cliArgs 2) site
         [0; 1; 1; 0; 1] empty_world)
    = page_events (H := example_helpers) backend (example_cliArgs 2) site
        "out" 0 1 "b".
Proof.
  intros backend site sitemap.
  assert (Hi : sitemaps site !! 0 = Some sitemap) by reflexivity.
  assert (Hj : urls sitemap !! 1 = Some "b") by reflexivity.
  split; [exact Hi|]. split; [exact Hj|].
  exact (run_calls_of_url (H := example_helpers) backend (example_cliArgs 2)
           site [0; 1; 1; 0; 1] empty_world 0 1 sitemap "b" Hi Hj).
Defined.

Lemma run_shape_witness :
  let backend := example_backend (except 1 page_no_render) in
  let site := example_website [["a"; "b"]; []; ["c"]] in
  let w' := (main (H := example_helpers) backend (example_cliArgs 0) site
               [0; 1; 1; 0; 1] empty_world).2 in
  pools_run backend site = true
  ∧ ∃ segments,
      run_calls (H := example_helpers) backend (example_cliArgs 0) site
        [0; 1; 1; 0; 1] empty_world
      = run_prologue backend site ++ concat segments
        ++ run_epilogue backend site (results w')
      ∧ length segments = 1.
Proof.
  intros backend site w'.
  assert (Hrun : pools_run backend site = true) by reflexivity.
  split; [exact Hrun|].
  destruct (run_shape (H := example_helpers) backend (example_cliArgs 0) site
              [0; 1; 1; 0; 1] empty_world Hrun)
    as ((segments & Hcalls & Hsegs) & _).
  exists segments. split; [exact Hcalls|].
  exact (eq_sym (Forall2_length _ _ _ Hsegs)).
Defined.

(** A URL in a subdirectory: the directories above its directory are
    made with it. *)
Lemma nested_directories_example :
  let w' := (main (H := example_helpers) (example_backend (λ _ _, page_fine))
               (example_cliArgs 2) (example_website [["a/b"]])
               [] empty_world).2 in
  dirs w' = {[ "out"; "out/a"; "out/a/b" ]}.
Proof. intros w'. vm_compute. reflexivity. Qed.

Lemma run_pdf_options_witness :
  let backend := example_backend (except 1 page_no_render) in
  let site := example_website [["a"; "b"]] in
  let options :=
    {| pdf_timeout := 0; pdf_path := "out/b/Home.pdf"; pdf_format := "a4";
       pdf_displayHeaderFooter := true;
       pdf_headerTemplate := "H:Home"; pdf_footerTemplate := "F:Home";
       pdf_margin := {| top := "50px"; bottom := "50px";
                        left := "0px"; right := "0px" |};
       pdf_printBackground := true |} in
  let e := (OPage 0 1, APdf options false) in
  e ∈ run_calls (H := example_helpers) backend (example_cliArgs 2) site
        [0; 1; 1; 0; 1] empty_world
  ∧ e.2 = APdf options false
  ∧ pdf_format options = "a4"
  ∧ pdf_margin options
    = {| top := marginTop (example_cliArgs 2);
         bottom := marginBottom (example_cliArgs 2);
         left := marginLeft (example_cliArgs 2);
         right := marginRight (example_cliArgs 2) |}.
Proof.
  intros backend site options e.
  assert (Hin : e ∈ run_calls (H := example_helpers) backend (example_cliArgs 2)
                      site [0; 1; 1; 0; 1] empty_world).
  { apply (list_elem_of_lookup_2 _ 15). reflexivity. }
  assert (Heq : e.2 = APdf options false) by reflexivity.
  destruct (run_pdf_options (H := example_helpers) backend (example_cliArgs 2)
              site [0; 1; 1; 0; 1] empty_world e options false Hin Heq)
    as (_ & _ & Hformat & _ & _ & Hmargin).
  split; [exact Hin|]. split; [exact Heq|].
  split; [exact Hformat | exact Hmargin].
Defined.

Lemma example_all_fine : all_fine (example_backend (λ _ _, page_fine)).
Proof.
  unfold all_fine. simpl.
  repeat split; try reflexivity. eexists. reflexivity.
Defined.

Lemma run_all_fine_witness :
  let backend := example_backend (λ _ _, page_fine) in
  let site := example_website [["a"; "b"]; []; ["c"]] in
  let run := main (H := example_helpers) backend (example_cliArgs 2) site
               [0; 1; 1; 0; 1] empty_world in
  all_fine backend
  ∧ 1 ≤ processPool (example_cliArgs 2)
  ∧ run.1 = Fulfilled
  ∧ ∃ new, results run.2 = results empty_world ++ new
           ∧ oc_url <$> new ≡ₚ run_urls site
           ∧ Forall (λ o, oc_status o = STATUS_PRINTED) new.
Proof.
  intros backend site run.
  assert (Hn : 1 ≤ processPool (example_cliArgs 2)) by (simpl; lia).
  destruct (run_all_fine (H := example_helpers) backend (example_cliArgs 2) site
              [0; 1; 1; 0; 1] empty_world example_all_fine Hn)
    as (Hr & Hnew & _).
  split; [exact example_all_fine|]. split; [exact Hn|].
  split; [exact Hr | exact Hnew].
Defined.

Lemma run_sequential_witness :
  let backend := example_backend (except 1 page_no_render) in
  let site := example_website [["a"; "b"]; []; ["c"]] in
  let w' := (main (H := example_helpers) backend (example_cliArgs 1) site
               [0; 1; 1; 0; 1] empty_world).2 in
  processPool (example_cliArgs 1) = 1
  ∧ run_calls (H := example_helpers) backend (example_cliArgs 1) site
      [0; 1; 1; 0; 1] empty_world
    = run_prologue backend site
      ++ run_events (H := example_helpers) backend (example_cliArgs 1) site
      ++ run_epilogue backend site (results w').
Proof.
  intros backend site w'.
  assert (Hone : processPool (example_cliArgs 1) = 1) by reflexivity.
  split; [exact Hone|].
  exact (proj1 (run_sequential (H := example_helpers) backend (example_cliArgs 1)
                  site Hone [0; 1; 1; 0; 1] empty_world)).
Defined.

Lemma metadata_of_names_witness :
  let elements := [(Some "author", Some "me"); (Some "", Some "x");
                   (Some "author", None); (None, Some "utf-8")] in
  let md := collect_metadata (TitleBeforeMetas "Home") elements in
  "author" ≠ EmptyString
  ∧ "author" ≠ "title"
  ∧ md !! EmptyString = None
  ∧ md !! "author" = last (named "author" elements).
Proof.
  intros elements md.
  assert (Hn : "author" ≠ EmptyString) by discriminate.
  assert (Ht : "author" ≠ "title") by discriminate.
  destruct (metadata_of_names (TitleBeforeMetas "Home") elements)
    as [Hempty Hnames].
  split; [exact Hn|]. split; [exact Ht|].
  split; [exact Hempty | exact (Hnames "author" Hn Ht)].
Defined.
